(** * Topology semantic engine: a shallow embedding and its properties

    The development follows the Python sources

    - [generators/quadlet_generator.py]  (class [QuadletGenerator]):
      enablement conditions, the enabled set, the dependency order;
    - [validators/topology_validator.py] (class [TopologyValidator]):
      port and container-name conflicts, cycle detection;
    - [state/state_tracker.py]           (class [StateTracker]):
      comparison of two state snapshots.

    Python dictionaries whose iteration order is observable (the services
    of a topology, the conflict tables of the validator, the change tables
    of a diff) are association lists in insertion order; dictionaries that
    are only looked up are [gmap]s; sets are [gset]s, or duplicate-free
    lists where the code iterates over them. *)

From Stdlib Require Import ZArith String Ascii QArith.
From stdpp Require Import sorting relations numbers strings gmap fin_maps list.
Close Scope Q_scope.
#[local] Set Warnings "-clear-no-such-hyp".

(** ** Python values and strings *)

Module Py.

(** JSON values as [json.load] builds them.  A finite float is
    represented by the rational it denotes, which is all that [==]
    observes.  [json.load] also reads [NaN], [Infinity] and [-Infinity]:
    each is a constant of the module [json.decoder], so that every [NaN]
    of a loaded document is one and the same object. *)
#[warnings="-register-all"] Inductive value :=
| VNone
| VBool (b : bool)
| VInt (z : Z)
| VFloat (q : Q)
| VStr (s : string)
| VList (l : list value)
| VDict (d : gmap string value)
| VNaN
| VInf (negative : bool).

(** [bool], [int] and [float] compare by numeric value: [True == 1]. *)
Definition num_of (v : value) : option Q :=
  match v with
  | VBool b => Some (inject_Z (if b then 1 else 0))
  | VInt z => Some (inject_Z z)
  | VFloat q => Some q
  | _ => None
  end.

(** [x is y], where [==] can tell: the items of a list and the values of
    a dict are compared by [is] first and by [==] next, and [NaN], which
    is not [==] to itself, is the one value on which that shows. *)
Definition same_nan (x y : value) : bool :=
  match x, y with
  | VNaN, VNaN => true
  | _, _ => false
  end.

(** [a == b] *)
Fixpoint eqb (a b : value) : bool :=
  match a, b with
  | VNone, VNone => true
  | VStr s, VStr t => bool_decide (s = t)
  | VInf m, VInf n => Bool.eqb m n
  | VList l, VList m =>
      (fix go (l m : list value) : bool :=
         match l, m with
         | [], [] => true
         | x :: l, y :: m => (same_nan x y || eqb x y) && go l m
         | _, _ => false
         end) l m
  | VDict d, VDict e =>
      bool_decide (dom d = dom e) &&
      map_fold (λ k v acc,
                  acc && match e !! k with
                         | Some w => same_nan v w || eqb v w
                         | None => false
                         end) true d
  | _, _ =>
      match num_of a, num_of b with
      | Some x, Some y => Qeq_bool x y
      | _, _ => false
      end
  end.

(** An item of a list or a value of a dict against another. *)
Definition item_eqb (x y : value) : bool := same_nan x y || eqb x y.

(** [a != b] *)
Definition ne (a b : value) : bool := negb (eqb a b).

(** [d.get(k)] on a JSON object: [None] when the key is absent. *)
Definition get (k : string) (d : gmap string value) : value :=
  default VNone (d !! k).

(** Characters are the code points below 256.  [is_space] is
    [str.isspace] (the class [\s] of [re] on [str] patterns) and
    [is_word] is the class [\w]: alphanumeric or underscore. *)
Definition between (lo hi : N) (c : ascii) : bool :=
  let n := N_of_ascii c in ((lo <=? n) && (n <=? hi))%N.

Definition is_space (c : ascii) : bool :=
  between 9 13 c || between 28 32 c || between 133 133 c
  || between 160 160 c.

Definition is_word (c : ascii) : bool :=
  between 48 57 c || between 65 90 c || between 95 95 c
  || between 97 122 c
  || between 170 170 c || between 178 179 c || between 181 181 c
  || between 185 186 c || between 188 190 c || between 192 214 c
  || between 216 246 c || between 248 255 c.

Definition is_newline (c : ascii) : bool := between 10 10 c.

(** The longest prefix whose characters satisfy [p], and the rest. *)
Fixpoint span (p : ascii → bool) (s : string) : string * string :=
  match s with
  | EmptyString => (EmptyString, EmptyString)
  | String c r =>
      if p c then let '(a, b) := span p r in (String c a, b)
      else (EmptyString, s)
  end.

Definition is_empty (s : string) : bool :=
  match s with EmptyString => true | _ => false end.

(** [s.startswith(p)], returning what follows the prefix. *)
Fixpoint strip_prefix (p s : string) : option string :=
  match p with
  | EmptyString => Some s
  | String a p' =>
      match s with
      | EmptyString => None
      | String b s' => if Ascii.eqb a b then strip_prefix p' s' else None
      end
  end.

Definition lstrip (s : string) : string := (span is_space s).2.

Fixpoint rstrip (s : string) : string :=
  match s with
  | EmptyString => EmptyString
  | String c r =>
      let r' := rstrip r in
      if is_space c && is_empty r' then EmptyString else String c r'
  end.

(** [s.strip()] *)
Definition strip (s : string) : string := rstrip (lstrip s).

Definition startswith_quote (s : string) : bool :=
  match s with String c _ => Ascii.eqb c "'" | EmptyString => false end.

Fixpoint endswith_quote (s : string) : bool :=
  match s with
  | EmptyString => false
  | String c EmptyString => Ascii.eqb c "'"
  | String _ r => endswith_quote r
  end.

Fixpoint drop_last (s : string) : string :=
  match s with
  | EmptyString => EmptyString
  | String _ EmptyString => EmptyString
  | String c r => String c (drop_last r)
  end.

(** [s[1:-1]] *)
Definition slice_1_m1 (s : string) : string :=
  match s with EmptyString => EmptyString | String _ r => drop_last r end.

(** [sep.join(l)] *)
Fixpoint join (sep : string) (l : list string) : string :=
  match l with
  | [] => EmptyString
  | x :: l' =>
      match l' with
      | [] => x
      | _ => x +:+ sep +:+ join sep l'
      end
  end.

(** [sorted(X)] for a set of strings: ascending by code points. *)
Definition sorted (X : gset string) : list string :=
  merge_sort String.le (elements X).

(** What a call can do besides returning. *)
Inductive outcome (A : Type) :=
| Return (a : A)
| KeyError (k : string)
| ValueError (msg : string)
| OutOfFuel.
Arguments Return {A} a.
Arguments KeyError {A} k.
Arguments ValueError {A} msg.
Arguments OutOfFuel {A}.

End Py.

Import Py.

(** ** The topology document *)

Module Topology.

(** A field definition is the JSON object of the field: [default],
    [type], [x-sensitive], ... *)
Abbreviation field_def := (gmap string value).

Record infrastructure := {
  enabled : bool;                  (* infra.get('enabled', False) *)
  enabled_by : list string;        (* infra.get('enabled_by', []) *)
  requires : list string;          (* infra.get('requires', []) *)
  published_port : option Z;       (* infra.get('published_port') *)
  container_name : option string;  (* infra.get('container_name') *)
}.

Record configuration := {
  properties : gmap string field_def;  (* config.get('properties', {}) *)
}.

Record service := {
  infra : infrastructure;   (* service['infrastructure'] *)
  config : configuration;   (* service.get('configuration', {}) *)
}.

(** [topology['topology']['services']], in document order. *)
Abbreviation services := (list (string * service)).

(** [self.services[name]] / [name in self.services] *)
Fixpoint services_get (name : string) (svcs : services) : option service :=
  match svcs with
  | [] => None
  | (n, s) :: rest => if bool_decide (n = name) then Some s
                      else services_get name rest
  end.

(** The [requires] relation of the document: [requires_edge svcs a b]
    when service [a] lists [b]. *)
Definition requires_edge (svcs : services) (a b : string) : Prop :=
  ∃ s, services_get a svcs = Some s ∧ b ∈ requires (infra s).

End Topology.

Import Topology.

(** ** [QuadletGenerator] *)

Module QuadletGenerator.

(** *** [_evaluate_condition]

    The condition is matched against
    [^(\w+)\.configuration\.(\w+)\s*(==|!=)\s*(.+)$].

    [\w+] is greedy and is followed by a literal dot, resp. by [\s*] and an
    operator character; none of these is a word character, so the only
    split that can succeed is the longest run of word characters, and
    likewise for the first [\s*].  The tail [\s*(.+)$] does backtrack:
    [\s*] first takes a blank and hands it back to [.+] when the rest
    cannot be matched otherwise. *)

(** [(.+)$]: a non-empty run without newline, up to the end of the string
    or to a newline that ends it. *)
Definition dot_plus_end (s : string) : option string :=
  let '(body, rest) := span (λ c, negb (is_newline c)) s in
  if is_empty body then None
  else match rest with
       | EmptyString => Some body
       | String _ EmptyString => Some body
       | _ => None
       end.

(** [\s*(.+)$] *)
Fixpoint literal_tail (s : string) : option string :=
  match s with
  | EmptyString => dot_plus_end s
  | String c r =>
      if is_space c then
        match literal_tail r with
        | Some g => Some g
        | None => dot_plus_end s
        end
      else dot_plus_end s
  end.

(** [(==|!=)] *)
Definition operator_at (s : string) : option (string * string) :=
  match s with
  | String "=" (String "=" r) => Some ("==", r)
  | String "!" (String "=" r) => Some ("!=", r)
  | _ => None
  end%string.

(** [re.match(...)], giving [match.groups()]. *)
Definition re_match (condition : string)
  : option (string * string * string * string) :=
  let '(service_name, r1) := span is_word condition in
  if is_empty service_name then None else
  match strip_prefix ".configuration." r1 with
  | None => None
  | Some r2 =>
      let '(field_name, r3) := span is_word r2 in
      if is_empty field_name then None else
      match operator_at (span is_space r3).2 with
      | None => None
      | Some (operator, r4) =>
          match literal_tail r4 with
          | None => None
          | Some expected_value =>
              Some (service_name, field_name, operator, expected_value)
          end
      end
  end.

(** "Parse expected value": [true] and [false] become booleans, a
    single-quoted text loses its quotes, anything else stays the text it
    is. *)
Definition parse_expected (expected_value : string) : value :=
  let expected_value := strip expected_value in
  if bool_decide (expected_value = "true") then VBool true
  else if bool_decide (expected_value = "false") then VBool false
  else if startswith_quote expected_value && endswith_quote expected_value
       then VStr (slice_1_m1 expected_value)
  else VStr expected_value.

(** The result and the lines printed.  With the typed document above no
    step inside the [try] can raise, so the [except] branch has no
    counterpart. *)
Definition _evaluate_condition (svcs : services) (condition : string)
  : bool * list string :=
  match re_match condition with
  | None => (false, ["Warning: Invalid condition format: " +:+ condition])
  | Some (service_name, field_name, operator, expected_value) =>
      match services_get service_name svcs with
      | None => (false, [])
      | Some svc =>
          match properties (config svc) !! field_name with
          | None => (false, [])
          | Some field_def =>
              let actual_value := Py.get "default" field_def in
              let expected_value := parse_expected expected_value in
              if bool_decide (operator = "==")
              then (Py.eqb actual_value expected_value, [])
              else if bool_decide (operator = "!=")
              then (Py.ne actual_value expected_value, [])
              else (false, [])
          end
      end
  end.

(** *** [get_enabled_services] *)

Definition get_enabled_services (svcs : services) : gset string :=
  foldl (λ (enabled : gset string) '(service_name, svc),
           if Topology.enabled (infra svc) then {[service_name]} ∪ enabled
           else if existsb (λ condition,
                              (_evaluate_condition svcs condition).1)
                           (enabled_by (infra svc))
                then {[service_name]} ∪ enabled
                else enabled)
        ∅ svcs.

(** *** [topological_sort]

    [enabled_services] is a Python set; the list given here is the order
    in which that set is iterated (the same for both iterations, as the
    set is not changed in between). *)

(** [defaultdict(list)] and [defaultdict(int)] *)
Definition dd_list (graph : gmap string (list string)) (k : string)
  : list string := default [] (graph !! k).

Definition dd_int (in_degree : gmap string Z) (k : string) : Z :=
  default 0%Z (in_degree !! k).

(** [for dep in requires: if dep in enabled_services: ...] *)
Definition add_edges (enabled_services : list string) (service_name : string)
    (st : gmap string (list string) * gmap string Z) (deps : list string)
  : gmap string (list string) * gmap string Z :=
  foldl (λ '(graph, in_degree) dep,
           if bool_decide (dep ∈ enabled_services)
           then (<[dep := dd_list graph dep ++ [service_name]]> graph,
                 <[service_name := (dd_int in_degree service_name + 1)%Z]>
                   in_degree)
           else (graph, in_degree))
        st deps.

(** "Build dependency graph" *)
Fixpoint build_graph (svcs : services) (enabled_services : list string)
    (todo : list string) (st : gmap string (list string) * gmap string Z)
  : outcome (gmap string (list string) * gmap string Z) :=
  match todo with
  | [] => Return st
  | service_name :: todo =>
      match services_get service_name svcs with
      | None => KeyError service_name
      | Some svc =>
          build_graph svcs enabled_services todo
            (add_edges enabled_services service_name st
                       (requires (infra svc)))
      end
  end.

(** One turn of [for dependent in graph[service]]. *)
Definition release (st : gmap string Z * list string) (dependent : string)
  : gmap string Z * list string :=
  let '(in_degree, queue) := st in
  let d := (dd_int in_degree dependent - 1)%Z in
  let in_degree := <[dependent := d]> in_degree in
  if bool_decide (d = 0%Z) then (in_degree, queue ++ [dependent])
  else (in_degree, queue).

(** [while queue: ...]; [None] when the fuel runs out. *)
Fixpoint kahn_loop (fuel : nat) (graph : gmap string (list string))
    (in_degree : gmap string Z) (queue sorted_services : list string)
  : option (list string) :=
  match fuel with
  | 0 => None
  | S fuel =>
      match queue with
      | [] => Some sorted_services
      | svc :: queue =>
          let sorted_services := sorted_services ++ [svc] in
          let '(in_degree, queue) :=
            foldl release (in_degree, queue) (dd_list graph svc) in
          kahn_loop fuel graph in_degree queue sorted_services
      end
  end.

Definition topological_sort (svcs : services) (enabled_services : list string)
  : outcome (list string) :=
  match build_graph svcs enabled_services enabled_services (∅, ∅) with
  | Return (graph, in_degree) =>
      let queue :=
        filter (λ s, dd_int in_degree s = 0%Z) enabled_services in
      match kahn_loop (S (length enabled_services)) graph in_degree queue []
      with
      | None => OutOfFuel
      | Some sorted_services =>
          if bool_decide (length sorted_services ≠ length enabled_services)
          then ValueError "Circular dependency detected"
          else Return sorted_services
      end
  | KeyError k => KeyError k
  | ValueError msg => ValueError msg
  | OutOfFuel => OutOfFuel
  end.

End QuadletGenerator.

(** ** [TopologyValidator] *)

Module TopologyValidator.

(** [table[key].append(service_name)] on a [defaultdict(list)]: a new key
    goes to the end of the table. *)
Fixpoint dd_append {K} `{EqDecision K} (key : K) (service_name : string)
    (table : list (K * list string)) : list (K * list string) :=
  match table with
  | [] => [(key, [service_name])]
  | (k, names) :: rest =>
      if bool_decide (k = key) then (k, names ++ [service_name]) :: rest
      else (k, names) :: dd_append key service_name rest
  end.

(** [str(port)] for an [int]. *)
Definition str_int (z : Z) : string := pretty.pretty z.

Definition port_conflict (port : Z) (names : list string) : string :=
  "Port conflict: Port " +:+ str_int port
  +:+ " is published by multiple services: " +:+ join ", " names.

Definition name_conflict (container_name : string) (names : list string)
  : string :=
  "Container name conflict: '" +:+ container_name
  +:+ "' is used by multiple services: " +:+ join ", " names.

(** The first loop of [_validate_service_ports]. *)
Definition port_map (svcs : services) : list (Z * list string) :=
  foldl (λ port_map '(service_name, svc),
           match published_port (infra svc) with
           | Some published => dd_append published service_name port_map
           | None => port_map
           end)
        [] svcs.

(** [_validate_service_ports]: the errors after the call, given the
    errors before it. *)
Definition _validate_service_ports (svcs : services) (errors : list string)
  : list string :=
  foldl (λ errors '(port, names),
           if bool_decide (1 < length names)
           then errors ++ [port_conflict port names]
           else errors)
        errors (port_map svcs).

(** The first loop of [_validate_container_names]; [if container_name:]
    skips a missing and an empty name. *)
Definition name_map (svcs : services) : list (string * list string) :=
  foldl (λ name_map '(service_name, svc),
           match container_name (infra svc) with
           | Some cname =>
               if is_empty cname then name_map
               else dd_append cname service_name name_map
           | None => name_map
           end)
        [] svcs.

Definition _validate_container_names (svcs : services)
    (errors : list string) : list string :=
  foldl (λ errors '(cname, names),
           if bool_decide (1 < length names)
           then errors ++ [name_conflict cname names]
           else errors)
        errors (name_map svcs).

(** *** [_validate_no_circular_dependencies] *)

(** The two sets of the closure [has_cycle] and [self.errors]. *)
Record dfs_state := {
  visited : gset string;
  rec_stack : gset string;
  errors : list string;
}.

Definition cycle_error (cycle : list string) : string :=
  "Circular dependency detected: " +:+ join " -> " cycle.

(** [for dep in requires: ...] followed by the two closing statements of
    [has_cycle]; [call] is the recursive call. *)
Fixpoint for_requires
    (call : string → list string → dfs_state → option (bool * dfs_state))
    (service_name : string) (path : list string)
    (deps : list string) (st : dfs_state) : option (bool * dfs_state) :=
  match deps with
  | [] =>
      Some (false, {| visited := visited st;
                      rec_stack := rec_stack st ∖ {[service_name]};
                      errors := errors st |})
  | dep :: deps =>
      if bool_decide (dep ∉ visited st) then
        match call dep (path ++ [service_name]) st with
        | None => None
        | Some (true, st) => Some (true, st)
        | Some (false, st) => for_requires call service_name path deps st
        end
      else if bool_decide (dep ∈ rec_stack st) then
        Some (true, {| visited := visited st;
                       rec_stack := rec_stack st;
                       errors := errors st
                                 ++ [cycle_error
                                       (path ++ [service_name; dep])] |})
      else for_requires call service_name path deps st
  end.

(** [has_cycle(service_name, path)].  [depth] is the number of nested
    calls of [has_cycle] that the interpreter still allows; a call
    beyond it raises [RecursionError], which nothing in the validator
    catches: that is the result [None]. *)
Fixpoint has_cycle (svcs : services) (depth : nat) (service_name : string)
    (path : list string) (st : dfs_state) : option (bool * dfs_state) :=
  match depth with
  | 0 => None
  | S depth =>
      let st := {| visited := {[service_name]} ∪ visited st;
                   rec_stack := {[service_name]} ∪ rec_stack st;
                   errors := errors st |} in
      match services_get service_name svcs with
      | None => Some (false, st)
      | Some svc =>
          for_requires (has_cycle svcs depth) service_name path
                       (requires (infra svc)) st
      end
  end.

(** [for service in self.services: if service not in visited: ...] *)
Fixpoint for_services (svcs : services) (depth : nat) (names : list string)
    (st : dfs_state) : option dfs_state :=
  match names with
  | [] => Some st
  | name :: names =>
      if bool_decide (name ∉ visited st) then
        match has_cycle svcs depth name [] st with
        | None => None
        | Some (_, st) => for_services svcs depth names st
        end
      else for_services svcs depth names st
  end.

(** What the check does: it returns, with the errors after the call, or
    it raises [RecursionError]. *)
Inductive run (A : Type) :=
| Returns (a : A)
| RecursionError.
Arguments Returns {A} a.
Arguments RecursionError {A}.

(** [_validate_no_circular_dependencies], given the errors before the
    call and the depth of recursion left to [has_cycle]. *)
Definition _validate_no_circular_dependencies (depth : nat)
    (svcs : services) (errors : list string) : run (list string) :=
  match for_services svcs depth svcs.*1
          {| visited := ∅; rec_stack := ∅; errors := errors |} with
  | Some st => Returns (TopologyValidator.errors st)
  | None => RecursionError
  end.

End TopologyValidator.

(** ** [StateTracker] *)

Module StateTracker.

(** A field state is the JSON object with the keys [state], [value],
    [required], [type], [sensitive], [visibility] and, when present,
    [template_path] and [secret_ref]. *)
Abbreviation field_state := (gmap string value).

Record service_state := {
  fields : gmap string field_state;   (* service.get('fields', {}) *)
  summary : gmap string Z;
}.

Record snapshot := {
  timestamp : string;
  schema_version : option string;       (* state.get('schema_version') *)
  services : gmap string service_state; (* state.get('services', {}) *)
}.

(** [{'old': ..., 'new': ...}] under the keys [value] and [state]. *)
Record field_changes := {
  value_change : option (value * value);
  state_change : option (value * value);
}.

Record service_changes := {
  fields_added : list string;
  fields_removed : list string;
  fields_changed : list (string * field_changes);
}.

Record changes := {
  services_added : list string;
  services_removed : list string;
  services_modified : list (string * service_changes);
}.

Record diff := {
  diff_timestamp : string;
  old_version : option string;
  new_version : option string;
  diff_changes : changes;
}.

(** The body of the loop "Fields changed": the entry put into
    [fields_changed], if any. *)
Definition compare_field (old_field new_field : field_state)
  : option field_changes :=
  let value_change :=
    if Py.ne (Py.get "value" old_field) (Py.get "value" new_field)
    then Some (Py.get "value" old_field, Py.get "value" new_field)
    else None in
  let state_change :=
    if Py.ne (Py.get "state" old_field) (Py.get "state" new_field)
    then Some (Py.get "state" old_field, Py.get "state" new_field)
    else None in
  match value_change, state_change with
  | None, None => None
  | _, _ => Some {| value_change := value_change;
                    state_change := state_change |}
  end.

Definition _compare_service_states (old_service new_service : service_state)
  : option service_changes :=
  let old_fields := fields old_service in
  let new_fields := fields new_service in
  let old_field_names := dom old_fields in
  let new_field_names := dom new_fields in
  let changes :=
    {| fields_added := sorted (new_field_names ∖ old_field_names);
       fields_removed := sorted (old_field_names ∖ new_field_names);
       fields_changed :=
         omap (λ field_name,
                 old_field ← old_fields !! field_name;
                 new_field ← new_fields !! field_name;
                 field_changes ← compare_field old_field new_field;
                 Some (field_name, field_changes))
              (sorted (old_field_names ∩ new_field_names)) |} in
  match fields_added changes, fields_removed changes, fields_changed changes
  with
  | [], [], [] => None
  | _, _, _ => Some changes
  end.

(** [now] is [datetime.utcnow().isoformat() + 'Z']. *)
Definition compare_states (now : string) (old_state new_state : snapshot)
  : diff :=
  let old_services := dom (services old_state) in
  let new_services := dom (services new_state) in
  {| diff_timestamp := now;
     old_version := schema_version old_state;
     new_version := schema_version new_state;
     diff_changes :=
       {| services_added := sorted (new_services ∖ old_services);
          services_removed := sorted (old_services ∖ new_services);
          services_modified :=
            omap (λ service_name,
                    old_service ← services old_state !! service_name;
                    new_service ← services new_state !! service_name;
                    service_diff ←
                      _compare_service_states old_service new_service;
                    Some (service_name, service_diff))
                 (sorted (old_services ∩ new_services)) |} |}.

End StateTracker.

(** * Properties *)

(** ** Strings *)

Section strings.

Fixpoint all_chars (p : ascii → bool) (s : string) : bool :=
  match s with
  | EmptyString => true
  | String c r => p c && all_chars p r
  end.

(** [s] is empty or starts with a character outside [p]. *)
Definition stops (p : ascii → bool) (s : string) : bool :=
  match s with
  | EmptyString => true
  | String c _ => negb (p c)
  end.

Lemma append_nil (b : string) : "" +:+ b = b.
Proof. reflexivity. Qed.

Lemma append_cons x (a b : string) : String x a +:+ b = String x (a +:+ b).
Proof. reflexivity. Qed.

Lemma append_assoc (a b c : string) : (a +:+ b) +:+ c = a +:+ b +:+ c.
Proof.
  induction a as [|x a IH]; [done|]. by rewrite !append_cons, IH.
Qed.

Lemma append_empty_r (a : string) : a +:+ "" = a.
Proof. induction a as [|x a IH]; [done|]. by rewrite append_cons, IH. Qed.

Lemma span_app p a b :
  all_chars p a = true → stops p b = true → span p (a +:+ b) = (a, b).
Proof.
  induction a as [|x a IH]; intros Ha Hb.
  - rewrite append_nil. destruct b as [|y b]; simpl in *; [done|].
    by apply negb_true_iff in Hb as ->.
  - rewrite append_cons. simpl in *.
    apply andb_true_iff in Ha as [-> Ha]. by rewrite IH.
Qed.

Lemma span_spec p s a b :
  span p s = (a, b) →
  s = a +:+ b ∧ all_chars p a = true ∧ stops p b = true.
Proof.
  revert a b. induction s as [|x s IH]; simpl; intros a b H.
  - by inversion H.
  - destruct (p x) eqn:Hx.
    + destruct (span p s) as [a' b'] eqn:Hs. inversion H; subst.
      destruct (IH a' b eq_refl) as (-> & Ha & Hb).
      rewrite append_cons. simpl. by rewrite Hx, Ha.
    + inversion H; subst. simpl. by rewrite Hx.
Qed.

Lemma strip_prefix_app p s : strip_prefix p (p +:+ s) = Some s.
Proof.
  induction p as [|x p IH]; [done|].
  rewrite append_cons. simpl. by rewrite Ascii.eqb_refl.
Qed.

Lemma strip_prefix_spec p s r : strip_prefix p s = Some r → s = p +:+ r.
Proof.
  revert s. induction p as [|x p IH]; simpl; intros s H.
  - by inversion H.
  - destruct s as [|y s]; [done|].
    destruct (Ascii.eqb x y) eqn:Hxy; [|done].
    apply Ascii.eqb_eq in Hxy as ->. by rewrite append_cons, (IH s H).
Qed.

Lemma is_empty_true s : is_empty s = true ↔ s = "".
Proof. by destruct s. Qed.

Lemma is_empty_false s : is_empty s = false ↔ s ≠ "".
Proof. by destruct s. Qed.

(** A text without blanks at either end is left alone by [strip]. *)
Lemma rstrip_no_space s :
  all_chars (λ c, negb (is_space c)) s = true → rstrip s = s.
Proof.
  induction s as [|x s IH]; simpl; [done|]. intros H.
  apply andb_true_iff in H as [Hx Hs]. apply negb_true_iff in Hx.
  by rewrite Hx, IH.
Qed.

Lemma strip_no_space s :
  all_chars (λ c, negb (is_space c)) s = true → strip s = s.
Proof.
  intros H. unfold strip, lstrip.
  destruct s as [|x s]; [done|]. simpl in *.
  apply andb_true_iff in H as [Hx Hs]. apply negb_true_iff in Hx.
  rewrite Hx. simpl. by rewrite Hx, rstrip_no_space.
Qed.

End strings.

(** ** The condition evaluator *)

Section condition_evaluator.

Import QuadletGenerator.

Definition newline : string := String "010" "".

(** The text [svc.configuration.f op lit], with blanks [ws1] and [ws2]
    around the operator. *)
Definition condition_text (svc f ws1 op ws2 lit : string) : string :=
  svc +:+ ".configuration." +:+ f +:+ ws1 +:+ op +:+ ws2 +:+ lit.

Definition word (s : string) : Prop :=
  s ≠ "" ∧ all_chars is_word s = true.

Definition blanks (s : string) : Prop := all_chars is_space s = true.

Definition is_operator (op : string) : Prop := op = "==" ∨ op = "!=".

Definition one_line (s : string) : Prop :=
  s ≠ "" ∧ all_chars (λ c, negb (is_newline c)) s = true.

Definition line_end (nl : string) : Prop := nl = "" ∨ nl = newline.

(** The pattern of the evaluator, said without a matcher: a word, the
    text [.configuration.], a word, an operator between blanks, a
    non-empty rest of the line. *)
Definition well_shaped (c : string) : Prop :=
  ∃ svc f ws1 op ws2 lit nl,
    c = condition_text svc f ws1 op ws2 lit +:+ nl ∧
    word svc ∧ word f ∧ blanks ws1 ∧ is_operator op ∧ blanks ws2 ∧
    one_line lit ∧ line_end nl.

Lemma space_not_word c : is_space c = true → is_word c = false.
Proof.
  destruct c as [[] [] [] [] [] [] [] []]; vm_compute; congruence.
Qed.

Lemma stops_line_end nl :
  line_end nl → stops (λ c, negb (is_newline c)) nl = true.
Proof. by intros [-> | ->]. Qed.

Lemma dot_plus_end_app lit nl :
  one_line lit → line_end nl → dot_plus_end (lit +:+ nl) = Some lit.
Proof.
  intros [Hne Hl] Hnl. unfold dot_plus_end.
  rewrite span_app by auto using stops_line_end.
  apply is_empty_false in Hne as ->. by destruct Hnl as [-> | ->].
Qed.

Lemma dot_plus_end_spec s g :
  dot_plus_end s = Some g →
  ∃ nl, s = g +:+ nl ∧ one_line g ∧ line_end nl.
Proof.
  unfold dot_plus_end.
  destruct (span _ s) as [body rest] eqn:Hspan.
  apply span_spec in Hspan as (-> & Hbody & Hrest).
  destruct (is_empty body) eqn:He; [done|]. apply is_empty_false in He.
  destruct rest as [|x [|y rest]]; intros [= <-].
  - exists "". split_and!; try done. by left.
  - exists (String x ""). split_and!; try done. right.
    simpl in Hrest. apply negb_true_iff, negb_false_iff in Hrest.
    unfold newline. f_equal.
    destruct x as [[] [] [] [] [] [] [] []]; vm_compute in Hrest;
      congruence.
Qed.

Lemma literal_tail_exact ws lit :
  blanks ws → one_line lit → stops is_space lit = true →
  literal_tail (ws +:+ lit) = Some lit.
Proof.
  intros Hws Hlit Hstop. induction ws as [|x ws IH].
  - rewrite append_nil.
    assert (dot_plus_end lit = Some lit) as Hd.
    { rewrite <-(append_empty_r lit) at 1.
      apply dot_plus_end_app; [done | by left]. }
    destruct lit as [|y lit]; [done|]. simpl in *.
    by apply negb_true_iff in Hstop as ->.
  - rewrite append_cons. simpl.
    apply andb_true_iff in Hws as [-> Hws]. by rewrite IH.
Qed.

Lemma literal_tail_complete ws lit nl :
  blanks ws → one_line lit → line_end nl →
  is_Some (literal_tail (ws +:+ lit +:+ nl)).
Proof.
  intros Hws Hlit Hnl. induction ws as [|x ws IH].
  - rewrite append_nil.
    pose proof (dot_plus_end_app lit nl Hlit Hnl) as Hd.
    destruct (lit +:+ nl) as [|y r] eqn:E; simpl.
    + by rewrite Hd.
    + destruct (is_space y); [|by rewrite Hd].
      destruct (literal_tail r); [done | by rewrite Hd].
  - rewrite append_cons. simpl.
    apply andb_true_iff in Hws as [-> Hws].
    by destruct (IH Hws) as [g ->].
Qed.

Lemma literal_tail_sound s g :
  literal_tail s = Some g →
  ∃ ws nl, s = ws +:+ g +:+ nl ∧ blanks ws ∧ one_line g ∧ line_end nl.
Proof.
  revert g. induction s as [|x s IH]; intros g; simpl.
  - intros (nl & -> & ? & ?)%dot_plus_end_spec. by exists "", nl.
  - destruct (is_space x) eqn:Hx.
    + destruct (literal_tail s) as [g'|] eqn:Ht.
      * intros [= <-]. destruct (IH g' eq_refl) as (ws & nl & -> & ? & ? & ?).
        exists (String x ws), nl. split_and!; try done.
        unfold blanks. simpl. by rewrite Hx.
      * intros (nl & -> & ? & ?)%dot_plus_end_spec. by exists "", nl.
    + intros (nl & -> & ? & ?)%dot_plus_end_spec. by exists "", nl.
Qed.

(** The head of the pattern is deterministic; what remains after the
    operator goes to [literal_tail]. *)
Lemma re_match_head svc f ws1 op rest :
  word svc → word f → blanks ws1 → is_operator op →
  re_match (svc +:+ ".configuration." +:+ f +:+ ws1 +:+ op +:+ rest) =
  (expected_value ← literal_tail rest; Some (svc, f, op, expected_value)).
Proof.
  intros [Hs1 Hs2] [Hf1 Hf2] Hws Hop. unfold re_match.
  rewrite span_app by done.
  apply is_empty_false in Hs1 as ->.
  rewrite strip_prefix_app.
  assert (stops is_space (op +:+ rest) = true) as Hstop_op
    by (by destruct Hop as [-> | ->]).
  assert (stops is_word (ws1 +:+ op +:+ rest) = true) as Hstop.
  { destruct ws1 as [|x ws1].
    - by destruct Hop as [-> | ->].
    - rewrite append_cons. simpl. apply negb_true_iff, space_not_word.
      unfold blanks in Hws. simpl in Hws.
      by apply andb_true_iff in Hws as [-> _]. }
  rewrite span_app by done.
  apply is_empty_false in Hf1 as ->.
  rewrite span_app by done. simpl.
  by destruct Hop as [-> | ->].
Qed.

(** On a condition written with a literal that starts with a non-blank
    character the groups are the expected ones. *)
Lemma re_match_exact svc f ws1 op ws2 lit :
  word svc → word f → blanks ws1 → is_operator op → blanks ws2 →
  one_line lit → stops is_space lit = true →
  re_match (condition_text svc f ws1 op ws2 lit) = Some (svc, f, op, lit).
Proof.
  intros. unfold condition_text.
  rewrite re_match_head by done. by rewrite literal_tail_exact.
Qed.

Lemma re_match_complete c : well_shaped c → is_Some (re_match c).
Proof.
  intros (svc & f & ws1 & op & ws2 & lit & nl & -> & ? & ? & ? & ? & ? & ? & ?).
  unfold condition_text. rewrite !append_assoc.
  rewrite re_match_head by done.
  by destruct (literal_tail_complete ws2 lit nl) as [g ->].
Qed.

Lemma operator_at_spec s op r :
  operator_at s = Some (op, r) → s = op +:+ r ∧ is_operator op.
Proof.
  unfold operator_at, is_operator. intros H.
  repeat (case_match; simplify_eq); auto.
Qed.

Lemma re_match_sound c svc f op lit :
  re_match c = Some (svc, f, op, lit) →
  ∃ ws1 ws2 nl,
    c = condition_text svc f ws1 op ws2 lit +:+ nl ∧
    word svc ∧ word f ∧ blanks ws1 ∧ is_operator op ∧ blanks ws2 ∧
    one_line lit ∧ line_end nl.
Proof.
  unfold re_match.
  destruct (span is_word c) as [g1 r1] eqn:H1.
  apply span_spec in H1 as (-> & Hg1 & _).
  destruct (is_empty g1) eqn:He1; [done|]. apply is_empty_false in He1.
  destruct (strip_prefix _ r1) as [r2|] eqn:H2; [|done].
  apply strip_prefix_spec in H2 as ->.
  destruct (span is_word r2) as [g2 r3] eqn:H3.
  apply span_spec in H3 as (-> & Hg2 & _).
  destruct (is_empty g2) eqn:He2; [done|]. apply is_empty_false in He2.
  destruct (span is_space r3) as [ws1 r4] eqn:H4. simpl.
  apply span_spec in H4 as (-> & Hws1 & _).
  destruct (operator_at r4) as [[op' r5]|] eqn:H5; [|done].
  apply operator_at_spec in H5 as (-> & Hop).
  destruct (literal_tail r5) as [g|] eqn:H6; [|done].
  apply literal_tail_sound in H6 as (ws2 & nl & -> & ? & ? & ?).
  intros [= <- <- <- <-]. exists ws1, ws2, nl.
  unfold condition_text. by rewrite !append_assoc.
Qed.

(** [re.match] fails exactly on the texts that are not of the shape. *)
Lemma re_match_None c : re_match c = None ↔ ¬ well_shaped c.
Proof.
  split.
  - intros H [? Hs]%re_match_complete. congruence.
  - intros H. destruct (re_match c) as [[[[svc f] op] lit]|] eqn:E; [|done].
    destruct H. apply re_match_sound in E as (ws1 & ws2 & nl & ?).
    by exists svc, f, ws1, op, ws2, lit, nl.
Qed.

(** Whatever the tail of a text of the shape, the first three groups are
    the service, the field and the operator. *)
Lemma re_match_groups svc f ws1 op ws2 lit nl :
  word svc → word f → blanks ws1 → is_operator op → blanks ws2 →
  one_line lit → line_end nl →
  ∃ expected_value,
    re_match (condition_text svc f ws1 op ws2 lit +:+ nl)
    = Some (svc, f, op, expected_value).
Proof.
  intros. unfold condition_text. rewrite !append_assoc.
  rewrite re_match_head by done.
  destruct (literal_tail_complete ws2 lit nl) as [g ->]; by eauto.
Qed.

(** The parsed literal is a boolean or a string, never [None]. *)
Lemma parse_expected_kind e :
  (∃ b, parse_expected e = VBool b) ∨ (∃ t, parse_expected e = VStr t).
Proof. unfold parse_expected. repeat case_match; eauto. Qed.

(** *** Integer literals *)

Definition is_digit (c : ascii) : bool := between 48 57 c.

Definition unsigned (lit : string) : string :=
  match lit with
  | String "-" ds => ds
  | _ => lit
  end.

(** An optional minus sign and at least one digit. *)
Definition int_literal (lit : string) : Prop :=
  unsigned lit ≠ "" ∧ all_chars is_digit (unsigned lit) = true.

Definition sign_or_digit (c : ascii) : bool :=
  is_digit c || Ascii.eqb c "-".

Lemma all_chars_impl (p q : ascii → bool) s :
  (∀ c, p c = true → q c = true) →
  all_chars p s = true → all_chars q s = true.
Proof.
  intros Hpq. induction s as [|x s IH]; simpl; [done|].
  intros [Hx Hs]%andb_true_iff. by rewrite (Hpq x Hx), IH.
Qed.

Lemma int_literal_chars lit :
  int_literal lit → lit ≠ "" ∧ all_chars sign_or_digit lit = true.
Proof.
  intros [Hne Hd].
  assert (all_chars sign_or_digit (unsigned lit) = true) as Hu.
  { revert Hd. apply all_chars_impl. unfold sign_or_digit.
    by intros c ->. }
  destruct lit as [|c lit]; [done|]. split; [done|].
  destruct (Ascii.eqb c "-") eqn:Hc.
  - apply Ascii.eqb_eq in Hc as ->. done.
  - assert (unsigned (String c lit) = String c lit) as Heq.
    { by destruct c as [[] [] [] [] [] [] [] []]. }
    by rewrite Heq in Hu.
Qed.

Lemma sign_or_digit_plain c :
  sign_or_digit c = true →
  is_space c = false ∧ is_newline c = false ∧
  c ≠ "t"%char ∧ c ≠ "f"%char ∧ c ≠ "'"%char.
Proof.
  destruct c as [[] [] [] [] [] [] [] []]; vm_compute;
    intros; split_and!; congruence.
Qed.

(** An integer literal is kept as the text it is. *)
Lemma parse_expected_int lit :
  int_literal lit → parse_expected lit = VStr lit.
Proof.
  intros [Hne Hall]%int_literal_chars. unfold parse_expected.
  rewrite strip_no_space.
  2:{ revert Hall. apply all_chars_impl.
      intros c Hc%sign_or_digit_plain. by destruct Hc as [-> _]. }
  destruct lit as [|c lit]; [done|]. simpl in Hall.
  apply andb_true_iff in Hall as [Hc%sign_or_digit_plain _].
  destruct Hc as (_ & _ & Ht & Hf & Hq).
  rewrite !bool_decide_eq_false_2 by congruence.
  simpl. by apply Ascii.eqb_neq in Hq as ->.
Qed.

Lemma int_literal_line lit :
  int_literal lit → one_line lit ∧ stops is_space lit = true.
Proof.
  intros [Hne Hall]%int_literal_chars. split; [split; [done|]|].
  - revert Hall. apply all_chars_impl.
    intros c Hc%sign_or_digit_plain. by destruct Hc as (_ & -> & _).
  - destruct lit as [|c lit]; [done|]. simpl in *.
    apply andb_true_iff in Hall as [Hc%sign_or_digit_plain _].
    by destruct Hc as [-> _].
Qed.

(** *** The grammar of the specification

    [<serviceName> "." "configuration" "." <fieldName> ("==" | "!=")
    <literal>], where [<literal>] is [true], [false], a single-quoted
    string, or a bare integer; blanks around the operator. *)
Definition spec_literal (lit : string) : Prop :=
  lit = "true" ∨ lit = "false" ∨
  (∃ body, lit = "'" +:+ body +:+ "'") ∨
  int_literal lit.

Definition spec_grammar (c : string) : Prop :=
  ∃ svc f ws1 op ws2 lit,
    c = condition_text svc f ws1 op ws2 lit ∧
    word svc ∧ word f ∧ blanks ws1 ∧ is_operator op ∧ blanks ws2 ∧
    spec_literal lit.

Lemma spec_literal_starts lit :
  spec_literal lit → stops is_space lit = true ∧ lit ≠ "".
Proof.
  intros [-> | [-> | [[body ->] | H]]]; try done.
  apply int_literal_line in H as [[? _] ?]. done.
Qed.

(** Where the regular expression matches a text of the grammar, its last
    group begins with the literal. *)
Lemma spec_grammar_group c svc f op g :
  spec_grammar c → re_match c = Some (svc, f, op, g) →
  stops is_space g = true →
  ∃ nl, spec_literal (g +:+ nl) ∧ line_end nl.
Proof.
  intros (svc' & f' & ws1 & op' & ws2 & lit & -> & ? & ? & ? & ? & Hws2 & Hlit).
  unfold condition_text. rewrite re_match_head by done.
  destruct (literal_tail (ws2 +:+ lit)) as [g'|] eqn:Ht; [|done].
  intros [= -> -> -> ->] Hg.
  rename select (blanks ws1) into Hws1.
  apply literal_tail_sound in Ht as (ws' & nl & Heq & Hws' & [Hne _] & Hnl).
  exists nl. split; [|done].
  destruct (spec_literal_starts lit Hlit) as [Hstop _].
  assert (stops is_space (g +:+ nl) = true) as Hstop'.
  { destruct g as [|x g]; [done|]. by rewrite append_cons. }
  pose proof (span_app is_space ws2 lit Hws2 Hstop) as Hspan.
  rewrite Heq, (span_app is_space ws' (g +:+ nl) Hws' Hstop') in Hspan.
  by injection Hspan as _ ->.
Qed.

End condition_evaluator.

(** ** Enablement: claims on [_evaluate_condition] and
    [get_enabled_services] *)

Section enablement.

Import QuadletGenerator.

Definition example_infra (on : bool) (conditions deps : list string)
  : infrastructure :=
  {| enabled := on; enabled_by := conditions; requires := deps;
     published_port := None; container_name := None |}.

Definition example_field (default_value : option value) : field_def :=
  match default_value with
  | Some v => {[ "default" := v; "type" := VStr "string" ]}
  | None => {[ "type" := VStr "string" ]}
  end.

(** A [ui] with four fields, switched on by a condition on a field
    without default, and a [db] that is always on. *)
Definition example_services : services :=
  [ ("ui",
     {| infra := example_infra false ["ui.configuration.token != 'x'"] ["db"];
        config := {| properties :=
          {[ "port" := example_field (Some (VInt 1));
             "tag" := example_field (Some (VStr "1"));
             "web_search" := example_field (Some (VBool true));
             "token" := example_field None ]} |} |});
    ("db",
     {| infra := example_infra true [] [];
        config := {| properties := ∅ |} |}) ].

Lemma evaluate_shaped svcs svc f ws1 op ws2 lit s fd :
  word svc → word f → blanks ws1 → is_operator op → blanks ws2 →
  one_line lit → stops is_space lit = true →
  services_get svc svcs = Some s → properties (config s) !! f = Some fd →
  _evaluate_condition svcs (condition_text svc f ws1 op ws2 lit)
  = (if bool_decide (op = "==")
     then Py.eqb (Py.get "default" fd) (parse_expected lit)
     else Py.ne (Py.get "default" fd) (parse_expected lit), []).
Proof.
  intros ???? ??? Hs Hf. unfold _evaluate_condition.
  rewrite re_match_exact, Hs, Hf by done.
  by destruct H2 as [-> | ->].
Qed.

(** C2 (as amended): a bare integer literal is not converted to a number
    but kept as its text.  With a field whose default is an integer the
    [==] form is false, whatever the digits; with a default that is the
    string of the same digits it is true.  [true] against the quoted
    ['true'] is false. *)
Theorem integer_literal_compared_as_text svcs svc f ws1 ws2 lit s fd :
  word svc → word f → blanks ws1 → blanks ws2 → int_literal lit →
  services_get svc svcs = Some s → properties (config s) !! f = Some fd →
  (∀ n, fd !! "default" = Some (VInt n) →
     (_evaluate_condition svcs (condition_text svc f ws1 "==" ws2 lit)).1
     = false)
  ∧ (fd !! "default" = Some (VStr lit) →
     (_evaluate_condition svcs (condition_text svc f ws1 "==" ws2 lit)).1
     = true)
  ∧ (fd !! "default" = Some (VBool true) →
     (_evaluate_condition svcs
        (condition_text svc f ws1 "==" ws2 "'true'")).1 = false).
Proof.
  intros Hsvc Hf Hws1 Hws2 Hlit Hs Hfd.
  destruct (int_literal_line lit Hlit) as [Hline Hstop].
  split_and!.
  - intros n Hd.
    rewrite (evaluate_shaped svcs svc f ws1 "==" ws2 lit s fd)
      by (done || by left).
    unfold Py.get. rewrite Hd, parse_expected_int by done. done.
  - intros Hd.
    rewrite (evaluate_shaped svcs svc f ws1 "==" ws2 lit s fd)
      by (done || by left).
    unfold Py.get. rewrite Hd, parse_expected_int by done. simpl.
    by rewrite bool_decide_eq_true_2.
  - intros Hd.
    rewrite (evaluate_shaped svcs svc f ws1 "==" ws2 "'true'" s fd)
      by (done || by left).
    unfold Py.get. by rewrite Hd.
Qed.

Lemma integer_literal_compared_as_text_witness :
  (∀ n, example_field (Some (VInt 1)) !! "default" = Some (VInt n) →
     (_evaluate_condition example_services
        (condition_text "ui" "port" " " "==" " " "1")).1 = false)
  ∧ (example_field (Some (VInt 1)) !! "default" = Some (VStr "1") →
     (_evaluate_condition example_services
        (condition_text "ui" "port" " " "==" " " "1")).1 = true)
  ∧ (example_field (Some (VInt 1)) !! "default" = Some (VBool true) →
     (_evaluate_condition example_services
        (condition_text "ui" "port" " " "==" " " "'true'")).1 = false).
Proof.
  eapply (integer_literal_compared_as_text example_services
            "ui" "port" " " " " "1");
    try (split; [discriminate | reflexivity]); try reflexivity.
Defined.

(** C2 fails as stated: the field [ui.port] has the integer default [1],
    and [ui.configuration.port == 1] is false; [ui.tag] has the string
    default ["1"], and [ui.configuration.tag == 1] is true. *)
Lemma integer_literal_counterexample :
  (∃ s fd, services_get "ui" example_services = Some s ∧
           properties (config s) !! "port" = Some fd ∧
           fd !! "default" = Some (VInt 1)) ∧
  (_evaluate_condition example_services "ui.configuration.port == 1").1
  = false ∧
  (∃ s fd, services_get "ui" example_services = Some s ∧
           properties (config s) !! "tag" = Some fd ∧
           fd !! "default" = Some (VStr "1")) ∧
  (_evaluate_condition example_services "ui.configuration.tag == 1").1
  = true.
Proof.
  split_and!; [|vm_compute; reflexivity| |vm_compute; reflexivity];
    eexists _, _; split_and!; reflexivity.
Qed.

(** *** The enabled set *)

Lemma enabled_fold (svcs : services) (l : services) (acc : gset string) x :
  x ∈ foldl (λ (enabled : gset string) '(service_name, svc),
               if Topology.enabled (infra svc)
               then {[service_name]} ∪ enabled
               else if existsb (λ condition,
                                  (_evaluate_condition svcs condition).1)
                               (enabled_by (infra svc))
                    then {[service_name]} ∪ enabled
                    else enabled) acc l
  ↔ x ∈ acc ∨
    ∃ svc, (x, svc) ∈ l ∧
      (Topology.enabled (infra svc) = true ∨
       ∃ condition, condition ∈ enabled_by (infra svc) ∧
                    (_evaluate_condition svcs condition).1 = true).
Proof.
  revert acc. induction l as [|[n svc] l IH]; intros acc; simpl.
  - split; [by left|]. intros [?|(? & []%elem_of_nil & _)]. done.
  - rewrite IH. clear IH.
    assert (existsb (λ c, (_evaluate_condition svcs c).1)
                    (enabled_by (infra svc)) = true
            ↔ ∃ c, c ∈ enabled_by (infra svc) ∧
                   (_evaluate_condition svcs c).1 = true) as Hex.
    { rewrite existsb_exists. by setoid_rewrite list_elem_of_In. }
    destruct (Topology.enabled (infra svc)) eqn:Hen;
      [|destruct (existsb _ _) eqn:Hany];
      rewrite ?elem_of_union, ?elem_of_singleton;
      setoid_rewrite elem_of_cons.
    + naive_solver.
    + assert (∃ c, c ∈ enabled_by (infra svc) ∧
                   (_evaluate_condition svcs c).1 = true) by by apply Hex.
      naive_solver.
    + assert (¬ ∃ c, c ∈ enabled_by (infra svc) ∧
                     (_evaluate_condition svcs c).1 = true)
        by (intros ?%Hex; congruence).
      naive_solver.
Qed.

Lemma elem_of_get_enabled_services (svcs : services) (name : string) :
  name ∈ get_enabled_services svcs ↔
  ∃ svc, (name, svc) ∈ svcs ∧
    (Topology.enabled (infra svc) = true ∨
     ∃ condition, condition ∈ enabled_by (infra svc) ∧
                  (_evaluate_condition svcs condition).1 = true).
Proof.
  unfold get_enabled_services. rewrite enabled_fold. set_solver.
Qed.

(** C6: a service is in the enabled set iff its [enabled] flag is true or
    one of its [enabled_by] conditions evaluates to true. *)
Theorem get_enabled_services_spec (svcs : services) (name : string) :
  name ∈ get_enabled_services svcs ↔
  ∃ svc, (name, svc) ∈ svcs ∧
    (Topology.enabled (infra svc) = true ∨
     ∃ condition, condition ∈ enabled_by (infra svc) ∧
                  (_evaluate_condition svcs condition).1 = true).
Proof.
  unfold get_enabled_services. rewrite enabled_fold.
  split.
  - intros [[]%not_elem_of_empty | Hsvc]. exact Hsvc.
  - intros Hsvc. by right.
Qed.

(** *** Failures of the evaluation *)

Definition invalid_format (condition : string) : string :=
  "Warning: Invalid condition format: " +:+ condition.




(** C10: a [!=] condition on an existing field that has no [default]
    holds, whatever the literal, and puts the service into the enabled
    set. *)
Theorem missing_default_enables (svcs : services)
    name owner svc f ws1 ws2 lit s fd :
  (name, owner) ∈ svcs →
  condition_text svc f ws1 "!=" ws2 lit ∈ enabled_by (infra owner) →
  word svc → word f → blanks ws1 → blanks ws2 → one_line lit →
  services_get svc svcs = Some s →
  properties (config s) !! f = Some fd →
  fd !! "default" = None →
  (_evaluate_condition svcs (condition_text svc f ws1 "!=" ws2 lit)).1
  = true
  ∧ name ∈ get_enabled_services svcs.
Proof.
  intros Hin Hcond ? ? ? ? ? Hs Hf Hd.
  assert ((_evaluate_condition svcs
             (condition_text svc f ws1 "!=" ws2 lit)).1 = true) as Heval.
  { destruct (re_match_groups svc f ws1 "!=" ws2 lit "") as [g Hg];
      try done; [by right | by left |].
    rewrite append_empty_r in Hg.
    unfold _evaluate_condition. rewrite Hg, Hs, Hf. simpl.
    unfold Py.get, Py.ne. rewrite Hd. simpl.
    by destruct (parse_expected_kind g) as [[b ->] | [t ->]]. }
  split; [done|].
  apply elem_of_get_enabled_services. exists owner. split; [done|].
  right. eauto.
Qed.

Lemma missing_default_enables_witness :
  (_evaluate_condition example_services
     (condition_text "ui" "token" " " "!=" " " "'x'")).1 = true
  ∧ "ui" ∈ get_enabled_services example_services.
Proof.
  eapply (missing_default_enables example_services "ui" _
            "ui" "token" " " " " "'x'");
    try (split; [discriminate | reflexivity]); try reflexivity.
  - apply list_elem_of_here.
  - apply list_elem_of_here.
Defined.

End enablement.

(** ** Conflict tables of the validator *)

Section conflict_tables.

Import TopologyValidator.

Context {K : Type} `{EqDecision K}.

(** [table[k]], or the empty list. *)
Fixpoint names_of (k : K) (table : list (K * list string)) : list string :=
  match table with
  | [] => []
  | (k', names) :: rest =>
      if bool_decide (k' = k) then names else names_of k rest
  end.

Lemma dd_append_keys key n (table : list (K * list string)) :
  (dd_append key n table).*1
  = if bool_decide (key ∈ table.*1) then table.*1 else table.*1 ++ [key].
Proof.
  induction table as [|[k ns] table IH]; [done|]. csimpl.
  destruct (decide (k = key)) as [->|Hne].
  - rewrite (bool_decide_eq_true_2 (key = key)) by done.
    by rewrite (bool_decide_eq_true_2 (key ∈ _ :: _)) by left.
  - rewrite (bool_decide_eq_false_2 (k = key)) by done. csimpl.
    rewrite IH. destruct (decide (key ∈ table.*1)).
    + by rewrite !bool_decide_eq_true_2 by set_solver.
    + by rewrite !bool_decide_eq_false_2 by set_solver.
Qed.

Lemma names_of_dd_append k key n (table : list (K * list string)) :
  names_of k (dd_append key n table)
  = if bool_decide (k = key) then names_of k table ++ [n]
    else names_of k table.
Proof.
  induction table as [|[k' ns] table IH]; simpl.
  - repeat case_bool_decide; naive_solver.
  - destruct (decide (k' = key)) as [->|Hne].
    + rewrite (bool_decide_eq_true_2 (key = key)) by done. simpl.
      by repeat case_bool_decide; simplify_eq.
    + rewrite (bool_decide_eq_false_2 (k' = key)) by done. simpl.
      rewrite IH. by repeat case_bool_decide; simplify_eq.
Qed.

Lemma names_of_elem k names (table : list (K * list string)) :
  NoDup table.*1 → (k, names) ∈ table → names_of k table = names.
Proof.
  induction table as [|[k' ns] table IH]; simpl.
  - by intros _ ?%elem_of_nil.
  - intros [Hk Hnd]%NoDup_cons [[= -> ->] | Hin]%elem_of_cons.
    + by rewrite bool_decide_eq_true_2.
    + rewrite bool_decide_eq_false_2; [by apply IH|].
      intros ->. apply Hk. apply list_elem_of_fmap. by exists (k, names).
Qed.

Variable key_of : service → option K.

(** The table built by the first loop of either check. *)
Definition group (svcs : services) : list (K * list string) :=
  foldl (λ table '(service_name, svc),
           match key_of svc with
           | Some k => dd_append k service_name table
           | None => table
           end)
        [] svcs.

(** The services that carry the key [k], in document order. *)
Definition carriers (k : K) (svcs : services) : list string :=
  (filter (λ e, key_of e.2 = Some k) svcs).*1.

Lemma carriers_snoc k svcs n svc :
  carriers k (svcs ++ [(n, svc)])
  = carriers k svcs ++ (if bool_decide (key_of svc = Some k) then [n] else []).
Proof.
  unfold carriers. rewrite filter_app, fmap_app. f_equal.
  rewrite filter_cons. simpl. by case_decide; case_bool_decide.
Qed.

Lemma group_snoc svcs n svc :
  group (svcs ++ [(n, svc)])
  = match key_of svc with
    | Some k => dd_append k n (group svcs)
    | None => group svcs
    end.
Proof. unfold group. by rewrite foldl_app. Qed.

Lemma group_spec svcs :
  NoDup (group svcs).*1 ∧
  (∀ k, names_of k (group svcs) = carriers k svcs) ∧
  (∀ k, k ∈ (group svcs).*1 ↔ carriers k svcs ≠ []).
Proof.
  induction svcs as [|[n svc] svcs (IH1 & IH2 & IH3)] using rev_ind.
  { split_and!; [constructor | done | set_solver]. }
  rewrite group_snoc.
  destruct (key_of svc) as [key|] eqn:Hkey.
  - split_and!.
    + rewrite dd_append_keys. case_bool_decide; [done|].
      apply NoDup_app. split_and!; [done | set_solver | apply NoDup_singleton].
    + intros k. rewrite names_of_dd_append, carriers_snoc, IH2, Hkey.
      destruct (decide (k = key)) as [->|Hne].
      * by rewrite !bool_decide_eq_true_2.
      * rewrite !bool_decide_eq_false_2 by congruence. by rewrite app_nil_r.
    + intros k. rewrite dd_append_keys, carriers_snoc, Hkey.
      destruct (decide (k = key)) as [->|Hne].
      * rewrite (bool_decide_eq_true_2 (Some key = Some key)) by done.
        split; [by intros _ [_ ?]%app_nil|]. intros _.
        case_bool_decide; set_solver.
      * rewrite (bool_decide_eq_false_2 (Some key = Some k)) by congruence.
        rewrite app_nil_r, <-IH3. case_bool_decide; set_solver.
  - split_and!; [done|..]; intros k; rewrite carriers_snoc, Hkey;
      rewrite bool_decide_eq_false_2 by done; by rewrite app_nil_r.
Qed.

(** The second loop of either check appends one message per entry with
    more than one name. *)
Lemma report_fold (msg : K → list string → string)
    (table : list (K * list string)) (errors : list string) :
  foldl (λ errors '(k, names),
           if bool_decide (1 < length names)
           then errors ++ [msg k names] else errors) errors table
  = errors ++ ((λ e, msg e.1 e.2) <$> filter (λ e, 1 < length e.2) table).
Proof.
  revert errors. induction table as [|[k ns] table IH]; intros errors; simpl.
  - by rewrite app_nil_r.
  - rewrite IH, filter_cons. simpl.
    case_bool_decide; case_decide; try done.
    by rewrite <-app_assoc.
Qed.

(** The messages of a table built by [group]: one per key carried by two
    or more services, with all the carriers. *)
Lemma conflicts_of_group (msg : K → list string → string) svcs
    (vals : list K) :
  NoDup vals →
  (∀ k, k ∈ vals ↔ 1 < length (carriers k svcs)) →
  (λ e, msg e.1 e.2) <$> filter (λ e, 1 < length e.2) (group svcs)
  ≡ₚ (λ k, msg k (carriers k svcs)) <$> vals.
Proof.
  intros Hnd Hvals. destruct (group_spec svcs) as (Hkeys & Hnames & Hdom).
  set (shared := filter (λ e, 1 < length e.2) (group svcs)).
  assert (∀ e, e ∈ shared → e.2 = carriers e.1 svcs) as Hcar.
  { intros [k ns] [_ Hin]%list_elem_of_filter. simpl.
    by rewrite <-Hnames, (names_of_elem k ns). }
  assert ((λ e, msg e.1 e.2) <$> shared
          = (λ k, msg k (carriers k svcs)) <$> shared.*1) as ->.
  { rewrite <-list_fmap_compose. apply list_fmap_ext.
    intros i e He. simpl. rewrite Hcar; [done|].
    by apply list_elem_of_lookup_2 in He. }
  apply fmap_Permutation, NoDup_Permutation; [|done|].
  - subst shared. clear Hcar. revert Hkeys. generalize (group svcs).
    induction l as [|[k ns] l IH]; csimpl; [constructor|].
    intros [Hk Hl]%NoDup_cons. rewrite filter_cons. simpl.
    case_decide; [|by apply IH]. csimpl. apply NoDup_cons. split; [|by apply IH].
    intros (e & -> & [_ He]%list_elem_of_filter)%list_elem_of_fmap.
    apply Hk, list_elem_of_fmap. by exists e.
  - intros k. rewrite Hvals. split.
    + intros (e & -> & He)%list_elem_of_fmap.
      rewrite <-(Hcar e He). by apply list_elem_of_filter in He as [? _].
    + intros Hk.
      assert (k ∈ (group svcs).*1) as (e & -> & He)%list_elem_of_fmap.
      { apply Hdom. intros Hnil. rewrite Hnil in Hk. simpl in Hk. lia. }
      apply list_elem_of_fmap. exists e. split; [done|].
      apply list_elem_of_filter. split; [|done].
      destruct e as [k ns]. simpl in *.
      by rewrite <-(names_of_elem k ns (group svcs)), Hnames.
Qed.

End conflict_tables.

(** ** Uniqueness checks: [_validate_service_ports] and
    [_validate_container_names] *)

Section uniqueness.

Import TopologyValidator.

(** The services that publish [port], resp. that are named [cname], in
    document order. *)
Definition port_carriers (svcs : services) (port : Z) : list string :=
  (filter (λ e, published_port (infra e.2) = Some port) svcs).*1.

Definition name_carriers (svcs : services) (cname : string) : list string :=
  (filter (λ e, container_name (infra e.2) = Some cname) svcs).*1.

(** [if container_name:] *)
Definition truthy_name (svc : service) : option string :=
  match container_name (infra svc) with
  | Some cname => if is_empty cname then None else Some cname
  | None => None
  end.

Lemma port_map_group svcs :
  port_map svcs = group (λ svc, published_port (infra svc)) svcs.
Proof. reflexivity. Qed.

Lemma name_map_group svcs : name_map svcs = group truthy_name svcs.
Proof.
  unfold name_map, group. generalize (@nil (string * list string)).
  induction svcs as [|[n svc] svcs IH]; intros table; simpl; [done|].
  rewrite IH. f_equal. unfold truthy_name.
  by repeat case_match.
Qed.

Lemma truthy_name_carriers_nonempty svcs cname :
  cname ≠ "" → carriers truthy_name cname svcs = name_carriers svcs cname.
Proof.
  intros Hne. unfold carriers, name_carriers. f_equal.
  apply list_filter_iff. intros [n svc]. unfold truthy_name. simpl.
  destruct (container_name (infra svc)) as [[|c r]|]; simpl; naive_solver.
Qed.

Lemma truthy_name_carriers_empty svcs : carriers truthy_name "" svcs = [].
Proof.
  unfold carriers. induction svcs as [|[n svc] svcs IH]; [done|].
  assert (truthy_name svc ≠ Some "") as Hne
    by (unfold truthy_name;
        by destruct (container_name (infra svc)) as [[|c r]|]).
  rewrite filter_cons. simpl. by rewrite decide_False.
Qed.

(** [n in msg]: the text [n] occurs in the text [msg]. *)
Definition occurs_in (n msg : string) : Prop :=
  ∃ pre post, msg = pre +:+ n +:+ post.

Lemma occurs_in_append pre n msg :
  occurs_in n msg → occurs_in n (pre +:+ msg).
Proof.
  intros (a & b & ->). exists (pre +:+ a), b. by rewrite append_assoc.
Qed.

Lemma occurs_in_head n post : occurs_in n (n +:+ post).
Proof. by exists "", post. Qed.

Lemma occurs_in_join sep n names : n ∈ names → occurs_in n (join sep names).
Proof.
  induction names as [|x names IH]; [by intros ?%elem_of_nil|].
  destruct names as [|y names].
  - intros ->%list_elem_of_singleton. exists "", "".
    by rewrite append_nil, append_empty_r.
  - change (join sep (x :: y :: names))
      with (x +:+ sep +:+ join sep (y :: names)).
    intros [-> | Hin]%elem_of_cons; [apply occurs_in_head|].
    by apply occurs_in_append, occurs_in_append, IH.
Qed.

(** What a conflict message says, whatever its wording: the value, and
    the name of every service it is given. *)
Lemma port_conflict_names port names :
  occurs_in (str_int port) (port_conflict port names) ∧
  ∀ n, n ∈ names → occurs_in n (port_conflict port names).
Proof.
  unfold port_conflict. split.
  - apply occurs_in_append, occurs_in_head.
  - intros n Hn. by apply occurs_in_append, occurs_in_append,
      occurs_in_append, occurs_in_join.
Qed.

Lemma name_conflict_names cname names :
  occurs_in cname (name_conflict cname names) ∧
  ∀ n, n ∈ names → occurs_in n (name_conflict cname names).
Proof.
  unfold name_conflict. split.
  - apply occurs_in_append, occurs_in_head.
  - intros n Hn. by apply occurs_in_append, occurs_in_append,
      occurs_in_append, occurs_in_join.
Qed.

(** C5 (as amended): for any [k] distinct port values (non-empty
    container names) that are each carried by two or more services, the
    check appends [k] errors, one per value; the error of a value has the
    value and the name of every service that carries it in its text.  A
    container name that is empty is not a value of the check. *)
Theorem one_error_per_conflict (svcs : services) (errors : list string) :
  (∀ ports : list Z,
     NoDup ports →
     (∀ port, port ∈ ports ↔ 1 < length (port_carriers svcs port)) →
     ∃ new,
       _validate_service_ports svcs errors = errors ++ new ∧
       length new = length ports ∧
       new ≡ₚ (λ port, port_conflict port (port_carriers svcs port))
                <$> ports ∧
       ∀ port, port ∈ ports →
               ∃ msg, msg ∈ new ∧ occurs_in (str_int port) msg ∧
                      ∀ n, n ∈ port_carriers svcs port → occurs_in n msg)
  ∧
  (∀ cnames : list string,
     NoDup cnames →
     (∀ cname, cname ∈ cnames
               ↔ cname ≠ "" ∧ 1 < length (name_carriers svcs cname)) →
     ∃ new,
       _validate_container_names svcs errors = errors ++ new ∧
       length new = length cnames ∧
       new ≡ₚ (λ cname, name_conflict cname (name_carriers svcs cname))
                <$> cnames ∧
       ∀ cname, cname ∈ cnames →
                ∃ msg, msg ∈ new ∧ occurs_in cname msg ∧
                       ∀ n, n ∈ name_carriers svcs cname → occurs_in n msg).
Proof.
  split.
  - intros ports Hnd Hports.
    unfold _validate_service_ports.
    rewrite (report_fold port_conflict), port_map_group.
    eexists. split; [done|].
    pose proof (conflicts_of_group (λ svc, published_port (infra svc))
                  port_conflict svcs ports Hnd Hports) as Hperm.
    split_and!; [by rewrite Hperm, length_fmap | done |].
    intros port Hport.
    exists (port_conflict port (port_carriers svcs port)). split.
    + rewrite Hperm. apply list_elem_of_fmap. by exists port.
    + apply port_conflict_names.
  - intros cnames Hnd Hnames.
    unfold _validate_container_names.
    rewrite (report_fold name_conflict), name_map_group.
    eexists. split; [done|].
    assert (∀ cname, cname ∈ cnames
                     ↔ 1 < length (carriers truthy_name cname svcs)) as Hn.
    { intros cname. rewrite Hnames.
      destruct (decide (cname = "")) as [-> | Hne].
      - rewrite truthy_name_carriers_empty. simpl. split; [|lia].
        by intros [? _].
      - rewrite truthy_name_carriers_nonempty by done. naive_solver. }
    pose proof (conflicts_of_group truthy_name name_conflict svcs cnames
                  Hnd Hn) as Hperm.
    assert ((λ k, name_conflict k (carriers truthy_name k svcs)) <$> cnames
            = (λ k, name_conflict k (name_carriers svcs k)) <$> cnames) as Heq.
    { apply list_fmap_ext. intros i k Hk.
      rewrite truthy_name_carriers_nonempty; [done|].
      apply list_elem_of_lookup_2, Hnames in Hk. by destruct Hk. }
    rewrite Heq in Hperm.
    split_and!; [by rewrite Hperm, length_fmap | done |].
    intros cname Hcname.
    exists (name_conflict cname (name_carriers svcs cname)). split.
    + rewrite Hperm. apply list_elem_of_fmap. by exists cname.
    + apply name_conflict_names.
Qed.

Definition example_container (name : string) (port : option Z) : service :=
  {| infra := {| enabled := true; enabled_by := []; requires := [];
                 published_port := port; container_name := Some name |};
     config := {| properties := ∅ |} |}.

(** Three services on port 8080, two of them under the same container
    name, and one service apart. *)
Definition example_conflicts : services :=
  [ ("web", example_container "front" (Some 8080%Z));
    ("api", example_container "front" (Some 8080%Z));
    ("db", example_container "store" None);
    ("admin", example_container "console" (Some 8080%Z)) ].

Lemma one_error_per_conflict_witness :
  (∃ new,
     _validate_service_ports example_conflicts [] = [] ++ new ∧
     length new = 1 ∧
     new ≡ₚ [port_conflict 8080 ["web"; "api"; "admin"]] ∧
     ∀ port, port ∈ [8080%Z] →
             ∃ msg, msg ∈ new ∧ occurs_in (str_int port) msg ∧
                    ∀ n, n ∈ port_carriers example_conflicts port →
                         occurs_in n msg)
  ∧
  (∃ new,
     _validate_container_names example_conflicts [] = [] ++ new ∧
     length new = 1 ∧
     new ≡ₚ [name_conflict "front" ["web"; "api"]] ∧
     ∀ cname, cname ∈ ["front"] →
              ∃ msg, msg ∈ new ∧ occurs_in cname msg ∧
                     ∀ n, n ∈ name_carriers example_conflicts cname →
                          occurs_in n msg).
Proof.
  destruct (one_error_per_conflict example_conflicts []) as [Hp Hn].
  split.
  - apply (Hp [8080%Z]); [apply NoDup_singleton|].
    intros port. rewrite list_elem_of_singleton.
    split; [intros ->; vm_compute; lia|].
    unfold port_carriers, example_conflicts.
    destruct (decide (port = 8080%Z)) as [->|Hneq]; [done|].
    rewrite !filter_cons. simpl.
    repeat (case_decide; [congruence|]). simpl. lia.
  - apply (Hn ["front"]); [apply NoDup_singleton|].
    intros cname. rewrite list_elem_of_singleton.
    split; [intros ->; split; [done | vm_compute; lia]|].
    intros [_ Hlen]. revert Hlen.
    unfold name_carriers, example_conflicts.
    rewrite !filter_cons. simpl.
    repeat case_decide; simplify_eq; simpl; try done; lia.
Defined.

(** Two services without a container name of their own: both carry the
    empty name. *)
Definition example_unnamed : services :=
  [ ("a", example_container "" None); ("b", example_container "" None) ].

(** C5 fails as stated: the empty container name is shared by two
    services, and the check reports nothing; [if container_name:] skips
    the empty name. *)
Lemma shared_empty_name_counterexample :
  name_carriers example_unnamed "" = ["a"; "b"] ∧
  _validate_container_names example_unnamed [] = [].
Proof. split; reflexivity. Qed.

End uniqueness.

(** ** Equality of Python values *)

Section value_equality.

Fixpoint value_size (v : value) : nat :=
  match v with
  | VList l => S (foldr (λ x acc, value_size x + acc) 0 l)
  | VDict d => S (map_fold (λ _ x acc, value_size x + acc) 0 d)
  | _ => 1
  end.

Lemma value_size_list x l : x ∈ l → value_size x < value_size (VList l).
Proof.
  simpl. induction 1 as [x l | x y l _ IH]; simpl; lia.
Qed.

Lemma value_size_dict k x (d : gmap string value) :
  d !! k = Some x → value_size x < value_size (VDict d).
Proof.
  simpl. intros Hk. apply Nat.lt_succ_r. revert k x Hk.
  apply (map_fold_weak_ind
           (λ r (m : gmap string value),
              ∀ k x, m !! k = Some x → value_size x ≤ r)).
  - intros k x. by rewrite lookup_empty.
  - intros i y m r Hi IH k x. rewrite lookup_insert.
    case_decide; [intros [= ->]; lia|]. intros ?%IH. lia.
Qed.

Lemma eqb_list l m :
  Py.eqb (VList l) (VList m)
  = match l, m with
    | [], [] => true
    | x :: l', y :: m' => item_eqb x y && Py.eqb (VList l') (VList m')
    | _, _ => false
    end.
Proof. by destruct l, m. Qed.

Lemma map_fold_andb_true {A} (g : string → A → bool) (d : gmap string A) :
  map_fold (λ k v acc, acc && g k v) true d = true
  ↔ ∀ k v, d !! k = Some v → g k v = true.
Proof.
  apply (map_fold_weak_ind
           (λ r (m : gmap string A),
              r = true ↔ ∀ k v, m !! k = Some v → g k v = true)).
  - split; [|done]. intros _ k v. by rewrite lookup_empty.
  - intros i x m r Hi IH. rewrite andb_true_iff, IH. split.
    + intros [Hm Hx] k v. rewrite lookup_insert.
      case_decide; [by intros [= <-]; subst | by apply Hm].
    + intros Hall. split.
      * intros k v Hk. apply Hall. rewrite lookup_insert_ne; [done|].
        intros ->. congruence.
      * apply Hall. by rewrite lookup_insert_eq.
Qed.

Lemma eqb_dict (d e : gmap string value) :
  Py.eqb (VDict d) (VDict e) = true
  ↔ dom d = dom e ∧
    ∀ k v w, d !! k = Some v → e !! k = Some w → item_eqb v w = true.
Proof.
  change (Py.eqb (VDict d) (VDict e))
    with (bool_decide (dom d = dom e) &&
          map_fold (λ k v acc,
                      acc && match e !! k with
                             | Some w => item_eqb v w
                             | None => false
                             end) true d).
  rewrite andb_true_iff, bool_decide_eq_true, map_fold_andb_true.
  split; intros [Hdom Hall]; (split; [done|]).
  - intros k v w Hd He. specialize (Hall k v Hd). by rewrite He in Hall.
  - intros k v Hd.
    assert (is_Some (e !! k)) as [w He].
    { apply elem_of_dom. rewrite <-Hdom. by apply elem_of_dom. }
    rewrite He. eauto.
Qed.

(** An item equals itself, [NaN] too: [l == l] holds of every list. *)
Lemma item_eqb_refl v : item_eqb v v = true.
Proof.
  remember (value_size v) as n eqn:Hn. revert v Hn.
  induction (lt_wf n) as [n _ IHv]. intros v ->.
  assert (∀ w, value_size w < value_size v → item_eqb w w = true) as IH.
  { intros w Hw. by eapply IHv. }
  clear IHv. unfold item_eqb.
  destruct v as [| b | z | q | s | l | d | | m]; simpl; try done.
  - apply Qeq_bool_iff. reflexivity.
  - apply Qeq_bool_iff. reflexivity.
  - apply Qeq_bool_iff. reflexivity.
  - by apply bool_decide_eq_true.
  - change (Py.eqb (VList l) (VList l) = true).
    assert (∀ x, x ∈ l → item_eqb x x = true) as Hl.
    { intros x Hx. by apply IH, value_size_list. }
    clear IH. induction l as [|x l IHl]; [done|].
    rewrite eqb_list, Hl by left. simpl. apply IHl. intros ??. apply Hl.
    by right.
  - change (Py.eqb (VDict d) (VDict d) = true).
    apply eqb_dict. split; [done|]. intros k v w Hv Hw. simplify_eq.
    by eapply IH, value_size_dict.
  - by destruct m.
Qed.

(** [v == v] holds of every value but [NaN]. *)
Lemma eqb_refl v : Py.eqb v v = true ↔ v ≠ VNaN.
Proof.
  split.
  - by intros Heq ->.
  - intros Hv. pose proof (item_eqb_refl v) as Hitem.
    unfold item_eqb in Hitem. by destruct v.
Qed.

Lemma Qeq_bool_sym x y : Qeq_bool x y = Qeq_bool y x.
Proof.
  destruct (Qeq_bool x y) eqn:E1, (Qeq_bool y x) eqn:E2; try done.
  - apply Qeq_bool_iff in E1. symmetry in E1. apply Qeq_bool_iff in E1.
    congruence.
  - apply Qeq_bool_iff in E2. symmetry in E2. apply Qeq_bool_iff in E2.
    congruence.
Qed.

Lemma same_nan_sym x y : same_nan x y = same_nan y x.
Proof. by destruct x, y. Qed.

Lemma eqb_sym_true a b : Py.eqb a b = true → Py.eqb b a = true.
Proof.
  remember (value_size a) as n eqn:Hn. revert a b Hn.
  induction (lt_wf n) as [n _ IHa]. intros a b ->.
  assert (∀ x y, value_size x < value_size a →
                 item_eqb x y = true → item_eqb y x = true) as IH.
  { intros x y Hx. unfold item_eqb. rewrite (same_nan_sym y x).
    intros [-> | Hxy]%orb_true_iff; [done|].
    apply orb_true_iff. right. by eapply IHa. }
  clear IHa.
  destruct a as [| b1 | z1 | q1 | s1 | l1 | d1 | | m1],
           b as [| b2 | z2 | q2 | s2 | l2 | d2 | | m2]; simpl; try done;
    try (by rewrite Qeq_bool_sym).
  - rewrite !bool_decide_eq_true. congruence.
  - change (Py.eqb (VList l1) (VList l2) = true →
            Py.eqb (VList l2) (VList l1) = true).
    assert (∀ x y, x ∈ l1 → item_eqb x y = true → item_eqb y x = true) as Hl.
    { intros x y Hx. by apply IH, value_size_list. }
    clear IH. revert l2. induction l1 as [|x l1 IHl]; intros [|y l2];
      try done.
    rewrite (eqb_list (x :: l1)), (eqb_list (y :: l2)).
    intros [Hxy Hrest]%andb_true_iff. apply andb_true_iff. split.
    + apply Hl; [by left | done].
    + apply IHl; [|done]. intros ????. apply Hl; [by right | done].
  - change (Py.eqb (VDict d1) (VDict d2) = true →
            Py.eqb (VDict d2) (VDict d1) = true).
    rewrite !eqb_dict. intros [Hdom Hall]. split; [done|].
    intros k v w Hv Hw. eapply IH; [by eapply value_size_dict|]. eauto.
  - by destruct m1, m2.
Qed.

Lemma eqb_sym a b : Py.eqb a b = Py.eqb b a.
Proof.
  destruct (Py.eqb a b) eqn:E1, (Py.eqb b a) eqn:E2; try done.
  - apply eqb_sym_true in E1. congruence.
  - apply eqb_sym_true in E2. congruence.
Qed.

Lemma ne_refl v : v ≠ VNaN → Py.ne v v = false.
Proof. intros Hv. unfold Py.ne. by rewrite (proj2 (eqb_refl v) Hv). Qed.

Lemma ne_NaN : Py.ne VNaN VNaN = true.
Proof. reflexivity. Qed.

Lemma ne_sym a b : Py.ne a b = Py.ne b a.
Proof. unfold Py.ne. by rewrite eqb_sym. Qed.

End value_equality.

(** ** Snapshots and diffs: [compare_states] *)

Section state_diff.

Import StateTracker.

Lemma sorted_empty : sorted ∅ = [].
Proof. unfold sorted. by rewrite elements_empty. Qed.

Lemma elem_of_sorted x (X : gset string) : x ∈ sorted X ↔ x ∈ X.
Proof. unfold sorted. by rewrite merge_sort_Permutation, elem_of_elements. Qed.

Lemma omap_nil {A B} (f : A → option B) (l : list A) :
  omap f l = [] ↔ ∀ x, x ∈ l → f x = None.
Proof.
  induction l as [|x l IH]; csimpl.
  - split; [|done]. by intros _ x ?%elem_of_nil.
  - destruct (f x) eqn:Hx.
    + split; [done|]. intros Hall. specialize (Hall x). rewrite Hx in Hall.
      discriminate Hall. by left.
    + rewrite IH. split.
      * intros Hall y [-> | ?]%elem_of_cons; auto.
      * intros Hall y ?. apply Hall. by right.
Qed.

Lemma sorted_nil (X : gset string) : sorted X = [] ↔ X = ∅.
Proof.
  split; [|intros ->; apply sorted_empty].
  intros Hnil. apply set_eq. intros x.
  rewrite <-elem_of_sorted, Hnil. set_solver.
Qed.

(** The entry of [fields_changed] for one field name, and the entry of
    [services_modified] for one service name. *)
Definition field_entry (old_fields new_fields : gmap string field_state)
    (field_name : string) : option (string * field_changes) :=
  old_field ← old_fields !! field_name;
  new_field ← new_fields !! field_name;
  field_changes ← compare_field old_field new_field;
  Some (field_name, field_changes).

Definition service_entry (old_state new_state : snapshot)
    (service_name : string) : option (string * service_changes) :=
  old_service ← services old_state !! service_name;
  new_service ← services new_state !! service_name;
  service_diff ← _compare_service_states old_service new_service;
  Some (service_name, service_diff).

(** [compare_field] looks at the keys [value] and [state] only. *)
Lemma compare_field_same (f g : field_state) :
  f !! "value" = g !! "value" → f !! "state" = g !! "state" →
  Py.get "value" f ≠ VNaN → Py.get "state" f ≠ VNaN →
  compare_field f g = None.
Proof.
  intros Hv Hs Hvn Hsn. unfold compare_field.
  replace (Py.get "value" g) with (Py.get "value" f)
    by (unfold Py.get; by rewrite Hv).
  replace (Py.get "state" g) with (Py.get "state" f)
    by (unfold Py.get; by rewrite Hs).
  by rewrite !ne_refl.
Qed.

Lemma compare_field_None (f g : field_state) :
  compare_field f g = None
  ↔ Py.eqb (Py.get "value" f) (Py.get "value" g) = true ∧
    Py.eqb (Py.get "state" f) (Py.get "state" g) = true.
Proof.
  unfold compare_field, Py.ne.
  destruct (Py.eqb (Py.get "value" f) (Py.get "value" g)),
           (Py.eqb (Py.get "state" f) (Py.get "state" g)); simpl;
    naive_solver.
Qed.

Lemma compare_field_None_sym (f g : field_state) :
  compare_field f g = None → compare_field g f = None.
Proof.
  unfold compare_field.
  rewrite (ne_sym (Py.get "value" g)), (ne_sym (Py.get "state" g)).
  by repeat case_match.
Qed.

Lemma field_entry_None_sym o n x :
  field_entry o n x = None → field_entry n o x = None.
Proof.
  unfold field_entry.
  destruct (o !! x) as [f|], (n !! x) as [g|]; simpl; try done.
  destruct (compare_field f g) eqn:E; [done|].
  by rewrite (compare_field_None_sym f g E).
Qed.

Lemma fields_changed_nil_sym (o n : gmap string field_state) :
  omap (field_entry o n) (sorted (dom o ∩ dom n)) = [] →
  omap (field_entry n o) (sorted (dom n ∩ dom o)) = [].
Proof.
  rewrite !omap_nil. intros Hall x Hx. apply field_entry_None_sym, Hall.
  revert Hx. rewrite !elem_of_sorted. set_solver.
Qed.

(** What [_compare_service_states] returns. *)
Lemma compare_service_states_unfold (o n : service_state) :
  _compare_service_states o n
  = let added := sorted (dom (fields n) ∖ dom (fields o)) in
    let removed := sorted (dom (fields o) ∖ dom (fields n)) in
    let changed := omap (field_entry (fields o) (fields n))
                        (sorted (dom (fields o) ∩ dom (fields n))) in
    match added, removed, changed with
    | [], [], [] => None
    | _, _, _ => Some {| fields_added := added; fields_removed := removed;
                         fields_changed := changed |}
    end.
Proof. reflexivity. Qed.

Lemma compare_service_states_Some o n d :
  _compare_service_states o n = Some d →
  fields_added d = sorted (dom (fields n) ∖ dom (fields o)) ∧
  fields_removed d = sorted (dom (fields o) ∖ dom (fields n)) ∧
  fields_changed d = omap (field_entry (fields o) (fields n))
                          (sorted (dom (fields o) ∩ dom (fields n))).
Proof.
  rewrite compare_service_states_unfold. cbv zeta.
  repeat case_match; intros [= <-]; simpl; by rewrite <-?H, <-?H0, <-?H1.
Qed.

Lemma compare_service_states_None o n :
  _compare_service_states o n = None ↔
  sorted (dom (fields n) ∖ dom (fields o)) = [] ∧
  sorted (dom (fields o) ∖ dom (fields n)) = [] ∧
  omap (field_entry (fields o) (fields n))
       (sorted (dom (fields o) ∩ dom (fields n))) = [].
Proof.
  rewrite compare_service_states_unfold. cbv zeta.
  repeat case_match; naive_solver.
Qed.

(** Swapping the two states swaps [fields_added] and [fields_removed]. *)
Lemma compare_service_states_swap o n d :
  _compare_service_states o n = Some d →
  ∃ d', _compare_service_states n o = Some d' ∧
        fields_added d = fields_removed d' ∧
        fields_removed d = fields_added d'.
Proof.
  intros Hd. destruct (_compare_service_states n o) as [d'|] eqn:Hd'.
  - exists d'. split; [done|].
    apply compare_service_states_Some in Hd as (-> & -> & _).
    apply compare_service_states_Some in Hd' as (-> & -> & _). done.
  - apply compare_service_states_None in Hd' as (Ha & Hr & Hc).
    apply fields_changed_nil_sym in Hc.
    assert (_compare_service_states o n = None) as Hnone
      by by apply compare_service_states_None.
    congruence.
Qed.

Lemma compare_service_states_None_iff (o n : service_state) :
  _compare_service_states o n = None
  ↔ dom (fields o) = dom (fields n) ∧
    ∀ x f g, fields o !! x = Some f → fields n !! x = Some g →
             Py.eqb (Py.get "value" f) (Py.get "value" g) = true ∧
             Py.eqb (Py.get "state" f) (Py.get "state" g) = true.
Proof.
  rewrite compare_service_states_None, !sorted_nil, omap_nil. split.
  - intros (Hadd & Hrem & Hch). split.
    { apply set_eq. intros x. split; intros Hx.
      - destruct (decide (x ∈ dom (fields n))) as [|Hno]; [done|].
        assert (x ∈ dom (fields o) ∖ dom (fields n)) as Hin
          by by apply elem_of_difference.
        rewrite Hrem in Hin. by apply elem_of_empty in Hin.
      - destruct (decide (x ∈ dom (fields o))) as [|Hno]; [done|].
        assert (x ∈ dom (fields n) ∖ dom (fields o)) as Hin
          by by apply elem_of_difference.
        rewrite Hadd in Hin. by apply elem_of_empty in Hin. }
    intros x f g Hf Hg. apply compare_field_None.
    assert (x ∈ sorted (dom (fields o) ∩ dom (fields n))) as Hx.
    { apply elem_of_sorted, elem_of_intersection.
      split; apply elem_of_dom; by eexists. }
    specialize (Hch x Hx). unfold field_entry in Hch.
    rewrite Hf, Hg in Hch. simpl in Hch.
    by destruct (compare_field f g).
  - intros [Hdom Hall].
    split_and!; [by rewrite Hdom, difference_diag_L..|].
    intros x _. unfold field_entry.
    destruct (fields o !! x) as [f|] eqn:Hf; simpl; [|done].
    destruct (fields n !! x) as [g|] eqn:Hg; simpl; [|done].
    by rewrite (proj2 (compare_field_None f g) (Hall x f g Hf Hg)).
Qed.

Lemma compare_service_states_same (o n : service_state) :
  dom (fields o) = dom (fields n) →
  (∀ x f g, fields o !! x = Some f → fields n !! x = Some g →
            f !! "value" = g !! "value" ∧ f !! "state" = g !! "state" ∧
            Py.get "value" f ≠ VNaN ∧ Py.get "state" f ≠ VNaN) →
  _compare_service_states o n = None.
Proof.
  intros Hdom Hsame. apply compare_service_states_None.
  rewrite Hdom, difference_diag_L, sorted_empty. split_and!; try done.
  apply omap_nil. intros x _. unfold field_entry.
  destruct (fields o !! x) as [f|] eqn:Hf, (fields n !! x) as [g|] eqn:Hg;
    simpl; try done.
  destruct (Hsame x f g Hf Hg) as (Hv & Hs & Hvn & Hsn).
  by rewrite compare_field_same.
Qed.

(** A service state compared with itself: nothing is reported exactly
    when no field has [NaN] as its [value] or [state]. *)
Lemma compare_service_states_refl (s : service_state) :
  _compare_service_states s s = None
  ↔ ∀ x f, fields s !! x = Some f →
           Py.get "value" f ≠ VNaN ∧ Py.get "state" f ≠ VNaN.
Proof.
  rewrite compare_service_states_None_iff. split.
  - intros [_ Hall] x f Hf. rewrite <-!eqb_refl. by apply (Hall x).
  - intros Hall. split; [done|]. intros x f g Hf Hg. simplify_eq.
    rewrite !eqb_refl. by apply (Hall x).
Qed.

Lemma services_modified_unfold now a b :
  services_modified (diff_changes (compare_states now a b))
  = omap (service_entry a b) (sorted (dom (services a) ∩ dom (services b))).
Proof. reflexivity. Qed.

(** No field of the snapshot has [NaN] as its [value] or [state]. *)
Definition nan_free (s : snapshot) : Prop :=
  ∀ name ss x f,
    services s !! name = Some ss → fields ss !! x = Some f →
    Py.get "value" f ≠ VNaN ∧ Py.get "state" f ≠ VNaN.

(** C8 (as amended): the diff of a snapshot with itself has no service
    added or removed, and it has no service modified exactly when no
    field of the snapshot has [NaN] as its [value] or [state]; the
    services added from [a] to [b] are the services removed from [b] to
    [a]; and a service with an entry in the diff from [a] to [b] has one
    in the diff from [b] to [a], with [fields_added] and [fields_removed]
    swapped. *)
Theorem compare_states_round_trip (now now' : string) (a b : snapshot) :
  (services_added (diff_changes (compare_states now a a)) = [] ∧
   services_removed (diff_changes (compare_states now a a)) = [] ∧
   (services_modified (diff_changes (compare_states now a a)) = []
    ↔ nan_free a))
  ∧ services_added (diff_changes (compare_states now a b))
    = services_removed (diff_changes (compare_states now' b a))
  ∧ (∀ name d,
       (name, d) ∈ services_modified (diff_changes (compare_states now a b)) →
       name ∈ dom (services a) ∩ dom (services b) ∧
       ∃ d',
         (name, d')
           ∈ services_modified (diff_changes (compare_states now' b a)) ∧
         fields_added d = fields_removed d' ∧
         fields_removed d = fields_added d').
Proof.
  split_and!.
  - simpl. by rewrite difference_diag_L, sorted_empty.
  - simpl. by rewrite difference_diag_L, sorted_empty.
  - rewrite services_modified_unfold, omap_nil. split.
    + intros Hall name ss x f Hss Hf.
      assert (name ∈ sorted (dom (services a) ∩ dom (services a))) as Hin.
      { apply elem_of_sorted, elem_of_intersection.
        split; apply elem_of_dom; by eexists. }
      specialize (Hall name Hin). unfold service_entry in Hall.
      rewrite Hss in Hall. simpl in Hall.
      destruct (_compare_service_states ss ss) eqn:Hd; [done|].
      by apply (proj1 (compare_service_states_refl ss) Hd x).
    + intros Hfree x _. unfold service_entry.
      destruct (services a !! x) as [s|] eqn:Hs; simpl; [|done].
      rewrite (proj2 (compare_service_states_refl s)); [done|].
      intros y f. by apply (Hfree x).
  - done.
  - intros name d. rewrite !services_modified_unfold.
    intros (x & Hx & Hentry)%list_elem_of_omap.
    unfold service_entry in Hentry.
    destruct (services a !! x) as [o|] eqn:Ho; simpl in Hentry; [|done].
    destruct (services b !! x) as [n|] eqn:Hn; simpl in Hentry; [|done].
    destruct (_compare_service_states o n) as [d0|] eqn:Hd;
      simpl in Hentry; [|done].
    injection Hentry as -> ->.
    apply elem_of_sorted in Hx. split; [done|].
    destruct (compare_service_states_swap o n d Hd) as (d' & Hd' & ? & ?).
    exists d'. split; [|done].
    apply list_elem_of_omap. exists name. split.
    + apply elem_of_sorted. set_solver.
    + unfold service_entry. rewrite Hn, Ho. simpl. by rewrite Hd'.
Qed.

(** C9 (as amended): when the common services have the same field names
    and, field by field, the same [value] and [state] entries, none of
    them [NaN], no service is reported as modified, whatever the other
    attributes of the fields are. *)
Theorem only_value_and_state_compared (now : string) (a b : snapshot) :
  (∀ name o n,
     services a !! name = Some o → services b !! name = Some n →
     dom (fields o) = dom (fields n) ∧
     ∀ x f g, fields o !! x = Some f → fields n !! x = Some g →
              f !! "value" = g !! "value" ∧ f !! "state" = g !! "state" ∧
              Py.get "value" f ≠ VNaN ∧ Py.get "state" f ≠ VNaN) →
  services_modified (diff_changes (compare_states now a b)) = [].
Proof.
  intros Hsame. rewrite services_modified_unfold. apply omap_nil.
  intros x _. unfold service_entry.
  destruct (services a !! x) as [o|] eqn:Ho; simpl; [|done].
  destruct (services b !! x) as [n|] eqn:Hn; simpl; [|done].
  destruct (Hsame x o n Ho Hn) as [Hdom Hfields].
  by rewrite compare_service_states_same.
Qed.

(** Two snapshots of a service [svc]: the port changes, the field [mode]
    goes and the field [tls] comes; and a third one that differs from the
    first in the attributes [required] and [visibility] only. *)
Definition example_field_state (v : value) (req : bool) (vis : string)
  : field_state :=
  {[ "state" := VStr "default"; "value" := v; "required" := VBool req;
     "type" := VStr "integer"; "sensitive" := VBool false;
     "visibility" := VStr vis ]}.

Definition example_snapshot (fs : gmap string field_state) : snapshot :=
  {| timestamp := "2025-01-01T00:00:00Z"; schema_version := Some "1.0";
     services := {[ "svc" := {| fields := fs; summary := ∅ |} ]} |}.

Definition example_old : snapshot :=
  example_snapshot
    {[ "port" := example_field_state (VInt 80) false "exposed";
       "mode" := example_field_state (VStr "a") false "exposed" ]}.

Definition example_new : snapshot :=
  example_snapshot
    {[ "port" := example_field_state (VInt 8080) false "exposed";
       "tls" := example_field_state (VBool true) false "exposed" ]}.

Definition example_relabelled : snapshot :=
  example_snapshot
    {[ "port" := example_field_state (VInt 80) true "hidden";
       "mode" := example_field_state (VStr "a") true "advanced" ]}.

(** A snapshot with a field whose value is [NaN], and the same snapshot
    with other attributes on that field. *)
Definition example_nan : snapshot :=
  example_snapshot {[ "ratio" := example_field_state VNaN false "exposed" ]}.

Definition example_nan_relabelled : snapshot :=
  example_snapshot {[ "ratio" := example_field_state VNaN true "hidden" ]}.

Lemma example_field_state_value v req vis :
  example_field_state v req vis !! "value" = Some v.
Proof.
  unfold example_field_state.
  by rewrite lookup_insert_ne, lookup_insert_eq by done.
Qed.

Lemma example_field_state_state v req vis :
  example_field_state v req vis !! "state" = Some (VStr "default").
Proof. unfold example_field_state. by rewrite lookup_insert_eq. Qed.

Lemma example_old_nan_free : nan_free example_old.
Proof.
  intros name ss x f. unfold example_old. simpl.
  intros [<- <-]%lookup_singleton_Some. simpl.
  rewrite lookup_insert. case_decide.
  - intros [= <-]. unfold Py.get.
    by rewrite example_field_state_value, example_field_state_state.
  - intros [_ <-]%lookup_singleton_Some. unfold Py.get.
    by rewrite example_field_state_value, example_field_state_state.
Qed.

Lemma compare_states_round_trip_witness :
  services_modified
    (diff_changes (compare_states "t1" example_old example_old)) = [] ∧
  ∃ d',
    ("svc", d')
      ∈ services_modified
          (diff_changes (compare_states "t2" example_new example_old)) ∧
    fields_removed d' = ["tls"] ∧ fields_added d' = ["mode"].
Proof.
  split.
  - destruct (compare_states_round_trip "t1" "t2" example_old example_old)
      as ((_ & _ & Hself) & _).
    apply Hself, example_old_nan_free.
  - destruct (compare_states_round_trip "t1" "t2" example_old example_new)
      as (_ & _ & Hswap).
    destruct (Hswap "svc"
                {| fields_added := ["tls"]; fields_removed := ["mode"];
                   fields_changed :=
                     [("port", {| value_change := Some (VInt 80, VInt 8080);
                                  state_change := None |})] |})
      as (_ & d' & Hd' & Ha & Hr).
    + vm_compute. left.
    + exists d'. simpl in Ha, Hr. by rewrite <-Ha, <-Hr.
Defined.

(** C8 fails as stated: [NaN != NaN], so the diff of the snapshot with
    itself lists the field [ratio] of the service as changed, from [NaN]
    to [NaN]. *)
Lemma nan_round_trip_counterexample :
  services_modified
    (diff_changes (compare_states "t" example_nan example_nan))
  = [("svc", {| fields_added := []; fields_removed := [];
                fields_changed :=
                  [("ratio", {| value_change := Some (VNaN, VNaN);
                                state_change := None |})] |})].
Proof. by vm_compute. Qed.

Lemma only_value_and_state_compared_witness :
  services_modified
    (diff_changes (compare_states "t" example_old example_relabelled)) = [].
Proof.
  apply only_value_and_state_compared.
  intros name o n. unfold example_old, example_relabelled. simpl.
  intros [<- <-]%lookup_singleton_Some [_ <-]%lookup_singleton_Some.
  split; [reflexivity|]. simpl. intros x f g.
  rewrite !lookup_insert. repeat case_decide; try done.
  - intros [= <-] [= <-]. unfold Py.get.
    by rewrite !example_field_state_value, !example_field_state_state.
  - intros [_ <-]%lookup_singleton_Some [_ <-]%lookup_singleton_Some.
    unfold Py.get.
    by rewrite !example_field_state_value, !example_field_state_state.
Defined.

(** C9 fails as stated: the two snapshots have the same field, with the
    same [value] and [state], and differ in [required] and [visibility]
    only, and the service is reported as modified: the value is [NaN]. *)
Lemma nan_attributes_counterexample :
  (∀ name o n,
     services example_nan !! name = Some o →
     services example_nan_relabelled !! name = Some n →
     dom (fields o) = dom (fields n) ∧
     ∀ x f g, fields o !! x = Some f → fields n !! x = Some g →
              f !! "value" = g !! "value" ∧ f !! "state" = g !! "state")
  ∧ services_modified
      (diff_changes (compare_states "t" example_nan example_nan_relabelled))
    = [("svc", {| fields_added := []; fields_removed := [];
                  fields_changed :=
                    [("ratio", {| value_change := Some (VNaN, VNaN);
                                  state_change := None |})] |})].
Proof.
  split; [|by vm_compute].
  intros name o n. unfold example_nan, example_nan_relabelled. simpl.
  intros [<- <-]%lookup_singleton_Some [_ <-]%lookup_singleton_Some.
  split; [simpl; by rewrite !dom_singleton_L|]. simpl. intros x f g.
  intros [<- <-]%lookup_singleton_Some [_ <-]%lookup_singleton_Some.
  by rewrite !example_field_state_value, !example_field_state_state.
Qed.

End state_diff.

(** ** The dependency order: [topological_sort] *)

Section dependency_order.

Import QuadletGenerator.

Context (svcs : services) (S : list string).

(** [service['infrastructure'].get('requires', [])] of a service name. *)
Definition reqs (s : string) : list string :=
  match services_get s svcs with
  | Some svc => requires (infra svc)
  | None => []
  end.

(** The requirements of [s] inside the enabled set, with repetitions. *)
Definition deps (s : string) : list string := filter (λ d, d ∈ S) (reqs s).

(** The [requires] relation restricted to the enabled set. *)
Definition restricted_edge (a b : string) : Prop :=
  a ∈ S ∧ b ∈ S ∧ requires_edge svcs a b.

(** Number of occurrences. *)
Definition occ (x : string) (l : list string) : nat :=
  length (filter (λ y, y = x) l).

Lemma occ_nil x : occ x [] = 0.
Proof. done. Qed.

Lemma occ_cons x y l :
  occ x (y :: l) = (if bool_decide (y = x) then 1 else 0) + occ x l.
Proof.
  unfold occ. rewrite filter_cons. by case_decide; case_bool_decide.
Qed.

Lemma occ_app x l k : occ x (l ++ k) = occ x l + occ x k.
Proof. unfold occ. by rewrite filter_app, length_app. Qed.

Lemma occ_replicate x n y :
  occ x (replicate n y) = if bool_decide (y = x) then n else 0.
Proof.
  induction n as [|n IH]; simpl.
  - by case_bool_decide.
  - rewrite occ_cons, IH. by case_bool_decide.
Qed.

Lemma occ_pos x l : 0 < occ x l ↔ x ∈ l.
Proof.
  induction l as [|y l IH]; [rewrite occ_nil; set_solver by lia|].
  rewrite occ_cons, elem_of_cons, <-IH. case_bool_decide; naive_solver lia.
Qed.

Lemma occ_0 x l : occ x l = 0 ↔ x ∉ l.
Proof. rewrite <-occ_pos. lia. Qed.

Lemma restricted_edge_deps a b : restricted_edge a b ↔ a ∈ S ∧ b ∈ deps a.
Proof.
  unfold restricted_edge, requires_edge, deps, reqs.
  rewrite list_elem_of_filter. destruct (services_get a svcs) as [svc|].
  - naive_solver.
  - split; [naive_solver|]. by intros (_ & _ & ?%elem_of_nil).
Qed.

(** *** Building the graph *)

Lemma add_edges_cons s dep rs graph in_degree :
  add_edges S s (graph, in_degree) (dep :: rs)
  = add_edges S s
      (if bool_decide (dep ∈ S)
       then (<[dep := dd_list graph dep ++ [s]]> graph,
             <[s := (dd_int in_degree s + 1)%Z]> in_degree)
       else (graph, in_degree)) rs.
Proof. reflexivity. Qed.

Lemma add_edges_spec s rs graph in_degree :
  ∃ graph' in_degree',
    add_edges S s (graph, in_degree) rs = (graph', in_degree') ∧
    (∀ d, dd_list graph' d
          = dd_list graph d
            ++ replicate (occ d (filter (λ d, d ∈ S) rs)) s) ∧
    dd_int in_degree' s
    = (dd_int in_degree s + Z.of_nat (length (filter (λ d, d ∈ S) rs)))%Z ∧
    (∀ x, x ≠ s → dd_int in_degree' x = dd_int in_degree x).
Proof.
  revert graph in_degree. induction rs as [|dep rs IH]; intros graph in_degree.
  - exists graph, in_degree. split_and!; try done.
    + intros d. by rewrite app_nil_r.
    + simpl. lia.
  - rewrite add_edges_cons, filter_cons. case_bool_decide as Hdep.
    + rewrite decide_True by done.
      edestruct IH as (graph' & in_degree' & -> & Hg & Hi & Hx).
      exists graph', in_degree'. split_and!; try done.
      * intros d. rewrite Hg, occ_cons. unfold dd_list at 1.
        rewrite lookup_insert. case_decide as Hd; case_bool_decide;
          simplify_eq; simpl; [|done].
        by rewrite <-app_assoc.
      * rewrite Hi. unfold dd_int at 1. rewrite lookup_insert_eq. simpl. lia.
      * intros x Hne. rewrite Hx by done. unfold dd_int.
        by rewrite lookup_insert_ne.
    + rewrite decide_False by done. apply IH.
Qed.

(** The dependents of [d] among [todo], as [graph[d]] lists them. *)
Definition dependents (todo : list string) (d : string) : list string :=
  mjoin ((λ s, replicate (occ d (deps s)) s) <$> todo).

Lemma build_graph_spec todo graph in_degree :
  NoDup todo →
  (∀ s, s ∈ todo → is_Some (services_get s svcs)) →
  ∃ graph' in_degree',
    build_graph svcs S todo (graph, in_degree) = Return (graph', in_degree') ∧
    (∀ d, dd_list graph' d = dd_list graph d ++ dependents todo d) ∧
    (∀ x, dd_int in_degree' x
          = (dd_int in_degree x
             + Z.of_nat (if bool_decide (x ∈ todo) then length (deps x)
                         else 0))%Z).
Proof.
  revert graph in_degree.
  induction todo as [|s todo IH]; intros graph in_degree Hnd Hsvc.
  - exists graph, in_degree. split_and!; try done.
    + intros d. by rewrite app_nil_r.
    + intros x. simpl. lia.
  - apply NoDup_cons in Hnd as [Hs Hnd].
    destruct (Hsvc s) as [svc Hsvc_s]; [by left|].
    simpl. rewrite Hsvc_s.
    destruct (add_edges_spec s (requires (infra svc)) graph in_degree)
      as (g1 & i1 & -> & Hg1 & Hi1 & Hx1).
    destruct (IH g1 i1 Hnd) as (g2 & i2 & -> & Hg2 & Hi2).
    { intros ??. apply Hsvc. by right. }
    assert (deps s = filter (λ d, d ∈ S) (requires (infra svc))) as Hdeps.
    { unfold deps, reqs. by rewrite Hsvc_s. }
    exists g2, i2. split_and!; try done.
    + intros d. rewrite Hg2, Hg1, <-app_assoc. unfold dependents. csimpl.
      by rewrite Hdeps.
    + intros x. rewrite Hi2. destruct (decide (x = s)) as [->|Hne].
      * rewrite Hi1, <-Hdeps.
        rewrite (bool_decide_eq_false_2 (s ∈ todo)) by done.
        rewrite (bool_decide_eq_true_2 (s ∈ s :: todo)) by left. lia.
      * rewrite Hx1 by done.
        repeat case_bool_decide; try done; set_solver.
Qed.

Lemma occ_dependents s d todo :
  NoDup todo →
  occ s (dependents todo d) = if bool_decide (s ∈ todo) then occ d (deps s) else 0.
Proof.
  unfold dependents. induction todo as [|x todo IH]; [done|].
  intros [Hx Hnd]%NoDup_cons. csimpl.
  rewrite occ_app, occ_replicate, IH by done.
  destruct (decide (x = s)) as [->|Hne].
  - rewrite (bool_decide_eq_true_2 (s = s)) by done.
    rewrite (bool_decide_eq_false_2 (s ∈ todo)) by done.
    rewrite (bool_decide_eq_true_2 (s ∈ s :: todo)) by left. lia.
  - rewrite (bool_decide_eq_false_2 (x = s)) by done.
    repeat case_bool_decide; try done; set_solver.
Qed.

Lemma elem_of_dependents s d todo : s ∈ dependents todo d → s ∈ todo.
Proof.
  unfold dependents. induction todo as [|x todo IH]; csimpl.
  - by intros ?%elem_of_nil.
  - intros [[-> _]%elem_of_replicate | ?]%elem_of_app; [by left|].
    right. auto.
Qed.

(** *** The loop *)

Lemma release_cons in_degree queue x L :
  foldl release (in_degree, queue) (x :: L)
  = foldl release
      (<[x := (dd_int in_degree x - 1)%Z]> in_degree,
       if bool_decide ((dd_int in_degree x - 1)%Z = 0%Z)
       then queue ++ [x] else queue) L.
Proof. simpl. by case_bool_decide. Qed.

(** [for dependent in graph[service]]: every in-degree goes down by the
    number of occurrences, and the names whose in-degree reaches zero
    are appended, once each. *)
Lemma release_fold L in_degree queue :
  (∀ s, s ∈ L → (Z.of_nat (occ s L) ≤ dd_int in_degree s)%Z) →
  ∃ in_degree' new,
    foldl release (in_degree, queue) L = (in_degree', queue ++ new) ∧
    (∀ s, dd_int in_degree' s
          = (dd_int in_degree s - Z.of_nat (occ s L))%Z) ∧
    NoDup new ∧
    (∀ s, s ∈ new ↔ s ∈ L ∧ dd_int in_degree s = Z.of_nat (occ s L)).
Proof.
  revert in_degree queue.
  induction L as [|x L IH]; intros in_degree queue Hpre.
  { exists in_degree, []. rewrite app_nil_r. split_and!; try done.
    - intros s. rewrite occ_nil. lia.
    - constructor.
    - intros s. set_solver. }
  rewrite release_cons.
  set (d := (dd_int in_degree x - 1)%Z).
  set (i1 := <[x := d]> in_degree).
  assert (∀ s, dd_int i1 s = if bool_decide (s = x) then d
                             else dd_int in_degree s) as Hi1.
  { intros s. unfold i1, dd_int at 1. rewrite lookup_insert.
    case_decide; case_bool_decide; simplify_eq; done. }
  assert (∀ s, occ s (x :: L)
               = (if bool_decide (s = x) then 1 else 0) + occ s L) as Hocc.
  { intros s. rewrite occ_cons. repeat case_bool_decide; simplify_eq; done. }
  assert (Z.of_nat (occ x L) ≤ d)%Z as Hx.
  { assert (x ∈ x :: L) as Hin by left.
    specialize (Hpre x Hin).
    rewrite Hocc, bool_decide_eq_true_2 in Hpre by done.
    unfold d. lia. }
  assert (∀ s, s ∈ L → (Z.of_nat (occ s L) ≤ dd_int i1 s)%Z) as Hpre1.
  { intros s Hs. rewrite Hi1. case_bool_decide as Hsx; [by subst|].
    specialize (Hpre s). rewrite Hocc, bool_decide_eq_false_2 in Hpre by done.
    apply Hpre. by right. }
  case_bool_decide as Hd.
  - destruct (IH i1 (queue ++ [x]) Hpre1) as (i' & new & -> & Hi' & Hnd & Hnew).
    assert (x ∉ L) as HxL.
    { apply occ_0. lia. }
    exists i', (x :: new). split_and!.
    + by rewrite <-app_assoc.
    + intros s. rewrite Hi', Hi1, Hocc. case_bool_decide; subst; lia.
    + apply NoDup_cons. split; [|done]. rewrite Hnew. tauto.
    + intros s. rewrite elem_of_cons, Hnew, Hi1, Hocc, elem_of_cons.
      case_bool_decide as Hsx.
      * subst s. apply occ_0 in HxL. split; [|tauto]. intros _.
        split; [by left|]. lia.
      * split; [intros [?|[? ?]]; [done|] | intros [[?|?] ?]; [done|]].
        -- split; [by right | lia].
        -- right. split; [done | lia].
  - destruct (IH i1 queue Hpre1) as (i' & new & -> & Hi' & Hnd & Hnew).
    exists i', new. split_and!; try done.
    + intros s. rewrite Hi', Hi1, Hocc. case_bool_decide; subst; lia.
    + intros s. rewrite Hnew, Hi1, Hocc, elem_of_cons.
      case_bool_decide as Hsx.
      * subst s. split.
        -- intros [? ?]. split; [by left | lia].
        -- intros [_ ?]. split; [|lia]. apply occ_pos. lia.
      * split; [intros [? ?] | intros [[?|?] ?]; [done|]].
        -- split; [by right | lia].
        -- split; [done | lia].
Qed.

Lemma filter_not_in_snoc (sorted l : list string) x :
  x ∉ sorted →
  length (filter (λ d, d ∉ sorted ++ [x]) l) + occ x l
  = length (filter (λ d, d ∉ sorted) l).
Proof.
  intros Hx. induction l as [|y l IH]; [done|].
  rewrite !filter_cons, occ_cons.
  destruct (decide (y = x)) as [->|Hne].
  - rewrite bool_decide_eq_true_2 by done.
    rewrite decide_False by set_solver. rewrite decide_True by done.
    simpl. lia.
  - rewrite bool_decide_eq_false_2 by done.
    destruct (decide (y ∈ sorted)).
    + rewrite !decide_False by set_solver. lia.
    + rewrite !decide_True by set_solver. simpl. lia.
Qed.

Context (graph : gmap string (list string)).

(** What [build_graph] guarantees about [graph]. *)
Definition graph_ok : Prop :=
  ∀ d, (∀ s, s ∈ dd_list graph d → s ∈ S) ∧
       (∀ s, s ∈ S → occ s (dd_list graph d) = occ d (deps s)).

(** The invariant of [while queue:]. *)
Definition kahn_inv (in_degree : gmap string Z)
    (queue sorted_services : list string) : Prop :=
  NoDup (sorted_services ++ queue) ∧
  (∀ x, x ∈ sorted_services ++ queue → x ∈ S) ∧
  (∀ s, s ∈ S →
        dd_int in_degree s
        = Z.of_nat (length (filter (λ d, d ∉ sorted_services) (deps s)))) ∧
  (∀ s, s ∈ S → s ∈ sorted_services ++ queue ↔ dd_int in_degree s = 0%Z) ∧
  (∀ pre s post, sorted_services = pre ++ s :: post →
                 ∀ d, d ∈ deps s → d ∈ pre).

Lemma kahn_step in_degree x queue sorted_services :
  graph_ok →
  kahn_inv in_degree (x :: queue) sorted_services →
  ∃ in_degree' new,
    foldl release (in_degree, queue) (dd_list graph x)
    = (in_degree', queue ++ new) ∧
    kahn_inv in_degree' (queue ++ new) (sorted_services ++ [x]).
Proof.
  intros Hg (Hnd & Hsub & Hdeg & Hzero & Hord).
  assert (x ∈ S) as HxS by (apply Hsub; set_solver).
  assert (x ∉ sorted_services) as Hxs.
  { apply NoDup_app in Hnd as (_ & Hdisj & _). intros ?.
    eapply Hdisj; [done | by left]. }
  assert (∀ s, s ∈ S →
               (Z.of_nat (occ s (dd_list graph x)) ≤ dd_int in_degree s)%Z)
    as Hle.
  { intros s Hs. rewrite (proj2 (Hg x) s Hs), (Hdeg s Hs).
    pose proof (filter_not_in_snoc sorted_services (deps s) x Hxs). lia. }
  destruct (release_fold (dd_list graph x) in_degree queue)
    as (i' & new & Hfold & Hi' & Hnew_nd & Hnew).
  { intros s Hs. apply Hle. by apply (Hg x). }
  exists i', new. split; [done|].
  assert (∀ s, s ∈ S →
               dd_int i' s
               = Z.of_nat (length (filter (λ d, d ∉ sorted_services ++ [x])
                                          (deps s)))) as Hdeg'.
  { intros s Hs. rewrite Hi', (proj2 (Hg x) s Hs), (Hdeg s Hs).
    pose proof (filter_not_in_snoc sorted_services (deps s) x Hxs). lia. }
  assert (∀ s, s ∈ new → s ∈ S ∧ s ∉ sorted_services ++ x :: queue) as Hfresh.
  { intros s [HsL Hs]%Hnew.
    assert (s ∈ S) as HsS by by apply (Hg x).
    split; [done|]. rewrite (Hzero s HsS).
    apply occ_pos in HsL. lia. }
  split_and!.
  - rewrite <-app_assoc. simpl.
    apply NoDup_app in Hnd as (Hnd1 & Hdisj & Hnd2).
    apply NoDup_cons in Hnd2 as [Hxq Hnd2].
    apply NoDup_app. split_and!; [done| |].
    + intros y Hy [-> | [Hq | Hn]%elem_of_app]%elem_of_cons; [done| |].
      * eapply Hdisj; [done | by right].
      * apply Hfresh in Hn as [_ Hn]. apply Hn. set_solver.
    + apply NoDup_cons. split.
      * intros [Hq | Hn]%elem_of_app; [done|].
        apply Hfresh in Hn as [_ Hn]. apply Hn. set_solver.
      * apply NoDup_app. split_and!; [done| |done].
        intros y Hy Hn. apply Hfresh in Hn as [_ Hn]. apply Hn. set_solver.
  - intros y Hy. rewrite <-app_assoc in Hy. simpl in Hy.
    apply elem_of_app in Hy as [Hy | [-> | [Hy | Hy]%elem_of_app]%elem_of_cons].
    + apply Hsub. set_solver.
    + done.
    + apply Hsub. set_solver.
    + by apply Hfresh in Hy as [? _].
  - done.
  - intros s Hs. rewrite Hi'. specialize (Hle s Hs).
    specialize (Hzero s Hs). specialize (Hnew s).
    assert (s ∈ (sorted_services ++ [x]) ++ queue ++ new
            ↔ s ∈ sorted_services ++ x :: queue ∨ s ∈ new) as ->
      by set_solver.
    split.
    + intros [Hold | Hn]; [|apply Hnew in Hn; lia].
      apply Hzero in Hold. lia.
    + intros H0.
      destruct (decide (occ s (dd_list graph x) = 0)) as [Hocc|Hocc].
      * left. apply Hzero. lia.
      * right. apply Hnew. split; [apply occ_pos|]; lia.
  - intros pre s post Heq d Hd.
    destruct post as [|p post _] using rev_ind.
    + apply (app_inj_tail sorted_services pre x s) in Heq as [<- <-].
      assert (dd_int in_degree x = 0%Z) as H0 by (apply Hzero; set_solver).
      rewrite (Hdeg x HxS) in H0.
      destruct (decide (d ∈ sorted_services)); [done|].
      assert (d ∈ filter (λ d, d ∉ sorted_services) (deps x)) as Hin
        by by apply list_elem_of_filter.
      destruct (filter _ (deps x)); [by apply elem_of_nil in Hin|].
      simpl in H0. lia.
    + rewrite app_comm_cons, app_assoc in Heq.
      apply app_inj_tail in Heq as [-> _]. by eapply Hord.
Qed.

Lemma kahn_inv_length in_degree queue sorted_services :
  NoDup S → kahn_inv in_degree queue sorted_services →
  length sorted_services + length queue ≤ length S.
Proof.
  intros HS (Hnd & Hsub & _). rewrite <-length_app.
  apply submseteq_length, NoDup_submseteq; done.
Qed.

(** The loop ends before the fuel does, in a state that satisfies the
    invariant with an empty queue, and what was emitted or queued is
    emitted first. *)
Lemma kahn_loop_spec fuel in_degree queue sorted_services :
  NoDup S → graph_ok →
  kahn_inv in_degree queue sorted_services →
  length S < fuel + length sorted_services →
  ∃ out in_degree',
    kahn_loop fuel graph in_degree queue sorted_services = Some out ∧
    kahn_inv in_degree' [] out ∧
    (sorted_services ++ queue) `prefix_of` out.
Proof.
  intros HS Hg.
  revert in_degree queue sorted_services.
  induction fuel as [|fuel IH]; intros in_degree queue sorted_services Hinv Hfuel.
  { pose proof (kahn_inv_length _ _ _ HS Hinv). lia. }
  destruct queue as [|x queue]; simpl.
  { exists sorted_services, in_degree. by rewrite app_nil_r. }
  destruct (kahn_step in_degree x queue sorted_services Hg Hinv)
    as (i' & new & -> & Hinv').
  destruct (IH i' (queue ++ new) (sorted_services ++ [x]) Hinv')
    as (out & i_f & -> & Hfinal & Hpre).
  { rewrite length_app. simpl. lia. }
  exists out, i_f. split_and!; try done.
  etrans; [|exact Hpre]. rewrite <-!app_assoc. simpl.
  apply prefix_app, prefix_cons, prefix_app_r. done.
Qed.

(** Without a cycle nothing is left behind. *)
Lemma kahn_complete in_degree out :
  (∀ s, ¬ tc restricted_edge s s) →
  kahn_inv in_degree [] out →
  ∀ s, s ∈ S → s ∈ out.
Proof.
  intros Hacyc (_ & _ & Hdeg & Hzero & _) s Hs.
  assert (sn restricted_edge s) as Hsn.
  { apply tc_finite_sn.
    - intros x Hx. by eapply Hacyc.
    - exists S. intros y Hy. clear Hs.
      induction Hy as [? ? (_ & ? & _) | ? ? ? _ _ IH]; done. }
  induction Hsn as [s _ IH].
  destruct (decide (s ∈ out)) as [|Hout]; [done|]. exfalso.
  assert (dd_int in_degree s ≠ 0%Z) as Hnz.
  { rewrite <-(Hzero s Hs), app_nil_r. done. }
  rewrite (Hdeg s Hs) in Hnz.
  destruct (filter (λ d, d ∉ out) (deps s)) as [|d rest] eqn:Hf; [done|].
  assert (d ∈ filter (λ d, d ∉ out) (deps s)) as Hd by (rewrite Hf; by left).
  apply list_elem_of_filter in Hd as [Hdout Hd].
  assert (restricted_edge s d) as Hedge by by apply restricted_edge_deps.
  apply Hdout, (IH d); [done|]. by destruct Hedge as (_ & ? & _).
Qed.

End dependency_order.

Section topological_sort_claims.

Import QuadletGenerator.

(** The enabled set is given by the duplicate-free list of its elements in
    iteration order; its names are names of services (they come from
    [get_enabled_services]); the restricted graph has no cycle. *)
Definition enabled_set (svcs : services) (S : list string) : Prop :=
  NoDup S ∧ ∀ s, s ∈ S → is_Some (services_get s svcs).

Definition acyclic (svcs : services) (S : list string) : Prop :=
  ∀ s, ¬ tc (restricted_edge svcs S) s s.

Lemma filter_ext_in {A} (P Q : A → Prop) `{∀ x, Decision (P x)}
    `{∀ x, Decision (Q x)} (l : list A) :
  (∀ x, x ∈ l → P x ↔ Q x) → filter P l = filter Q l.
Proof.
  induction l as [|x l IH]; intros Hext; [done|].
  rewrite !filter_cons, IH by (intros ??; apply Hext; by right).
  destruct (decide (P x)) as [HP|HP], (decide (Q x)) as [HQ|HQ]; try done.
  - destruct HQ. apply Hext; [by left | done].
  - destruct HP. apply Hext; [by left | done].
Qed.

Lemma filter_all {A} (P : A → Prop) `{∀ x, Decision (P x)} (l : list A) :
  (∀ x, P x) → filter P l = l.
Proof.
  intros HP. induction l as [|x l IH]; [done|].
  by rewrite filter_cons, decide_True, IH.
Qed.

(** A run of [topological_sort] on an enabled set: the graph is built,
    the loop ends, and its result satisfies the invariant. *)
Lemma topological_sort_run svcs S :
  enabled_set svcs S →
  ∃ graph in_degree out,
    build_graph svcs S S (∅, ∅) = Return (graph, in_degree) ∧
    kahn_loop (Datatypes.S (length S)) graph in_degree
      (filter (λ s, dd_int in_degree s = 0%Z) S) [] = Some out ∧
    (∃ in_degree', kahn_inv svcs S in_degree' [] out) ∧
    filter (λ s, deps svcs S s = []) S `prefix_of` out.
Proof.
  intros [HS Hsvc].
  destruct (build_graph_spec svcs S S ∅ ∅ HS Hsvc)
    as (graph & in_degree & Hbuild & Hgraph & Hdeg).
  assert (∀ x, dd_int in_degree x
               = Z.of_nat (if bool_decide (x ∈ S)
                           then length (deps svcs S x) else 0)) as Hdeg'.
  { intros x. rewrite Hdeg. unfold dd_int. rewrite lookup_empty. simpl. lia. }
  assert (graph_ok svcs S graph) as Hok.
  { intros d. specialize (Hgraph d). unfold dd_list at 2 in Hgraph.
    rewrite lookup_empty in Hgraph. simpl in Hgraph. rewrite Hgraph. split.
    - intros s. apply elem_of_dependents.
    - intros s Hs. by rewrite occ_dependents, bool_decide_eq_true_2. }
  assert (filter (λ s, dd_int in_degree s = 0%Z) S
          = filter (λ s, deps svcs S s = []) S) as Hqueue.
  { apply filter_ext_in. intros x Hx.
    rewrite Hdeg', bool_decide_eq_true_2 by done.
    destruct (deps svcs S x); simpl; split; (done || lia). }
  assert (kahn_inv svcs S in_degree
            (filter (λ s, dd_int in_degree s = 0%Z) S) []) as Hinit.
  { split_and!.
    - by apply NoDup_filter.
    - by intros x [_ ?]%list_elem_of_filter.
    - intros s Hs. rewrite Hdeg', bool_decide_eq_true_2 by done.
      rewrite filter_all; [done|]. intros x. apply not_elem_of_nil.
    - intros s Hs. simpl. rewrite list_elem_of_filter. tauto.
    - intros [|??] ???; done. }
  destruct (kahn_loop_spec svcs S graph (Datatypes.S (length S)) in_degree
              (filter (λ s, dd_int in_degree s = 0%Z) S) [] HS Hok Hinit)
    as (out & i_f & Hloop & Hfinal & Hpre).
  { simpl. lia. }
  exists graph, in_degree, out. split_and!; try done; [by eexists|].
  by rewrite <-Hqueue.
Qed.

Lemma topological_sort_returns svcs S :
  enabled_set svcs S → acyclic svcs S →
  ∃ out in_degree,
    topological_sort svcs S = Return out ∧
    kahn_inv svcs S in_degree [] out ∧
    out ≡ₚ S ∧
    filter (λ s, deps svcs S s = []) S `prefix_of` out.
Proof.
  intros Hen Hacyc.
  destruct (topological_sort_run svcs S Hen)
    as (graph & in_degree & out & Hbuild & Hloop & [i_f Hfinal] & Hpre).
  assert (out ≡ₚ S) as Hperm.
  { destruct Hen as [HS _]. pose proof Hfinal as (Hnd & Hsub & _).
    rewrite app_nil_r in Hnd. apply NoDup_Permutation; [done..|].
    intros x. split.
    - intros ?. apply Hsub. by rewrite app_nil_r.
    - by eapply kahn_complete. }
  exists out, i_f. split_and!; try done.
  unfold topological_sort. rewrite Hbuild, Hloop.
  rewrite bool_decide_eq_false_2; [done|].
  intros Hne. apply Hne. by rewrite Hperm.
Qed.

(** With or without a cycle, the loop of [topological_sort] ends before
    its fuel does. *)
Lemma topological_sort_fuel svcs S :
  enabled_set svcs S → topological_sort svcs S ≠ OutOfFuel.
Proof.
  intros Hen.
  destruct (topological_sort_run svcs S Hen)
    as (graph & in_degree & out & Hbuild & Hloop & _).
  unfold topological_sort. rewrite Hbuild, Hloop. by case_bool_decide.
Qed.

(** C4: on an enabled set without cycle the result lists exactly the
    enabled services, and each requirement that is enabled comes before
    the service that requires it. *)
Theorem topological_sort_correct svcs S :
  enabled_set svcs S → acyclic svcs S →
  ∃ out,
    topological_sort svcs S = Return out ∧
    out ≡ₚ S ∧
    ∀ s svc d,
      s ∈ S → services_get s svcs = Some svc →
      d ∈ requires (infra svc) → d ∈ S →
      ∃ l1 l2 l3, out = l1 ++ d :: l2 ++ s :: l3.
Proof.
  intros Hen Hacyc.
  destruct (topological_sort_returns svcs S Hen Hacyc)
    as (out & i_f & Hret & Hfinal & Hperm & _).
  exists out. split_and!; try done.
  intros s svc d Hs Hsvc Hd HdS.
  destruct Hfinal as (_ & _ & _ & _ & Hord).
  assert (s ∈ out) as (pre & post & ->)%list_elem_of_split
    by by rewrite Hperm.
  assert (d ∈ pre) as (l1 & l2 & ->)%list_elem_of_split.
  { apply (Hord pre s post eq_refl). unfold deps, reqs. rewrite Hsvc.
    by apply list_elem_of_filter. }
  exists l1, l2, post. by rewrite <-app_assoc.
Qed.

(** C1 (as amended): the result is a function of the topology and of the
    order in which the enabled set is iterated; the queue is first in,
    first out: the services without requirement in the set come first,
    in iteration order.  Names are not compared. *)
Theorem topological_sort_fifo svcs S :
  enabled_set svcs S → acyclic svcs S →
  ∃ rest,
    topological_sort svcs S
    = Return (filter (λ s, deps svcs S s = []) S ++ rest).
Proof.
  intros Hen Hacyc.
  destruct (topological_sort_returns svcs S Hen Hacyc)
    as (out & i_f & Hret & _ & _ & [rest ->]).
  by exists rest.
Qed.

(** *** The order of the specification

    "When multiple nodes have indegree zero, pop them in ascending
    lexicographic order of service name": the next name is the least one
    among those not yet emitted whose requirements in the set all are. *)
Definition ready (svcs : services) (S emitted : list string) (s : string)
  : Prop :=
  (s ∉ emitted) ∧ Forall (λ d, d ∈ emitted) (deps svcs S s).

#[local] Instance ready_dec svcs S emitted s :
  Decision (ready svcs S emitted s).
Proof. unfold ready. apply _. Defined.

Fixpoint lexicographic_kahn (svcs : services) (S : list string) (fuel : nat)
    (emitted : list string) : list string :=
  match fuel with
  | 0 => emitted
  | Datatypes.S fuel =>
      match merge_sort String.le (filter (ready svcs S emitted) S) with
      | [] => emitted
      | s :: _ => lexicographic_kahn svcs S fuel (emitted ++ [s])
      end
  end.

Definition lexicographic_order (svcs : services) (S : list string)
  : list string :=
  lexicographic_kahn svcs S (length S) [].

Definition example_node (deps : list string) : service :=
  {| infra := example_infra true [] deps; config := {| properties := ∅ |} |}.

(** [b] requires [a]; [c] stands alone. *)
Definition example_order : services :=
  [ ("a", example_node []); ("b", example_node ["a"]);
    ("c", example_node []) ].

Lemma example_order_enabled_set :
  enabled_set example_order ["a"; "b"; "c"].
Proof.
  split.
  - repeat (apply NoDup_cons; split; [set_solver|]). constructor.
  - intros s Hs. repeat (apply elem_of_cons in Hs as [-> | Hs]; [by eexists|]).
    by apply elem_of_nil in Hs.
Qed.

Lemma example_order_acyclic : acyclic example_order ["a"; "b"; "c"].
Proof.
  assert (∀ x y, restricted_edge example_order ["a"; "b"; "c"] x y →
                 x = "b" ∧ y = "a") as Hedge.
  { intros x y (Hx & _ & svc & Hsvc & Hy).
    repeat (apply elem_of_cons in Hx as [-> | Hx]);
      try by apply elem_of_nil in Hx.
    - injection Hsvc as <-. by apply elem_of_nil in Hy.
    - injection Hsvc as <-. by apply list_elem_of_singleton in Hy.
    - injection Hsvc as <-. by apply elem_of_nil in Hy. }
  assert (∀ x y, tc (restricted_edge example_order ["a"; "b"; "c"]) x y →
                 x = "b" ∧ y = "a") as Htc.
  { intros x y Hxy. induction Hxy as [x y H | x y z H _ [-> _]].
    - by apply Hedge.
    - by apply Hedge in H as [_ ?]. }
  intros s Hs. by apply Htc in Hs as [-> ?].
Qed.

Lemma topological_sort_correct_witness :
  ∃ out,
    topological_sort example_order ["a"; "b"; "c"] = Return out ∧
    out ≡ₚ ["a"; "b"; "c"] ∧
    ∀ s svc d,
      s ∈ ["a"; "b"; "c"] → services_get s example_order = Some svc →
      d ∈ requires (infra svc) → d ∈ ["a"; "b"; "c"] →
      ∃ l1 l2 l3, out = l1 ++ d :: l2 ++ s :: l3.
Proof.
  apply topological_sort_correct.
  - exact example_order_enabled_set.
  - exact example_order_acyclic.
Defined.

Lemma topological_sort_fifo_witness :
  ∃ rest,
    topological_sort example_order ["a"; "b"; "c"]
    = Return (["a"; "c"] ++ rest).
Proof.
  apply (topological_sort_fifo example_order ["a"; "b"; "c"]).
  - exact example_order_enabled_set.
  - exact example_order_acyclic.
Defined.

(** C1 fails as stated.  After [a] is popped, [b] and [c] both have
    in-degree zero and [b] is the lesser name, but [c], queued earlier,
    is popped: no iteration order of the set yields the lexicographic
    order.  And two iteration orders of the same set yield two different
    lists. *)
Lemma lexicographic_tiebreak_counterexample :
  topological_sort example_order ["a"; "b"; "c"] = Return ["a"; "c"; "b"] ∧
  lexicographic_order example_order ["a"; "b"; "c"] = ["a"; "b"; "c"] ∧
  (∀ order, order ∈ permutations ["a"; "b"; "c"] →
            topological_sort example_order order
            ≠ Return (lexicographic_order example_order order)) ∧
  topological_sort example_order ["c"; "b"; "a"] = Return ["c"; "a"; "b"].
Proof.
  split_and!; try by vm_compute.
  intros order Horder. vm_compute in Horder.
  repeat (apply elem_of_cons in Horder as [-> | Horder];
          [by vm_compute|]).
  by apply elem_of_nil in Horder.
Qed.

End topological_sort_claims.

(** ** Cycle detection: [_validate_no_circular_dependencies] *)

Section cycle_detection.

Import TopologyValidator.

Context (svcs : services).

Lemma services_get_Some name svc :
  services_get name svcs = Some svc → name ∈ svcs.*1.
Proof.
  induction svcs as [|[n s] l IH]; simpl; [done|].
  case_bool_decide; [intros _; subst; by left|].
  intros ?%IH. by right.
Qed.

Lemma services_get_is_Some name :
  name ∈ svcs.*1 → is_Some (services_get name svcs).
Proof.
  induction svcs as [|[n s] l IH]; simpl; [by intros ?%elem_of_nil|].
  case_bool_decide; [by eauto|].
  intros [?|?]%elem_of_cons; [done | by apply IH].
Qed.

(** The second state has seen at least the services of the first, and
    its errors are those of the first followed by others. *)
Definition extends (st st' : dfs_state) : Prop :=
  visited st ⊆ visited st' ∧ ∃ more, errors st' = errors st ++ more.

Lemma extends_refl st : extends st st.
Proof. split; [done|]. exists []. by rewrite app_nil_r. Qed.

Lemma extends_trans st1 st2 st3 :
  extends st1 st2 → extends st2 st3 → extends st1 st3.
Proof.
  intros [Hv1 [m1 He1]] [Hv2 [m2 He2]]. split; [set_solver|].
  exists (m1 ++ m2). by rewrite He2, He1, app_assoc.
Qed.

Lemma for_requires_total call name path deps st :
  (∀ dep st0, extends st st0 → dep ∉ visited st0 →
     ∃ b st', call dep (path ++ [name]) st0 = Some (b, st') ∧
              extends st0 st') →
  ∃ b st', for_requires call name path deps st = Some (b, st') ∧
           extends st st'.
Proof.
  revert st. induction deps as [|dep deps IH]; intros st Hcall; simpl.
  - eexists _, _. split; [done|]. split; [done|].
    exists []. by rewrite app_nil_r.
  - case_bool_decide as Hdep.
    + destruct (Hcall dep st (extends_refl st) Hdep) as (b & st1 & -> & Hext).
      destruct b; [by eauto|].
      destruct (IH st1) as (b & st' & -> & Hext').
      { intros dep0 st0 Hext0. apply Hcall. by eapply extends_trans. }
      exists b, st'. split; [done|]. by eapply extends_trans.
    + case_bool_decide.
      * eexists _, _. split; [done|]. split; [done|]. by eexists.
      * apply IH. intros dep0 st0 Hext0. by apply Hcall.
Qed.

(** The recursion is at most one deeper than the longest path, which has
    no more names than there are services. *)
Lemma has_cycle_total depth name path st :
  NoDup path →
  (∀ x, x ∈ path → x ∈ visited st) →
  (∀ x, x ∈ path → x ∈ svcs.*1) →
  name ∉ visited st →
  length svcs.*1 < depth + length path →
  ∃ b st', has_cycle svcs depth name path st = Some (b, st') ∧ extends st st'.
Proof.
  revert name path st.
  induction depth as [|depth IH]; intros name path st Hnd Hvis Hnames Hname Hlen.
  { assert (length path ≤ length svcs.*1); [|lia].
    by apply submseteq_length, NoDup_submseteq. }
  simpl.
  set (st1 := {| visited := {[name]} ∪ visited st;
                 rec_stack := {[name]} ∪ rec_stack st;
                 errors := errors st |}).
  assert (extends st st1) as Hext1.
  { split; [set_solver|]. exists []. by rewrite app_nil_r. }
  destruct (services_get name svcs) as [svc|] eqn:Hsvc; [|by eauto].
  destruct (for_requires_total (has_cycle svcs depth) name path
              (requires (infra svc)) st1) as (b & st' & -> & Hext).
  - intros dep st0 [Hv0 _] Hdep. apply IH; try done.
    + apply NoDup_app. split_and!; [done| |apply NoDup_singleton].
      intros x Hx ->%list_elem_of_singleton. by apply Hname, Hvis.
    + intros x [Hx | ->%list_elem_of_singleton]%elem_of_app.
      * apply Hv0. simpl. apply elem_of_union_r. by apply Hvis.
      * apply Hv0. simpl. set_solver.
    + intros x [Hx | ->%list_elem_of_singleton]%elem_of_app; [by apply Hnames|].
      by eapply services_get_Some.
    + rewrite length_app. simpl. lia.
  - exists b, st'. split; [done|]. by eapply extends_trans.
Qed.

Lemma for_services_total depth names st :
  length svcs.*1 < depth →
  ∃ st', for_services svcs depth names st = Some st' ∧ extends st st'.
Proof.
  intros Hdepth.
  revert st. induction names as [|name names IH]; intros st; simpl.
  { exists st. split; [done | apply extends_refl]. }
  case_bool_decide as Hname; [|apply IH].
  destruct (has_cycle_total depth name [] st)
    as (b & st1 & -> & Hext); try done.
  { constructor. }
  { intros x ?%elem_of_nil. done. }
  { intros x ?%elem_of_nil. done. }
  { simpl. lia. }
  destruct (IH st1) as (st' & -> & Hext').
  exists st'. split; [done|]. by eapply extends_trans.
Qed.

(** The check returns when the recursion may go deeper than there are
    services. *)
Lemma _validate_no_circular_dependencies_returns depth errors0 :
  length svcs < depth →
  ∃ more,
    _validate_no_circular_dependencies depth svcs errors0
    = Returns (errors0 ++ more).
Proof.
  intros Hdepth. unfold _validate_no_circular_dependencies.
  destruct (for_services_total depth svcs.*1
              {| visited := ∅; rec_stack := ∅; errors := errors0 |})
    as (st' & -> & _ & more & Hmore); [by rewrite length_fmap|].
  exists more. simpl. by rewrite Hmore.
Qed.

(** *** What is reported *)

(** A walk in the requires-graph: consecutive names are joined by
    [requires] edges. *)
Fixpoint walk (p : list string) : Prop :=
  match p with
  | [] => True
  | a :: p' =>
      match p' with
      | [] => True
      | b :: _ => requires_edge svcs a b ∧ walk p'
      end
  end.

Lemma walk_snoc p a b :
  walk (p ++ [a]) → requires_edge svcs a b → walk ((p ++ [a]) ++ [b]).
Proof.
  induction p as [|x p IH]; simpl; [done|].
  destruct p as [|y p]; simpl in *; [by intros [? _] ?|].
  intros [? ?] ?. split; [done|]. by apply IH.
Qed.

Lemma walk_app_r l1 l2 : walk (l1 ++ l2) → walk l2.
Proof.
  induction l1 as [|x l1 IH]; simpl; [done|].
  intros H. apply IH. destruct (l1 ++ l2); [done | by destruct H].
Qed.

(** The invariant on the finished services (visited and no longer on the
    recursion stack): their requirements are finished too, and none of
    them lies on a cycle. *)
Definition good (B : gset string) : Prop :=
  (∀ u d, u ∈ B → requires_edge svcs u d → d ∈ B) ∧
  (∀ u, u ∈ B → ¬ tc (requires_edge svcs) u u).

Lemma good_reach B u v :
  good B → u ∈ B → tc (requires_edge svcs) u v → v ∈ B.
Proof.
  intros [Hclosed _] Hu Huv. induction Huv as [x y H | x y z H _ IH].
  - by eapply Hclosed.
  - apply IH. by eapply Hclosed.
Qed.

Lemma good_add B name :
  good B → name ∉ B →
  (∀ d, requires_edge svcs name d → d ∈ B) →
  good (B ∪ {[name]}).
Proof.
  intros HB Hname Hds. split.
  - intros u d [Hu | ->%elem_of_singleton]%elem_of_union Hd.
    + apply elem_of_union_l. by eapply (proj1 HB).
    + apply elem_of_union_l. by apply Hds.
  - intros u [Hu | ->%elem_of_singleton]%elem_of_union Hcyc.
    + by eapply (proj2 HB).
    + apply Hname. inversion Hcyc as [x y H | x y z H Htc]; subst.
      * by apply Hds.
      * eapply good_reach; [done | by apply Hds | done].
Qed.

Lemma walk_tc a l b : walk (a :: l ++ [b]) → tc (requires_edge svcs) a b.
Proof.
  revert a. induction l as [|x l IH]; intros a; simpl.
  - intros [? _]. by apply tc_once.
  - intros [? ?]. eapply tc_l; [done|]. by apply IH.
Qed.

Lemma walk_app_l l1 l2 : walk (l1 ++ l2) → walk l1.
Proof.
  induction l1 as [|x l1 IH]; [done|].
  destruct l1 as [|y l1]; [done|]. simpl. intros [? ?]. split; [done|].
  by apply IH.
Qed.

(** [x] lies on a cycle or on a way to one. *)
Definition leads_to_cycle (x : string) : Prop :=
  ∃ s, rtc (requires_edge svcs) x s ∧ tc (requires_edge svcs) s s.

Lemma good_no_cycle B x : good B → x ∈ B → ¬ leads_to_cycle x.
Proof.
  intros HB Hx (s & Hxs & Hcyc). apply (proj2 HB s); [|done].
  clear Hcyc. induction Hxs as [x | x y z Hxy _ IH]; [done|].
  apply IH. by eapply (proj1 HB).
Qed.

(** A walk that ends in a name it has passed starts on a way to a
    cycle. *)
Lemma walk_leads_to_cycle root stack dep :
  walk (root :: stack ++ [dep]) → dep ∈ root :: stack →
  leads_to_cycle root.
Proof.
  intros Hwalk (l1 & l2 & Hsplit)%list_elem_of_split. exists dep.
  assert (walk (l1 ++ dep :: l2 ++ [dep])) as Hw.
  { change (root :: stack ++ [dep]) with ((root :: stack) ++ [dep]) in Hwalk.
    by rewrite Hsplit, <-app_assoc in Hwalk. }
  clear Hwalk. split.
  - destruct l1 as [|x l1]; injection Hsplit as -> _; [reflexivity|].
    apply tc_rtc, (walk_tc _ l1).
    apply (walk_app_l _ (l2 ++ [dep])).
    replace ((x :: l1 ++ [dep]) ++ l2 ++ [dep])
      with ((x :: l1) ++ dep :: l2 ++ [dep]); [done|].
    simpl. by rewrite <-app_assoc.
  - apply (walk_tc _ l2). by apply walk_app_r in Hw.
Qed.

Context (errors0 : list string).

(** The first cycle error: the recursion stack, which holds every name
    once and is a walk, followed by a requirement that is on it. *)
Definition reported (stack : list string) (st : dfs_state) : Prop :=
  ∃ p dep,
    errors st = errors0 ++ [cycle_error (p ++ [dep])] ∧
    walk (p ++ [dep]) ∧ dep ∈ p ∧ NoDup p ∧ stack `prefix_of` p.

Hypothesis requires_exist :
  ∀ a b, requires_edge svcs a b → is_Some (services_get b svcs).

Definition has_cycle_spec (depth : nat) : Prop :=
  ∀ name path st b st',
    has_cycle svcs depth name path st = Some (b, st') →
    errors st = errors0 →
    good (visited st ∖ rec_stack st) →
    name ∉ visited st →
    rec_stack st = list_to_set path →
    rec_stack st ⊆ visited st →
    NoDup path →
    walk (path ++ [name]) →
    is_Some (services_get name svcs) →
    if b then reported (path ++ [name]) st'
    else errors st' = errors0 ∧
         good (visited st' ∖ rec_stack st') ∧
         rec_stack st' = rec_stack st ∧
         visited st ⊆ visited st' ∧
         name ∈ visited st'.

Lemma for_requires_spec depth name path :
  has_cycle_spec depth →
  ∀ deps st b st',
    for_requires (has_cycle svcs depth) name path deps st = Some (b, st') →
    errors st = errors0 →
    good (visited st ∖ rec_stack st) →
    rec_stack st = list_to_set (path ++ [name]) →
    rec_stack st ⊆ visited st →
    NoDup (path ++ [name]) →
    walk (path ++ [name]) →
    (∀ d, d ∈ deps → requires_edge svcs name d) →
    if b then reported (path ++ [name]) st'
    else errors st' = errors0 ∧
         rec_stack st' = rec_stack st ∖ {[name]} ∧
         visited st ⊆ visited st' ∧
         good (visited st' ∖ rec_stack st) ∧
         ∀ d, d ∈ deps → d ∈ visited st' ∖ rec_stack st.
Proof.
  intros Hrec deps.
  induction deps as [|dep deps IH];
    intros st b st' Hrun Herr Hgood Hstack Hsub Hnd Hwalk Hedges;
    simpl in Hrun.
  { injection Hrun as <- <-. simpl. split_and!; try done.
    intros d ?%elem_of_nil. done. }
  assert (requires_edge svcs name dep) as Hedge by (apply Hedges; by left).
  assert (∀ d, d ∈ deps → requires_edge svcs name d) as Hedges'
    by (intros ??; apply Hedges; by right).
  case_bool_decide as Hdep.
  - destruct (has_cycle svcs depth dep (path ++ [name]) st)
      as [[b1 st1]|] eqn:Hcall; [|done].
    pose proof (Hrec dep (path ++ [name]) st b1 st1 Hcall Herr Hgood Hdep
                  Hstack Hsub Hnd (walk_snoc _ _ _ Hwalk Hedge)
                  (requires_exist _ _ Hedge)) as Hpost.
    destruct b1.
    + injection Hrun as <- <-.
      destruct Hpost as (p & d & ? & ? & ? & ? & Hpre).
      exists p, d. split_and!; try done.
      etrans; [|exact Hpre]. by apply prefix_app_r.
    + destruct Hpost as (Herr1 & Hgood1 & Hstack1 & Hvis1 & Hdep1).
      rewrite Hstack1 in Hgood1.
      pose proof (IH st1 b st' Hrun Herr1) as Hpost.
      rewrite Hstack1 in Hpost.
      specialize (Hpost Hgood1 Hstack ltac:(set_solver) Hnd Hwalk Hedges').
      destruct b; [done|].
      destruct Hpost as (? & ? & ? & ? & Hall).
      split_and!; try done; [set_solver|].
      intros d [-> | Hd]%elem_of_cons; [|by apply Hall].
      apply elem_of_difference. split; [set_solver|].
      intros ?. apply Hdep. by apply Hsub.
  - case_bool_decide as Hon.
    + injection Hrun as <- <-.
      exists (path ++ [name]), dep. simpl. split_and!; try done.
      * by rewrite Herr, <-app_assoc.
      * by apply walk_snoc.
      * rewrite Hstack in Hon. by apply elem_of_list_to_set in Hon.
    + pose proof (IH st b st' Hrun Herr Hgood Hstack Hsub Hnd Hwalk Hedges')
        as Hpost.
      destruct b; [done|].
      destruct Hpost as (? & ? & Hvis & ? & Hall).
      split_and!; try done.
      intros d [-> | Hd]%elem_of_cons; [|by apply Hall].
      apply elem_of_difference. split; [|done].
      by apply Hvis.
Qed.

Lemma has_cycle_correct depth : has_cycle_spec depth.
Proof.
  induction depth as [|depth IH]; [done|].
  intros name path st b st' Hrun Herr Hgood Hname Hstack Hsub Hnd Hwalk
    [svc Hsvc].
  simpl in Hrun. rewrite Hsvc in Hrun.
  set (st1 := {| visited := {[name]} ∪ visited st;
                 rec_stack := {[name]} ∪ rec_stack st;
                 errors := errors st |}) in Hrun.
  assert (name ∉ rec_stack st) as Hname' by set_solver.
  assert (visited st1 ∖ rec_stack st1 = visited st ∖ rec_stack st) as Hblack.
  { simpl. set_solver. }
  pose proof (for_requires_spec depth name path IH (requires (infra svc))
                st1 b st' Hrun Herr) as Hpost.
  rewrite Hblack in Hpost.
  assert (rec_stack st1 = list_to_set (path ++ [name])) as Hstack1.
  { simpl. rewrite list_to_set_app_L, Hstack. set_solver. }
  assert (NoDup (path ++ [name])) as Hnd1.
  { apply NoDup_app. split_and!; [done| |apply NoDup_singleton].
    intros x Hx ->%list_elem_of_singleton. apply Hname'.
    rewrite Hstack. by apply elem_of_list_to_set. }
  assert (∀ d, d ∈ requires (infra svc) ↔ requires_edge svcs name d) as Hreq.
  { intros d. unfold requires_edge. rewrite Hsvc. naive_solver. }
  specialize (Hpost Hgood Hstack1 ltac:(simpl; set_solver) Hnd1 Hwalk
                    ltac:(intros d; apply Hreq)).
  destruct b; [done|].
  destruct Hpost as (Herr' & Hstack' & Hvis' & Hgood' & Hall).
  assert (rec_stack st' = rec_stack st) as Hrs.
  { rewrite Hstack'. simpl. set_solver. }
  assert (name ∈ visited st') as Hin by (apply Hvis'; simpl; set_solver).
  split_and!; try done; [|simpl in Hvis'; set_solver].
  assert (visited st' ∖ rec_stack st'
          = (visited st' ∖ rec_stack st1) ∪ {[name]}) as ->.
  { rewrite Hrs. simpl. apply set_eq. intros x.
    rewrite elem_of_union, !elem_of_difference, elem_of_union,
      elem_of_singleton.
    destruct (decide (x = name)) as [->|]; naive_solver. }
  apply good_add; [done|simpl; set_solver|].
  intros d Hd. by apply Hall, Hreq.
Qed.

(** The loop over the services: either no error is added and every name
    is finished, or the first error comes from the traversal that began
    at [root]: the names before [root] neither lie on a cycle nor lead to
    one, and the error lists the recursion stack from [root] on. *)
Lemma for_services_spec depth names st st' :
  length svcs.*1 < depth →
  for_services svcs depth names st = Some st' →
  (∀ x, x ∈ names → is_Some (services_get x svcs)) →
  errors st = errors0 → rec_stack st = ∅ → good (visited st) →
  (errors st' = errors0 ∧ rec_stack st' = ∅ ∧ good (visited st') ∧
   visited st ⊆ visited st' ∧ ∀ x, x ∈ names → x ∈ visited st')
  ∨ (∃ pre root post stack dep more,
       names = pre ++ root :: post ∧
       (∀ x, x ∈ pre → ¬ leads_to_cycle x) ∧
       errors st' = errors0 ++ cycle_error (root :: stack ++ [dep]) :: more ∧
       NoDup (root :: stack) ∧
       walk (root :: stack ++ [dep]) ∧ dep ∈ root :: stack).
Proof.
  intros Hdepth. revert st.
  induction names as [|name names IH];
    intros st Hrun Hsvc Herr Hstack Hgood; simpl in Hrun.
  { injection Hrun as <-. left. split_and!; try done.
    intros x ?%elem_of_nil. done. }
  assert (∀ x, x ∈ names → is_Some (services_get x svcs)) as Hsvc'
    by (intros ??; apply Hsvc; by right).
  assert (∀ st1, good (visited st1) → name ∈ visited st1 →
            (∃ pre root post stack dep more,
               names = pre ++ root :: post ∧
               (∀ x, x ∈ pre → ¬ leads_to_cycle x) ∧
               errors st'
               = errors0 ++ cycle_error (root :: stack ++ [dep]) :: more ∧
               NoDup (root :: stack) ∧
               walk (root :: stack ++ [dep]) ∧ dep ∈ root :: stack) →
            ∃ pre root post stack dep more,
              name :: names = pre ++ root :: post ∧
              (∀ x, x ∈ pre → ¬ leads_to_cycle x) ∧
              errors st'
              = errors0 ++ cycle_error (root :: stack ++ [dep]) :: more ∧
              NoDup (root :: stack) ∧
              walk (root :: stack ++ [dep]) ∧ dep ∈ root :: stack) as Hlater.
  { intros st1 Hgood1 Hin
      (pre & root & post & stack & dep & more & -> & Hpre & ? & ? & ? & ?).
    exists (name :: pre), root, post, stack, dep, more.
    split_and!; try done.
    intros x [-> | Hx]%elem_of_cons; [|by apply Hpre].
    by eapply good_no_cycle. }
  case_bool_decide as Hname.
  - destruct (has_cycle svcs depth name [] st) as [[b st1]|] eqn:Hcall;
      [|done].
    pose proof (has_cycle_correct depth name [] st b st1 Hcall Herr) as Hpost.
    rewrite Hstack, difference_empty_L in Hpost.
    specialize (Hpost Hgood Hname eq_refl ltac:(set_solver)
                      ltac:(constructor) I ltac:(apply Hsvc; by left)).
    destruct b.
    + right.
      destruct Hpost as (p & dep & Herr1 & Hwalk & Hdep & Hnd & Hpre).
      destruct Hpre as [stack ->]. simpl in *.
      destruct (for_services_total depth names st1 Hdepth)
        as (st'' & Hrun' & _ & more & Hmore).
      rewrite Hrun in Hrun'. injection Hrun' as <-.
      exists [], name, names, stack, dep, more. split_and!; try done.
      * by intros x ?%elem_of_nil.
      * by rewrite Hmore, Herr1, <-app_assoc.
    + destruct Hpost as (Herr1 & Hgood1 & Hstack1 & Hvis1 & Hin).
      rewrite Hstack1, difference_empty_L in Hgood1.
      destruct (IH st1 Hrun Hsvc' Herr1 Hstack1 Hgood1)
        as [(? & ? & ? & Hvis & Hall) | Hfound];
        [left | right; by apply (Hlater st1)].
      split_and!; try done; [set_solver|].
      intros x [-> | ?]%elem_of_cons; [by apply Hvis | by apply Hall].
  - destruct (IH st Hrun Hsvc' Herr Hstack Hgood)
      as [(? & ? & ? & Hvis & Hall) | Hfound];
      [left | right; by apply (Hlater st)].
    split_and!; try done.
    intros x [-> | ?]%elem_of_cons; [by apply Hvis | by apply Hall].
Qed.

(** The service where the traversal that finds the first cycle begins:
    the first service of the document that lies on a cycle or on a way
    to one. *)
Definition traversal_root (root : string) : Prop :=
  ∃ pre post,
    svcs.*1 = pre ++ root :: post ∧
    (∀ x, x ∈ pre → ¬ leads_to_cycle x) ∧
    leads_to_cycle root.

(** With a cycle in the requires-graph, the first error that the check
    appends lists the recursion stack of the traversal that began at the
    first service on a way to a cycle, and the requirement found on it. *)
Lemma cycle_error_reported depth :
  length svcs < depth →
  (∃ s, tc (requires_edge svcs) s s) →
  ∃ root stack dep more,
    _validate_no_circular_dependencies depth svcs errors0
    = Returns (errors0 ++ cycle_error (root :: stack ++ [dep]) :: more) ∧
    traversal_root root ∧
    NoDup (root :: stack) ∧
    walk (root :: stack ++ [dep]) ∧ dep ∈ root :: stack.
Proof.
  intros Hdepth [s Hcyc]. unfold _validate_no_circular_dependencies.
  set (st0 := {| visited := ∅; rec_stack := ∅; errors := errors0 |}).
  assert (length svcs.*1 < depth) as Hdepth' by by rewrite length_fmap.
  destruct (for_services_total depth svcs.*1 st0 Hdepth')
    as (st' & Hrun & _).
  rewrite Hrun.
  destruct (for_services_spec depth svcs.*1 st0 st' Hdepth' Hrun)
    as [(_ & Hstack & Hgood & _ & Hall)
       | (pre & root & post & stack & dep & more & Hsplit & Hpre & -> & ? & ? & ?)];
    try done.
  - intros x. apply services_get_is_Some.
  - exfalso. apply (proj2 Hgood s); [|done]. apply Hall.
    assert (∃ d, requires_edge svcs s d) as (d & svc & Hsvc & _).
    { inversion Hcyc; eauto. }
    by eapply services_get_Some.
  - exists root, stack, dep, more. split_and!; try done.
    exists pre, post. split_and!; try done.
    by eapply walk_leads_to_cycle.
Qed.

End cycle_detection.

Section cycle_claims.

Import TopologyValidator.

(** What claim C3 asks of the listed path. *)
Definition closed_walk (svcs : services) (p : list string) : Prop :=
  walk svcs p ∧ head p = last p.

(** C3 (as amended): in a topology whose requirements all name existing
    services, whose requires-graph has a cycle and which has fewer
    services than the recursion may be deep, the check returns and
    reports a cycle error.  The path of the first one is the recursion
    stack, from the service where the traversal began (the first service
    of the document that lies on a cycle or on a way to one), followed by
    the requirement that is already on the stack: a walk in the
    requires-graph, in traversal order, that passes no name twice before
    its last, and whose tail from the earlier occurrence of its last name
    is a closed walk.  The whole path is a closed walk only when the
    traversal began at that name. *)
Theorem cycle_reported_with_walk (depth : nat) (svcs : services)
    (errors0 : list string) :
  length svcs < depth →
  (∀ a b, requires_edge svcs a b → is_Some (services_get b svcs)) →
  (∃ s, tc (requires_edge svcs) s s) →
  ∃ lead loop dep more,
    _validate_no_circular_dependencies depth svcs errors0
    = Returns (errors0 ++ cycle_error (lead ++ dep :: loop ++ [dep]) :: more) ∧
    (∃ root, head (lead ++ [dep]) = Some root ∧ traversal_root svcs root) ∧
    NoDup (lead ++ dep :: loop) ∧
    walk svcs (lead ++ dep :: loop ++ [dep]) ∧
    closed_walk svcs (dep :: loop ++ [dep]) ∧
    (closed_walk svcs (lead ++ dep :: loop ++ [dep]) ↔ lead = []).
Proof.
  intros Hdepth Hexist Hcyc.
  destruct (cycle_error_reported svcs errors0 Hexist depth Hdepth Hcyc)
    as (root & stack & dep & more & Hrun & Hroot & Hnd & Hwalk
        & (lead & loop & Hsplit)%list_elem_of_split).
  exists lead, loop, dep, more.
  change (root :: stack ++ [dep]) with ((root :: stack) ++ [dep])
    in Hrun, Hwalk.
  rewrite Hsplit in Hnd. rewrite Hsplit, <-app_assoc in Hrun, Hwalk.
  simpl in Hrun, Hwalk.
  assert (closed_walk svcs (dep :: loop ++ [dep])) as Hloop.
  { split; [by apply walk_app_r in Hwalk|].
    simpl. by rewrite last_cons, last_snoc. }
  split_and!; try done.
  - exists root. split; [|done].
    destruct lead as [|x lead]; simplify_eq/=; done.
  - split.
    + intros [_ Hends]. destruct lead as [|x lead]; [done|]. exfalso.
      replace ((x :: lead) ++ dep :: loop ++ [dep])
        with (((x :: lead) ++ dep :: loop) ++ [dep]) in Hends
        by by rewrite <-app_assoc.
      rewrite last_snoc in Hends. injection Hends as ->.
      apply NoDup_cons in Hnd as [Hdep _]. apply Hdep.
      apply elem_of_app. right. by left.
    + by intros ->.
Qed.

(** [a] requires [b], [b] requires [c], [c] requires [b]. *)
Definition example_cycle : services :=
  [ ("a", example_node ["b"]); ("b", example_node ["c"]);
    ("c", example_node ["b"]) ].

Lemma example_cycle_edges a b :
  requires_edge example_cycle a b →
  (a = "a" ∧ b = "b") ∨ (a = "b" ∧ b = "c") ∨ (a = "c" ∧ b = "b").
Proof.
  intros (svc & Hsvc & Hb). simpl in Hsvc.
  repeat case_bool_decide; simplify_eq; simpl in Hb;
    apply list_elem_of_singleton in Hb; auto.
Qed.

Lemma example_cycle_requires_exist a b :
  requires_edge example_cycle a b → is_Some (services_get b example_cycle).
Proof.
  intros Hab.
  destruct (example_cycle_edges a b Hab) as [[-> ->] | [[-> ->] | [-> ->]]];
    by eexists.
Qed.

Lemma example_cycle_has_cycle : ∃ s, tc (requires_edge example_cycle) s s.
Proof.
  exists "b". apply tc_l with "c"; [|apply tc_once].
  - eexists. split; [reflexivity | by left].
  - eexists. split; [reflexivity | by left].
Qed.

Lemma cycle_reported_with_walk_witness :
  ∃ lead loop dep more,
    _validate_no_circular_dependencies 1000 example_cycle []
    = Returns ([] ++ cycle_error (lead ++ dep :: loop ++ [dep]) :: more) ∧
    (∃ root, head (lead ++ [dep]) = Some root ∧
             traversal_root example_cycle root) ∧
    NoDup (lead ++ dep :: loop) ∧
    walk example_cycle (lead ++ dep :: loop ++ [dep]) ∧
    closed_walk example_cycle (dep :: loop ++ [dep]) ∧
    (closed_walk example_cycle (lead ++ dep :: loop ++ [dep]) ↔ lead = []).
Proof.
  apply cycle_reported_with_walk.
  - simpl. lia.
  - exact example_cycle_requires_exist.
  - exact example_cycle_has_cycle.
Defined.

(** C3 fails as stated: the requires-graph of the example has the cycle
    [b -> c -> b]; the only error lists [a -> b -> c -> b], which starts
    at [a], where the traversal started, and ends at [b]. *)
Lemma closed_walk_counterexample :
  (∃ s, tc (requires_edge example_cycle) s s) ∧
  _validate_no_circular_dependencies 1000 example_cycle []
  = Returns [cycle_error ["a"; "b"; "c"; "b"]] ∧
  cycle_error ["a"; "b"; "c"; "b"]
  = "Circular dependency detected: a -> b -> c -> b" ∧
  ¬ closed_walk example_cycle ["a"; "b"; "c"; "b"].
Proof.
  split_and!.
  - exact example_cycle_has_cycle.
  - by vm_compute.
  - by vm_compute.
  - intros [_ Hends]. simpl in Hends. discriminate Hends.
Qed.

(** A chain of three services is one call too deep when two nested calls
    are left: the check raises [RecursionError]. *)
Definition example_chain : services :=
  [ ("a", example_node ["b"]); ("b", example_node ["c"]);
    ("c", example_node []) ].

Lemma example_chain_too_deep :
  _validate_no_circular_dependencies 2 example_chain [] = RecursionError ∧
  _validate_no_circular_dependencies 3 example_chain [] = Returns [].
Proof. split; by vm_compute. Qed.

End cycle_claims.

(** ** The scenarios of the specification *)

Section scenarios.

Import QuadletGenerator TopologyValidator.

(** S1: [ui] requires [db], both enabled. *)
Definition scenario_1 : services :=
  [ ("ui", {| infra := example_infra true [] ["db"];
              config := {| properties := ∅ |} |});
    ("db", {| infra := example_infra true [] [];
              config := {| properties := ∅ |} |}) ].

Example scenario_1_enabled :
  elements (get_enabled_services scenario_1) ≡ₚ ["db"; "ui"].
Proof. vm_compute. apply perm_swap. Qed.

Example scenario_1_order :
  topological_sort scenario_1 ["ui"; "db"] = Return ["db"; "ui"] ∧
  topological_sort scenario_1 ["db"; "ui"] = Return ["db"; "ui"].
Proof. by vm_compute. Qed.

(** S2: [ui] is enabled by its own field [web_search]. *)
Definition scenario_2 (web_search : bool) : services :=
  [ ("ui",
     {| infra := example_infra false
                   ["ui.configuration.web_search == true"] [];
        config := {| properties :=
          {[ "web_search" := example_field (Some (VBool web_search)) ]} |}
     |}) ].

Example scenario_2_enabled :
  "ui" ∈ get_enabled_services (scenario_2 true) ∧
  "ui" ∉ get_enabled_services (scenario_2 false).
Proof. split; vm_compute; set_solver. Qed.

(** S3: two services publish port 8080. *)
Example scenario_3_conflict :
  _validate_service_ports
    [ ("web", example_container "front" (Some 8080%Z));
      ("api", example_container "back" (Some 8080%Z)) ] []
  = ["Port conflict: Port 8080 is published by multiple services: web, api"].
Proof. by vm_compute. Qed.

(** S4: [a] requires [b], [b] requires [c], [c] requires [a]. *)
Example scenario_4_cycle :
  _validate_no_circular_dependencies 1000
    [ ("a", example_node ["b"]); ("b", example_node ["c"]);
      ("c", example_node ["a"]) ] []
  = Returns ["Circular dependency detected: a -> b -> c -> a"].
Proof. by vm_compute. Qed.

(** S6: the default of [svc.port] goes from 80 to 8080. *)
Example scenario_6_diff :
  StateTracker.services_modified
    (StateTracker.diff_changes
       (StateTracker.compare_states "t"
          (example_snapshot
             {[ "port" := example_field_state (VInt 80) false "exposed" ]})
          (example_snapshot
             {[ "port" := example_field_state (VInt 8080) false "exposed" ]})))
  = [("svc",
      {| StateTracker.fields_added := [];
         StateTracker.fields_removed := [];
         StateTracker.fields_changed :=
           [("port", {| StateTracker.value_change := Some (VInt 80, VInt 8080);
                        StateTracker.state_change := None |})] |})].
Proof. by vm_compute. Qed.

End scenarios.

(** * Further properties of the dependency order *)

Section dependency_order_errors.

Import QuadletGenerator.

(** Along the requires-edges of the enabled set, the result of the loop
    lists the requirement at a smaller index. *)
Lemma kahn_order_index svcs S in_degree out a b :
  (∀ s, s ∈ S → s ∈ out) →
  kahn_inv svcs S in_degree [] out →
  tc (restricted_edge svcs S) a b →
  ∃ i j, out !! i = Some b ∧ out !! j = Some a ∧ i < j.
Proof.
  intros Hall (Hnd & _ & _ & _ & Hord) Hab. rewrite app_nil_r in Hnd.
  assert (∀ x y, restricted_edge svcs S x y →
                 ∃ i j, out !! i = Some y ∧ out !! j = Some x ∧ i < j)
    as Hstep.
  { intros x y Hxy. pose proof Hxy as [Hx Hy]%restricted_edge_deps.
    apply Hall, list_elem_of_split in Hx as (pre & post & ->).
    assert (y ∈ pre) as [i Hi]%list_elem_of_lookup_1
      by by apply (Hord pre x post).
    exists i, (length pre). split_and!.
    - by apply lookup_app_l_Some.
    - by apply list_lookup_middle.
    - by eapply lookup_lt_Some. }
  induction Hab as [x y H | x y z H _ IH]; [by apply Hstep|].
  destruct (Hstep x y H) as (i & j & Hi & Hj & Hij).
  destruct IH as (i' & j' & Hi' & Hj' & Hij').
  assert (j' = i) as -> by by eapply NoDup_lookup.
  exists i', j. split_and!; try done. lia.
Qed.

(** X1: With a cycle among the enabled services the loop leaves some of them
    behind and [ValueError] is raised. *)
Theorem topological_sort_cycle svcs S :
  enabled_set svcs S →
  (∃ s, tc (restricted_edge svcs S) s s) →
  topological_sort svcs S = ValueError "Circular dependency detected".
Proof.
  intros Hen [s Hcyc].
  destruct (topological_sort_run svcs S Hen)
    as (graph & in_degree & out & Hbuild & Hloop & [i_f Hfinal] & _).
  unfold topological_sort. rewrite Hbuild, Hloop.
  rewrite bool_decide_eq_true_2; [done|]. intros Hlen.
  destruct Hen as [HS _]. pose proof Hfinal as (Hnd & Hsub & _).
  rewrite app_nil_r in Hnd.
  assert (out ≡ₚ S) as Hperm.
  { apply submseteq_length_Permutation; [|lia].
    apply NoDup_submseteq; [done|]. intros x Hx. apply Hsub.
    by rewrite app_nil_r. }
  destruct (kahn_order_index svcs S i_f out s s) as (i & j & Hi & Hj & Hij);
    try done.
  { intros x Hx. by rewrite Hperm. }
  assert (i = j) by by eapply NoDup_lookup. lia.
Qed.

Lemma topological_sort_cycle_witness :
  topological_sort example_cycle ["a"; "b"; "c"]
  = ValueError "Circular dependency detected".
Proof.
  apply topological_sort_cycle.
  - split.
    + repeat (apply NoDup_cons; split; [set_solver|]). constructor.
    + intros s Hs.
      repeat (apply elem_of_cons in Hs as [-> | Hs]; [by eexists|]).
      by apply elem_of_nil in Hs.
  - exists "b". apply tc_l with "c"; [|apply tc_once].
    + split_and!; [set_solver..|]. eexists. split; [reflexivity | by left].
    + split_and!; [set_solver..|]. eexists. split; [reflexivity | by left].
Defined.

Lemma build_graph_KeyError svcs S pre s post st :
  (∀ x, x ∈ pre → is_Some (services_get x svcs)) →
  services_get s svcs = None →
  build_graph svcs S (pre ++ s :: post) st = KeyError s.
Proof.
  revert st. induction pre as [|x pre IH]; intros st Hpre Hs; simpl.
  - by rewrite Hs.
  - destruct (Hpre x) as [svc ->]; [by left|].
    apply IH; [|done]. intros ??. apply Hpre. by right.
Qed.

(** X2: A name in the set that is not a service of the topology raises
    [KeyError], for the first such name of the iteration. *)
Theorem topological_sort_KeyError svcs pre s post :
  (∀ x, x ∈ pre → is_Some (services_get x svcs)) →
  services_get s svcs = None →
  topological_sort svcs (pre ++ s :: post) = KeyError s.
Proof.
  intros Hpre Hs. unfold topological_sort.
  by rewrite build_graph_KeyError.
Qed.

Lemma topological_sort_KeyError_witness :
  topological_sort example_order (["a"] ++ "x" :: ["y"; "b"]) = KeyError "x".
Proof.
  apply topological_sort_KeyError; [|reflexivity].
  intros x ->%list_elem_of_singleton. by eexists.
Defined.

(** X3: The names that [get_enabled_services] returns are names of services:
    whatever the order in which the set is iterated, [topological_sort]
    does not raise [KeyError] on it, and it raises [ValueError] exactly
    when it does not return a permutation of the set. *)
Theorem startup_order_total svcs order :
  NoDup order →
  (∀ s, s ∈ order ↔ s ∈ get_enabled_services svcs) →
  enabled_set svcs order ∧
  ((∃ out, topological_sort svcs order = Return out ∧ out ≡ₚ order) ∨
   topological_sort svcs order = ValueError "Circular dependency detected").
Proof.
  intros Hnd Horder.
  assert (enabled_set svcs order) as Hen.
  { split; [done|]. intros s Hs%Horder.
    apply elem_of_get_enabled_services in Hs as (svc & Hin & _).
    apply services_get_is_Some, list_elem_of_fmap. by exists (s, svc). }
  split; [done|].
  destruct (topological_sort_run svcs order Hen)
    as (graph & in_degree & out & Hbuild & Hloop & [i_f Hfinal] & _).
  unfold topological_sort. rewrite Hbuild, Hloop.
  case_bool_decide as Hlen; [by right|]. left.
  exists out. split; [done|].
  destruct Hfinal as (Hout & Hsub & _). rewrite app_nil_r in Hout.
  apply submseteq_length_Permutation; [|lia].
  apply NoDup_submseteq; [done|]. intros x Hx. apply Hsub.
  by rewrite app_nil_r.
Qed.

Lemma startup_order_total_witness :
  enabled_set example_services ["db"; "ui"] ∧
  ((∃ out, topological_sort example_services ["db"; "ui"] = Return out ∧
           out ≡ₚ ["db"; "ui"]) ∨
   topological_sort example_services ["db"; "ui"]
   = ValueError "Circular dependency detected").
Proof.
  apply startup_order_total.
  - repeat (apply NoDup_cons; split; [set_solver|]). constructor.
  - intros s. rewrite elem_of_get_enabled_services. split.
    + intros Hs. repeat apply elem_of_cons in Hs as [-> | Hs].
      * eexists. split; [right; left|]. by left.
      * eexists. split; [left|]. right. eexists. split; [left|].
        reflexivity.
      * by apply elem_of_nil in Hs.
    + intros (svc & Hin & _). unfold example_services in Hin.
      repeat apply elem_of_cons in Hin as [[= -> _] | Hin];
        [set_solver..|].
      by apply elem_of_nil in Hin.
Defined.

End dependency_order_errors.

(** * Further properties of the condition evaluator *)

Section evaluator_laws.

Import QuadletGenerator.

(** X4: On an existing field, [!=] is the negation of [==]. *)
Theorem not_equal_negates_equal svcs svc f ws1 ws2 lit s fd :
  word svc → word f → blanks ws1 → blanks ws2 → one_line lit →
  services_get svc svcs = Some s →
  properties (config s) !! f = Some fd →
  (_evaluate_condition svcs (condition_text svc f ws1 "!=" ws2 lit)).1
  = negb (_evaluate_condition svcs
            (condition_text svc f ws1 "==" ws2 lit)).1.
Proof.
  intros Hsvc Hf Hws1 Hws2 Hlit Hs Hfd.
  unfold _evaluate_condition, condition_text.
  rewrite !re_match_head by first [done | by left | by right].
  destruct (literal_tail_complete ws2 lit "" Hws2 Hlit) as [g Hg];
    [by left|].
  rewrite append_empty_r in Hg. rewrite Hg. simpl. by rewrite Hs, Hfd.
Qed.

Lemma not_equal_negates_equal_witness :
  (_evaluate_condition example_services
     (condition_text "ui" "port" " " "!=" " " "1")).1
  = negb (_evaluate_condition example_services
            (condition_text "ui" "port" " " "==" " " "1")).1.
Proof.
  eapply (not_equal_negates_equal example_services "ui" "port");
    try (split; [discriminate | reflexivity]); reflexivity.
Defined.

(** X5: Blanks around the operator do not matter. *)
Theorem blanks_around_operator svcs svc f ws1 op ws2 lit :
  word svc → word f → blanks ws1 → is_operator op → blanks ws2 →
  one_line lit → stops is_space lit = true →
  _evaluate_condition svcs (condition_text svc f ws1 op ws2 lit)
  = _evaluate_condition svcs (condition_text svc f "" op "" lit).
Proof.
  intros. unfold _evaluate_condition. by rewrite !re_match_exact.
Qed.

Lemma blanks_around_operator_witness :
  _evaluate_condition example_services
    (condition_text "ui" "web_search" "  " "==" (String "009" " ") "true")
  = _evaluate_condition example_services
      (condition_text "ui" "web_search" "" "==" "" "true").
Proof.
  apply blanks_around_operator;
    try (split; [discriminate | reflexivity]); try reflexivity.
  by left.
Defined.

(** *** Quoted literals *)

Definition quoted (body : string) : string := "'" +:+ body +:+ "'".

Lemma rstrip_ends_nonblank a c :
  is_space c = false → rstrip (a +:+ String c "") = a +:+ String c "".
Proof.
  intros Hc. induction a as [|x a IH].
  - rewrite append_nil. simpl. by rewrite Hc.
  - rewrite append_cons. simpl. rewrite IH.
    destruct a; rewrite ?append_nil, ?append_cons; simpl;
      by rewrite andb_false_r.
Qed.

Lemma endswith_quote_snoc a : endswith_quote (a +:+ "'") = true.
Proof.
  induction a as [|x a IH]; [done|].
  rewrite append_cons. simpl. rewrite IH.
  destruct a; rewrite ?append_nil, ?append_cons; done.
Qed.

Lemma drop_last_snoc a c : drop_last (a +:+ String c "") = a.
Proof.
  induction a as [|x a IH]; [done|].
  rewrite append_cons. simpl. rewrite IH.
  destruct a; rewrite ?append_nil, ?append_cons; done.
Qed.

Lemma parse_expected_quoted body : parse_expected (quoted body) = VStr body.
Proof.
  unfold parse_expected, quoted.
  assert (strip ("'" +:+ body +:+ "'") = "'" +:+ body +:+ "'") as ->.
  { unfold strip.
    assert (lstrip ("'" +:+ body +:+ "'") = "'" +:+ body +:+ "'") as ->
      by reflexivity.
    rewrite <-append_assoc. by apply rstrip_ends_nonblank. }
  rewrite !bool_decide_eq_false_2 by done.
  assert (startswith_quote ("'" +:+ body +:+ "'") = true) as ->
    by reflexivity.
  assert (endswith_quote ("'" +:+ body +:+ "'") = true) as ->.
  { rewrite <-append_assoc. apply endswith_quote_snoc. }
  assert (slice_1_m1 ("'" +:+ body +:+ "'") = drop_last (body +:+ "'"))
    as -> by reflexivity.
  simpl. by rewrite drop_last_snoc.
Qed.

Lemma eqb_VStr v t : Py.eqb v (VStr t) = true ↔ v = VStr t.
Proof.
  destruct v; simpl; try (split; [done | by intros [=]]).
  rewrite bool_decide_eq_true. split; [by intros -> | by intros [= ->]].
Qed.

(** X6: [== 'text'] holds exactly when the default is the string [text]:
    no boolean and no number equals a quoted literal. *)
Theorem quoted_literal_exact svcs svc f ws1 ws2 body s fd :
  word svc → word f → blanks ws1 → blanks ws2 →
  all_chars (λ c, negb (is_newline c)) body = true →
  services_get svc svcs = Some s →
  properties (config s) !! f = Some fd →
  (_evaluate_condition svcs
     (condition_text svc f ws1 "==" ws2 (quoted body))).1 = true
  ↔ fd !! "default" = Some (VStr body).
Proof.
  intros Hsvc Hf Hws1 Hws2 Hbody Hs Hfd.
  assert (one_line (quoted body)) as Hline.
  { split; [done|]. unfold quoted. rewrite append_cons. simpl.
    clear -Hbody. induction body as [|x body IH]; [done|].
    rewrite append_cons. simpl in *.
    apply andb_true_iff in Hbody as [-> Hbody]. by apply IH. }
  rewrite (evaluate_shaped svcs svc f ws1 "==" ws2 (quoted body) s fd)
    by (done || by left).
  simpl. rewrite parse_expected_quoted, eqb_VStr. unfold Py.get.
  destruct (fd !! "default") as [v|]; simpl; [|done].
  split; [by intros -> | by intros [= ->]].
Qed.

Lemma quoted_literal_exact_witness :
  (_evaluate_condition example_services
     (condition_text "ui" "tag" " " "==" " " (quoted "1"))).1 = true
  ↔ example_field (Some (VStr "1")) !! "default" = Some (VStr "1").
Proof.
  eapply (quoted_literal_exact example_services "ui" "tag" " " " " "1");
    try (split; [discriminate | reflexivity]); reflexivity.
Defined.

End evaluator_laws.

(** * More of [TopologyValidator]

    The checks below append to [self.errors]; as before each is given as
    the errors after the call in terms of the errors before it.  What a
    check appends to [self.warnings] is not part of these definitions. *)

Module ValidatorPasses.

Import TopologyValidator.

(** [_validate_service_dependencies] *)
Definition _validate_service_dependencies (svcs : services)
    (service_name : string) (svc : service) (errors : list string)
  : list string :=
  foldl (λ errors dep,
           match services_get dep svcs with
           | None =>
               errors ++ [service_name +:+ ": Requires non-existent service '"
                          +:+ dep +:+ "'"]
           | Some _ => errors
           end)
        errors (requires (infra svc)).

(** [validate_service_level]: [_validate_service_healthcheck] appends to
    the warnings only. *)
Definition validate_service_level (svcs : services) (errors : list string)
  : list string :=
  let errors :=
    foldl (λ errors '(service_name, svc),
             _validate_service_dependencies svcs service_name svc errors)
          errors svcs in
  let errors := _validate_service_ports svcs errors in
  _validate_container_names svcs errors.

(** [_validate_expression]; the pattern is the one of the evaluator. *)
Definition _validate_expression (svcs : services) (service_name : string)
    (expression : string) (errors : list string) : list string :=
  match QuadletGenerator.re_match expression with
  | None =>
      errors ++ [service_name +:+ ": Invalid expression format '"
                 +:+ expression +:+ "'"]
  | Some (ref_service, ref_field, operator, value) =>
      match services_get ref_service svcs with
      | None =>
          errors ++ [service_name
                     +:+ ": Expression references non-existent service '"
                     +:+ ref_service +:+ "'"]
      | Some svc =>
          match properties (config svc) !! ref_field with
          | None =>
              errors ++ [service_name
                         +:+ ": Expression references non-existent field '"
                         +:+ ref_service +:+ "." +:+ ref_field +:+ "'"]
          | Some _ => errors
          end
      end
  end.

(** [_validate_enablement_expressions] *)
Definition _validate_enablement_expressions (svcs : services)
    (errors : list string) : list string :=
  foldl (λ errors '(service_name, svc),
           foldl (λ errors expression,
                    _validate_expression svcs service_name expression errors)
                 errors (enabled_by (infra svc)))
        errors svcs.

(** [reference.split('.')]: the pieces between the dots; the empty
    string gives one empty piece. *)
Fixpoint split_dot (s : string) : list string :=
  match s with
  | EmptyString => [EmptyString]
  | String c r =>
      if Ascii.eqb c "." then EmptyString :: split_dot r
      else match split_dot r with
           | piece :: pieces => String c piece :: pieces
           | [] => [String c EmptyString]
           end
  end.

(** The loop "Navigate secrets object": whether every segment is a key
    of the object reached so far. *)
Fixpoint navigate (obj : value) (segments : list string) : bool :=
  match segments with
  | [] => true
  | seg :: segments =>
      match obj with
      | VDict d =>
          match d !! seg with
          | Some obj => navigate obj segments
          | None => false
          end
      | _ => false
      end
  end.

(** [_validate_secret_reference]; [secrets] is
    [self.topology.get('secrets', {})]. *)
Definition _validate_secret_reference (service_name field_name : string)
    (reference : string) (secrets : gmap string value)
    (errors : list string) : list string :=
  let segments := split_dot reference in
  if bool_decide (head segments ≠ Some "secrets") then
    errors ++ [service_name +:+ "." +:+ field_name
               +:+ ": Secret reference must start with 'secrets.'"]
  else if navigate (VDict secrets) (tail segments) then errors
  else errors ++ [service_name +:+ "." +:+ field_name +:+ ": Secret '"
                  +:+ reference +:+ "' does not exist"].

End ValidatorPasses.

Section service_pass.

Import TopologyValidator ValidatorPasses.

(** A loop that only appends. *)
Lemma foldl_append {A} (f : A → list string) (l : list A)
    (errors : list string) :
  foldl (λ errors x, errors ++ f x) errors l = errors ++ mjoin (f <$> l).
Proof.
  revert errors. induction l as [|x l IH]; intros errors; csimpl.
  - by rewrite app_nil_r.
  - by rewrite IH, app_assoc.
Qed.

Lemma app_same_nil {A} (l k : list A) : l ++ k = l ↔ k = [].
Proof.
  split; [|intros ->; by rewrite app_nil_r].
  intros H. apply (app_inv_head l). by rewrite app_nil_r.
Qed.

Lemma mjoin_nil {A} (ls : list (list A)) :
  mjoin ls = [] ↔ ∀ l, l ∈ ls → l = [].
Proof.
  induction ls as [|l ls IH]; csimpl.
  - split; [|done]. by intros _ l ?%elem_of_nil.
  - split.
    + intros [-> Hls]%app_eq_nil k [-> | Hk]%elem_of_cons; [done|].
      by apply IH.
    + intros Hall. rewrite (Hall l) by left. simpl. apply IH.
      intros k ?. apply Hall. by right.
Qed.

Lemma filter_nil_iff {A} (P : A → Prop) `{∀ x, Decision (P x)} (l : list A) :
  filter P l = [] ↔ ∀ x, x ∈ l → ¬ P x.
Proof.
  induction l as [|x l IH]; [by split; [intros _ ? ?%elem_of_nil|]|].
  rewrite filter_cons. case_decide as HP.
  - split; [done|]. intros Hall. destruct (Hall x); [by left | done].
  - rewrite IH. split.
    + intros Hall y [-> | ?]%elem_of_cons; auto.
    + intros Hall y ?. apply Hall. by right.
Qed.

Lemma fmap_nil_iff {A B} (f : A → B) (l : list A) : f <$> l = [] ↔ l = [].
Proof. split; [apply fmap_nil_inv | by intros ->]. Qed.

Section tables.

Context {K : Type} `{EqDecision K} (key_of : service → option K).

Lemma names_of_in k (table : list (K * list string)) :
  k ∈ table.*1 → (k, names_of k table) ∈ table.
Proof.
  induction table as [|[k' ns] table IH]; csimpl.
  - by intros ?%elem_of_nil.
  - case_bool_decide as Hk; [subst; intros _; by left|].
    intros [?|?]%elem_of_cons; [congruence|]. right. by apply IH.
Qed.

(** No entry of the table has two names exactly when no key has two
    carriers. *)
Lemma no_conflict_iff svcs :
  filter (λ e, 1 < length e.2) (group key_of svcs) = []
  ↔ ∀ k, length (carriers key_of k svcs) ≤ 1.
Proof.
  destruct (group_spec key_of svcs) as (Hnd & Hnames & Hdom).
  rewrite filter_nil_iff. split.
  - intros Hall k.
    destruct (decide (carriers key_of k svcs = [])) as [->|Hne];
      [simpl; lia|].
    apply Hdom, names_of_in in Hne. apply Hall in Hne. simpl in Hne.
    rewrite Hnames in Hne. lia.
  - intros Hall [k ns] Hin. simpl.
    rewrite <-(names_of_elem k ns (group key_of svcs)), Hnames by done.
    specialize (Hall k). lia.
Qed.

End tables.

Lemma ports_silent svcs :
  (λ e, port_conflict e.1 e.2)
    <$> filter (λ e, 1 < length e.2) (port_map svcs) = []
  ↔ ∀ port, length (port_carriers svcs port) ≤ 1.
Proof.
  rewrite fmap_nil_iff, port_map_group.
  apply (no_conflict_iff (λ svc, published_port (infra svc))).
Qed.

Lemma names_silent svcs :
  (λ e, name_conflict e.1 e.2)
    <$> filter (λ e, 1 < length e.2) (name_map svcs) = []
  ↔ ∀ cname, cname ≠ "" → length (name_carriers svcs cname) ≤ 1.
Proof.
  rewrite fmap_nil_iff, name_map_group, no_conflict_iff. split.
  - intros Hall cname Hne. rewrite <-truthy_name_carriers_nonempty by done.
    apply Hall.
  - intros Hall cname. destruct (decide (cname = "")) as [->|Hne].
    + rewrite truthy_name_carriers_empty. simpl. lia.
    + rewrite truthy_name_carriers_nonempty by done. by apply Hall.
Qed.

(** X7: The uniqueness checks leave the errors as they are exactly when no
    port, and no non-empty container name, is carried by two services.
    Services that share an empty container name are not reported. *)
Theorem uniqueness_checks_silent (svcs : services) (errors : list string) :
  (_validate_service_ports svcs errors = errors
   ↔ ∀ port, length (port_carriers svcs port) ≤ 1)
  ∧ (_validate_container_names svcs errors = errors
     ↔ ∀ cname, cname ≠ "" → length (name_carriers svcs cname) ≤ 1).
Proof.
  split.
  - unfold _validate_service_ports.
    by rewrite (report_fold port_conflict), app_same_nil, ports_silent.
  - unfold _validate_container_names.
    by rewrite (report_fold name_conflict), app_same_nil, names_silent.
Qed.

Definition missing_dependency (n dep : string) : string :=
  n +:+ ": Requires non-existent service '" +:+ dep +:+ "'".

Lemma validate_service_dependencies_append svcs n svc errors :
  _validate_service_dependencies svcs n svc errors
  = errors
    ++ (missing_dependency n
          <$> filter (λ dep, services_get dep svcs = None)
                     (requires (infra svc))).
Proof.
  unfold _validate_service_dependencies.
  generalize (requires (infra svc)) as deps. intros deps. revert errors.
  induction deps as [|dep deps IH]; intros errors; simpl.
  - by rewrite app_nil_r.
  - rewrite IH, filter_cons.
    destruct (services_get dep svcs); [by rewrite decide_False|].
    rewrite decide_True by done. csimpl. by rewrite <-app_assoc.
Qed.

Lemma missing_dependencies_nil svcs (deps : list string) :
  filter (λ dep, services_get dep svcs = None) deps = []
  ↔ ∀ dep, dep ∈ deps → is_Some (services_get dep svcs).
Proof.
  rewrite filter_nil_iff. split; intros Hall dep Hdep.
  - destruct (services_get dep svcs) eqn:E; [by eexists|].
    by destruct (Hall dep Hdep).
  - destruct (Hall dep Hdep) as [? E]. congruence.
Qed.

(** X8: [_validate_service_dependencies] appends one error per entry of
    [requires] that names no service, in the order of the entries, and
    nothing else. *)
Theorem one_error_per_missing_dependency svcs n svc errors :
  _validate_service_dependencies svcs n svc errors
  = errors
    ++ (missing_dependency n
          <$> filter (λ dep, services_get dep svcs = None)
                     (requires (infra svc)))
  ∧ (_validate_service_dependencies svcs n svc errors = errors
     ↔ ∀ dep, dep ∈ requires (infra svc) → is_Some (services_get dep svcs)).
Proof.
  split; [apply validate_service_dependencies_append|].
  by rewrite validate_service_dependencies_append, app_same_nil,
    fmap_nil_iff, missing_dependencies_nil.
Qed.

Lemma service_loop_append svcs (l : services) errors :
  foldl (λ errors '(service_name, svc),
           _validate_service_dependencies svcs service_name svc errors)
        errors l
  = errors
    ++ mjoin ((λ e, missing_dependency e.1
                      <$> filter (λ dep, services_get dep svcs = None)
                                 (requires (infra e.2))) <$> l).
Proof.
  rewrite <-foldl_append. revert errors.
  induction l as [|[n svc] l IH]; intros errors; simpl; [done|].
  by rewrite IH, validate_service_dependencies_append.
Qed.

(** X9: The service pass reports no error exactly when every requirement
    names a service, no port is published twice and no non-empty
    container name is used twice. *)
Theorem service_pass_silent (svcs : services) (errors : list string) :
  validate_service_level svcs errors = errors
  ↔ (∀ n svc dep, (n, svc) ∈ svcs → dep ∈ requires (infra svc) →
                  is_Some (services_get dep svcs))
    ∧ (∀ port, length (port_carriers svcs port) ≤ 1)
    ∧ (∀ cname, cname ≠ "" → length (name_carriers svcs cname) ≤ 1).
Proof.
  unfold validate_service_level, _validate_container_names,
    _validate_service_ports.
  rewrite (report_fold name_conflict), (report_fold port_conflict).
  rewrite service_loop_append, <-!app_assoc, app_same_nil.
  split.
  - intros [Hdeps [Hp Hn]%app_eq_nil]%app_eq_nil.
    pose proof (proj1 (ports_silent svcs) Hp).
    pose proof (proj1 (names_silent svcs) Hn).
    split_and!; try done.
    intros n svc dep Hin Hdep.
    eapply missing_dependencies_nil; [|done].
    eapply fmap_nil_inv, mjoin_nil; [done|].
    apply list_elem_of_fmap. by exists (n, svc).
  - intros (Hdeps & Hp & Hn).
    pose proof (proj2 (ports_silent svcs) Hp) as ->.
    pose proof (proj2 (names_silent svcs) Hn) as ->.
    rewrite !app_nil_r. apply mjoin_nil.
    intros l ([n svc] & -> & Hin)%list_elem_of_fmap. simpl.
    apply fmap_nil_iff, missing_dependencies_nil. intros dep.
    by apply Hdeps with n.
Qed.

End service_pass.

Section cycle_check.

Import TopologyValidator ValidatorPasses.

Lemma acyclic_no_cycle_error depth svcs errors0 :
  length svcs < depth →
  (∀ a b, requires_edge svcs a b → is_Some (services_get b svcs)) →
  (∀ s, ¬ tc (requires_edge svcs) s s) →
  _validate_no_circular_dependencies depth svcs errors0 = Returns errors0.
Proof.
  intros Hdepth Hexist Hacyc. unfold _validate_no_circular_dependencies.
  set (st0 := {| visited := ∅; rec_stack := ∅; errors := errors0 |}).
  assert (length svcs.*1 < depth) as Hdepth' by by rewrite length_fmap.
  destruct (for_services_total svcs depth svcs.*1 st0 Hdepth')
    as (st' & Hrun & _).
  rewrite Hrun.
  destruct (for_services_spec svcs errors0 Hexist depth
              svcs.*1 st0 st' Hdepth' Hrun)
    as [(-> & _)
       | (pre & root & post & stack & dep & more & _ & _ & _ & _ & Hwalk
          & Hdep)];
    try done.
  - intros x. apply services_get_is_Some.
  - exfalso.
    destruct (walk_leads_to_cycle svcs root stack dep Hwalk Hdep)
      as (s & _ & Hcyc).
    by apply (Hacyc s).
Qed.

Lemma cycle_not_silent depth svcs errors0 :
  length svcs < depth →
  (∀ a b, requires_edge svcs a b → is_Some (services_get b svcs)) →
  _validate_no_circular_dependencies depth svcs errors0 = Returns errors0 →
  ∀ s, ¬ tc (requires_edge svcs) s s.
Proof.
  intros Hdepth Hexist Hrun s Hcyc.
  destruct (cycle_error_reported svcs errors0 Hexist depth Hdepth
              (ex_intro _ s Hcyc))
    as (root & stack & dep & more & Hrun' & _).
  rewrite Hrun in Hrun'. injection Hrun' as Heq.
  symmetry in Heq. by apply app_same_nil in Heq.
Qed.

(** X10: In a topology whose requirements all name services and which has
    fewer services than the recursion may be deep, the cycle check
    returns, and it appends no error exactly when the requires-graph has
    no cycle. *)
Theorem cycle_check_exact depth svcs errors0 :
  length svcs < depth →
  (∀ a b, requires_edge svcs a b → is_Some (services_get b svcs)) →
  (∃ more,
     _validate_no_circular_dependencies depth svcs errors0
     = Returns (errors0 ++ more))
  ∧ (_validate_no_circular_dependencies depth svcs errors0 = Returns errors0
     ↔ ∀ s, ¬ tc (requires_edge svcs) s s).
Proof.
  intros Hdepth Hexist. split.
  - by apply _validate_no_circular_dependencies_returns.
  - split.
    + by apply cycle_not_silent.
    + by apply acyclic_no_cycle_error.
Qed.

Lemma example_order_requires_exist a b :
  requires_edge example_order a b → is_Some (services_get b example_order).
Proof.
  intros (svc & Hsvc & Hb). simpl in Hsvc.
  repeat case_bool_decide; simplify_eq; simpl in Hb;
    try by apply elem_of_nil in Hb.
  apply list_elem_of_singleton in Hb as ->. by eexists.
Qed.

Lemma cycle_check_exact_witness :
  (∃ more,
     _validate_no_circular_dependencies 1000 example_order []
     = Returns ([] ++ more))
  ∧ (_validate_no_circular_dependencies 1000 example_order [] = Returns []
     ↔ ∀ s, ¬ tc (requires_edge example_order) s s).
Proof.
  apply cycle_check_exact.
  - simpl. lia.
  - exact example_order_requires_exist.
Defined.

(** X11: The service pass and the cycle check together: when the service pass
    reports no error, and the topology has fewer services than the
    recursion may be deep, the cycle check appends an error exactly when
    the requires-graph has a cycle. *)
Theorem service_pass_then_cycle_check depth svcs errors0 :
  length svcs < depth →
  validate_service_level svcs [] = [] →
  _validate_no_circular_dependencies depth svcs errors0 = Returns errors0
  ↔ ∀ s, ¬ tc (requires_edge svcs) s s.
Proof.
  intros Hdepth Hpass.
  assert (∀ a b, requires_edge svcs a b → is_Some (services_get b svcs))
    as Hexist.
  { unfold validate_service_level, _validate_container_names,
      _validate_service_ports in Hpass.
    rewrite (report_fold name_conflict), (report_fold port_conflict),
      service_loop_append in Hpass.
    simpl in Hpass. apply app_eq_nil in Hpass as [Hpass _].
    apply app_eq_nil in Hpass as [Hdeps _].
    intros a b (svc & Hsvc & Hb).
    eapply missing_dependencies_nil; [|exact Hb].
    eapply fmap_nil_inv, mjoin_nil; [exact Hdeps|].
    apply list_elem_of_fmap. exists (a, svc). split; [done|].
    clear -Hsvc. induction svcs as [|[n s] l IH]; simpl in *; [done|].
    case_bool_decide; simplify_eq; [by left | right; by apply IH]. }
  split.
  - by apply cycle_not_silent.
  - by apply acyclic_no_cycle_error.
Qed.

Lemma service_pass_then_cycle_check_witness :
  _validate_no_circular_dependencies 1000 example_order [] = Returns []
  ↔ ∀ s, ¬ tc (requires_edge example_order) s s.
Proof.
  apply service_pass_then_cycle_check.
  - simpl. lia.
  - reflexivity.
Defined.

End cycle_check.

Section expression_check.

Import QuadletGenerator ValidatorPasses.

Lemma validate_expression_append svcs n e errors :
  _validate_expression svcs n e errors
  = errors ++ _validate_expression svcs n e [].
Proof.
  unfold _validate_expression.
  repeat case_match; by rewrite ?app_nil_r.
Qed.

(** What the check and the evaluator do on one expression: either the
    check appends nothing and the evaluator prints nothing, or the check
    appends one error and the evaluator yields false. *)
Lemma validate_expression_cases svcs n e :
  (_validate_expression svcs n e [] = [] ∧
   well_shaped e ∧ (_evaluate_condition svcs e).2 = [])
  ∨ ((∃ msg, _validate_expression svcs n e [] = [msg]) ∧
     (_evaluate_condition svcs e).1 = false).
Proof.
  unfold _validate_expression, _evaluate_condition.
  destruct (re_match e) as [[[[svc f] op] lit]|] eqn:Hm;
    [|right; split; [by eexists | done]].
  assert (well_shaped e) as Hshape.
  { apply re_match_sound in Hm as (ws1 & ws2 & nl & ?).
    by exists svc, f, ws1, op, ws2, lit, nl. }
  destruct (services_get svc svcs) as [s|];
    [|right; split; [by eexists | done]].
  destruct (properties (config s) !! f) as [fd|];
    [|right; split; [by eexists | done]].
  left. split_and!; try done. by repeat case_bool_decide.
Qed.



Lemma enablement_expressions_append svcs (l : services) errors :
  foldl (λ errors '(service_name, svc),
           foldl (λ errors expression,
                    _validate_expression svcs service_name expression errors)
                 errors (enabled_by (infra svc)))
        errors l
  = errors
    ++ mjoin ((λ e, mjoin ((λ c, _validate_expression svcs e.1 c [])
                             <$> enabled_by (infra e.2))) <$> l).
Proof.
  rewrite <-foldl_append. revert errors.
  induction l as [|[n svc] l IH]; intros errors; simpl; [done|].
  rewrite IH. f_equal. rewrite <-foldl_append.
  generalize (enabled_by (infra svc)) as cs. intros cs. revert errors.
  induction cs as [|c cs IHc]; intros errors; simpl; [done|].
  by rewrite IHc, validate_expression_append.
Qed.

(** X13: When [_validate_enablement_expressions] reports no error, every
    condition of every service is of the evaluator's shape and is
    evaluated without a warning. *)
Theorem validated_expressions_evaluate_quietly svcs errors :
  _validate_enablement_expressions svcs errors = errors →
  ∀ n svc c,
    (n, svc) ∈ svcs → c ∈ enabled_by (infra svc) →
    well_shaped c ∧ (_evaluate_condition svcs c).2 = [].
Proof.
  unfold _validate_enablement_expressions.
  rewrite enablement_expressions_append, app_same_nil, mjoin_nil.
  intros Hall n svc c Hin Hc.
  assert (_validate_expression svcs n c [] = []) as Hnil.
  { eapply mjoin_nil.
    - apply Hall, list_elem_of_fmap. by exists (n, svc).
    - apply list_elem_of_fmap. by exists c. }
  destruct (validate_expression_cases svcs n c)
    as [(_ & ? & ?) | ([msg Hmsg] & _)]; [done | congruence].
Qed.

Lemma validated_expressions_evaluate_quietly_witness :
  well_shaped "ui.configuration.token != 'x'" ∧
  (_evaluate_condition example_services "ui.configuration.token != 'x'").2
  = [].
Proof.
  apply (validated_expressions_evaluate_quietly example_services []
           eq_refl "ui" _ _ (list_elem_of_here _ _)).
  apply list_elem_of_here.
Defined.

End expression_check.

Section secret_references.

Import ValidatorPasses.

Definition no_dot (piece : string) : Prop :=
  all_chars (λ c, negb (Ascii.eqb c ".")) piece = true.

Lemma split_dot_nonempty s : split_dot s ≠ [].
Proof. destruct s as [|c r]; simpl; [done|]. by repeat case_match. Qed.

Lemma join_head c x (l : list string) sep :
  join sep (String c x :: l) = String c (join sep (x :: l)).
Proof. by destruct l. Qed.

(** Joining the pieces with dots gives the text back. *)
Lemma join_split_dot s : join "." (split_dot s) = s.
Proof.
  induction s as [|c r IH]; [done|]. simpl.
  destruct (Ascii.eqb c ".") eqn:Hc.
  - apply Ascii.eqb_eq in Hc as ->.
    destruct (split_dot r) as [|piece pieces] eqn:E;
      [by apply split_dot_nonempty in E|].
    change (join "." ("" :: piece :: pieces))
      with ("." +:+ join "." (piece :: pieces)).
    by rewrite IH.
  - destruct (split_dot r) as [|piece pieces] eqn:E;
      [by apply split_dot_nonempty in E|].
    by rewrite join_head, IH.
Qed.

Lemma split_dot_no_dot s piece : piece ∈ split_dot s → no_dot piece.
Proof.
  revert piece. induction s as [|c r IH]; intros piece; simpl.
  - by intros ->%list_elem_of_singleton.
  - destruct (Ascii.eqb c ".") eqn:Hc.
    + intros [-> | ?]%elem_of_cons; [done | by apply IH].
    + destruct (split_dot r) as [|p ps] eqn:E;
        [by apply split_dot_nonempty in E|].
      intros [-> | ?]%elem_of_cons.
      * unfold no_dot. simpl. rewrite Hc. simpl. apply IH. by left.
      * apply IH. by right.
Qed.

Lemma split_dot_piece x r :
  no_dot x → split_dot (x +:+ "." +:+ r) = x :: split_dot r.
Proof.
  unfold no_dot. induction x as [|c x IH]; intros Hx; [done|].
  rewrite append_cons. simpl in *.
  apply andb_true_iff in Hx as [Hc%negb_true_iff Hx].
  by rewrite Hc, IH.
Qed.

Lemma split_dot_last x : no_dot x → split_dot x = [x].
Proof.
  unfold no_dot. induction x as [|c x IH]; intros Hx; [done|].
  simpl in *. apply andb_true_iff in Hx as [Hc%negb_true_iff Hx].
  by rewrite Hc, IH.
Qed.

Lemma split_dot_join x (l : list string) :
  no_dot x → (∀ piece, piece ∈ l → no_dot piece) →
  split_dot (join "." (x :: l)) = x :: l.
Proof.
  revert x. induction l as [|y l IH]; intros x Hx Hl.
  - by apply split_dot_last.
  - change (join "." (x :: y :: l)) with (x +:+ "." +:+ join "." (y :: l)).
    rewrite split_dot_piece by done. f_equal. apply IH.
    + apply Hl. by left.
    + intros ??. apply Hl. by right.
Qed.

(** A path of keys leads from [obj] through nested objects. *)
Inductive resolves : value → list string → Prop :=
| resolves_here obj : resolves obj []
| resolves_step d seg obj rest :
    d !! seg = Some obj → resolves obj rest →
    resolves (VDict d) (seg :: rest).

Lemma navigate_resolves obj segments :
  navigate obj segments = true ↔ resolves obj segments.
Proof.
  revert obj. induction segments as [|seg rest IH]; intros obj; simpl.
  - split; [constructor | done].
  - split.
    + destruct obj as [| | | | | |d| |]; try done.
      destruct (d !! seg) as [v|] eqn:Hv; [|done].
      intros ?%IH. by econstructor.
    + inversion 1 as [|d ? v ? Hv Hrest]; subst. rewrite Hv. by apply IH.
Qed.

(** X14: [_validate_secret_reference] appends at most one error, and none
    exactly when the reference is [secrets] followed by a path of keys
    that leads through the nested objects of the secrets; the bare
    [secrets] passes. *)
Theorem secret_reference_check n f reference secrets errors :
  (∃ new, _validate_secret_reference n f reference secrets errors
          = errors ++ new ∧ length new ≤ 1)
  ∧ (_validate_secret_reference n f reference secrets errors = errors
     ↔ ∃ path, reference = join "." ("secrets" :: path) ∧
               (∀ seg, seg ∈ path → no_dot seg) ∧
               resolves (VDict secrets) path).
Proof.
  unfold _validate_secret_reference.
  destruct (split_dot reference) as [|first rest] eqn:Hsplit;
    [by apply split_dot_nonempty in Hsplit|].
  pose proof (join_split_dot reference) as Hjoin. rewrite Hsplit in Hjoin.
  assert (∀ seg, seg ∈ rest → no_dot seg) as Hrest.
  { intros seg Hseg. apply (split_dot_no_dot reference). rewrite Hsplit.
    by right. }
  assert (∀ path, reference = join "." ("secrets" :: path) →
                  (∀ seg, seg ∈ path → no_dot seg) →
                  first = "secrets" ∧ rest = path) as Hinv.
  { intros path -> Hpath. rewrite split_dot_join in Hsplit by done.
    by injection Hsplit as <- <-. }
  simpl. split.
  - case_bool_decide; [eexists; split; [done | simpl; lia]|].
    destruct (navigate (VDict secrets) rest).
    + exists []. rewrite app_nil_r. split; [done | simpl; lia].
    + eexists. split; [done | simpl; lia].
  - case_bool_decide as Hhead.
    + rewrite app_same_nil. split; [done|].
      intros (path & Href & Hpath & _). destruct Hhead.
      by destruct (Hinv path Href Hpath) as [-> _].
    + assert (first = "secrets") as -> by (simpl in Hhead; congruence).
      destruct (navigate (VDict secrets) rest) eqn:Hnav.
      * split; [|done]. intros _. exists rest. split_and!; try done.
        by apply navigate_resolves.
      * rewrite app_same_nil. split; [done|].
        intros (path & Href & Hpath & Hres).
        destruct (Hinv path Href Hpath) as [_ ->].
        apply navigate_resolves in Hres. congruence.
Qed.

End secret_references.

(** * Further properties of [compare_states] *)

Section diff_shape.

Import StateTracker.

Lemma sorted_StronglySorted (X : gset string) :
  StronglySorted String.le (sorted X).
Proof. unfold sorted. apply StronglySorted_merge_sort; apply _. Qed.

Lemma sorted_NoDup (X : gset string) : NoDup (sorted X).
Proof.
  unfold sorted. rewrite merge_sort_Permutation. apply NoDup_elements.
Qed.

(** The names of the entries that a loop over a sorted list of names
    keeps are sorted and without repetition. *)
Lemma omap_names_sorted {B} (f : string → option (string * B))
    (l : list string) :
  (∀ x y, f x = Some y → y.1 = x) →
  StronglySorted String.le l → NoDup l →
  StronglySorted String.le (omap f l).*1 ∧ NoDup (omap f l).*1 ∧
  ∀ x, x ∈ (omap f l).*1 → x ∈ l.
Proof.
  intros Hf Hsorted Hnd.
  assert (∀ k x, x ∈ (omap f k).*1 → x ∈ k) as Hsub.
  { intros k x (y & -> & (z & Hz & Hy)%list_elem_of_omap)%list_elem_of_fmap.
    by rewrite (Hf z y Hy). }
  split_and!; [| |by apply Hsub].
  - induction Hsorted as [|x l Hl IH Hx]; csimpl; [constructor|].
    apply NoDup_cons in Hnd as [_ Hnd].
    destruct (f x) as [y|] eqn:Hy; csimpl; [|by apply IH].
    constructor; [by apply IH|]. rewrite (Hf x y Hy).
    apply Forall_forall. intros z Hz%Hsub.
    by eapply Forall_forall in Hx.
  - induction l as [|x l IH]; csimpl; [constructor|].
    apply NoDup_cons in Hnd as [Hx Hnd].
    apply StronglySorted_inv in Hsorted as [Hsorted _].
    destruct (f x) as [y|] eqn:Hy; csimpl; [|by apply IH].
    apply NoDup_cons. split; [|by apply IH].
    rewrite (Hf x y Hy). by intros ?%Hsub.
Qed.

Lemma service_entry_name a b x y : service_entry a b x = Some y → y.1 = x.
Proof.
  unfold service_entry.
  destruct (services a !! x) as [o|]; simpl; [|done].
  destruct (services b !! x) as [n|]; simpl; [|done].
  destruct (_compare_service_states o n); simpl; [|done].
  by intros [= <-].
Qed.

(** X15: The three parts of a diff: [services_added] and [services_removed]
    are sorted by name, without repetition, and hold exactly the names
    that are in one snapshot and not in the other; the names under
    [services_modified] are sorted too and belong to both snapshots. *)
Theorem diff_parts_sorted (now : string) (a b : snapshot) :
  let d := diff_changes (compare_states now a b) in
  (StronglySorted String.le (services_added d) ∧
   NoDup (services_added d) ∧
   ∀ n, n ∈ services_added d
        ↔ n ∈ dom (services b) ∧ n ∉ dom (services a))
  ∧ (StronglySorted String.le (services_removed d) ∧
     NoDup (services_removed d) ∧
     ∀ n, n ∈ services_removed d
          ↔ n ∈ dom (services a) ∧ n ∉ dom (services b))
  ∧ (StronglySorted String.le (services_modified d).*1 ∧
     NoDup (services_modified d).*1 ∧
     ∀ n, n ∈ (services_modified d).*1
          → n ∈ dom (services a) ∧ n ∈ dom (services b)).
Proof.
  simpl. split_and!;
    try apply sorted_StronglySorted; try apply sorted_NoDup.
  - intros n. rewrite elem_of_sorted. set_solver.
  - intros n. rewrite elem_of_sorted. set_solver.
  - apply (omap_names_sorted (service_entry a b));
      [apply service_entry_name | apply sorted_StronglySorted
      | apply sorted_NoDup].
  - apply (omap_names_sorted (service_entry a b));
      [apply service_entry_name | apply sorted_StronglySorted
      | apply sorted_NoDup].
  - intros n Hn.
    apply (omap_names_sorted (service_entry a b)) in Hn;
      [|apply service_entry_name | apply sorted_StronglySorted
       | apply sorted_NoDup].
    apply elem_of_sorted in Hn. set_solver.
Qed.

(** X16: The diff lists no modified service exactly when every service of
    both snapshots has the same field names and, field by field, [==]
    values and [==] states. *)
Theorem nothing_modified_iff (now : string) (a b : snapshot) :
  services_modified (diff_changes (compare_states now a b)) = []
  ↔ ∀ name o n,
      services a !! name = Some o → services b !! name = Some n →
      dom (fields o) = dom (fields n) ∧
      ∀ x f g, fields o !! x = Some f → fields n !! x = Some g →
               Py.eqb (Py.get "value" f) (Py.get "value" g) = true ∧
               Py.eqb (Py.get "state" f) (Py.get "state" g) = true.
Proof.
  rewrite services_modified_unfold, omap_nil. split.
  - intros Hall name o n Ho Hn. apply compare_service_states_None_iff.
    assert (name ∈ sorted (dom (services a) ∩ dom (services b))) as Hx.
    { apply elem_of_sorted, elem_of_intersection.
      split; apply elem_of_dom; by eexists. }
    specialize (Hall name Hx). unfold service_entry in Hall.
    rewrite Ho, Hn in Hall. simpl in Hall.
    by destruct (_compare_service_states o n).
  - intros Hall x _. unfold service_entry.
    destruct (services a !! x) as [o|] eqn:Ho; simpl; [|done].
    destruct (services b !! x) as [n|] eqn:Hn; simpl; [|done].
    by rewrite (proj2 (compare_service_states_None_iff o n)
                      (Hall x o n Ho Hn)).
Qed.

Lemma changed_value_entry (now : string) (a b : snapshot)
    name o n x f g :
  services a !! name = Some o → services b !! name = Some n →
  fields o !! x = Some f → fields n !! x = Some g →
  Py.ne (Py.get "value" f) (Py.get "value" g) = true →
  ∃ d c,
    (name, d) ∈ services_modified (diff_changes (compare_states now a b)) ∧
    (x, c) ∈ fields_changed d ∧
    value_change c = Some (Py.get "value" f, Py.get "value" g).
Proof.
  intros Ho Hn Hf Hg Hne.
  assert (∃ c, field_entry (fields o) (fields n) x = Some (x, c) ∧
               value_change c = Some (Py.get "value" f, Py.get "value" g))
    as (c & Hc & Hval).
  { unfold field_entry. rewrite Hf, Hg. simpl.
    unfold compare_field. rewrite Hne. by eexists. }
  assert ((x, c) ∈ omap (field_entry (fields o) (fields n))
                        (sorted (dom (fields o) ∩ dom (fields n)))) as Hin.
  { apply list_elem_of_omap. exists x. split; [|done].
    apply elem_of_sorted, elem_of_intersection.
    split; apply elem_of_dom; by eexists. }
  destruct (_compare_service_states o n) as [d|] eqn:Hd.
  - exists d, c. split_and!; [|by apply compare_service_states_Some in Hd
                                  as (_ & _ & ->) | done].
    rewrite services_modified_unfold. apply list_elem_of_omap.
    exists name. split.
    + apply elem_of_sorted, elem_of_intersection.
      split; apply elem_of_dom; by eexists.
    + unfold service_entry. rewrite Ho, Hn. simpl. by rewrite Hd.
  - apply compare_service_states_None in Hd as (_ & _ & Hnil).
    rewrite Hnil in Hin. by apply elem_of_nil in Hin.
Qed.

(** X17: A field of a common service whose value differs is reported: the
    service is listed under [services_modified], the field under its
    [fields_changed], with the old and the new value. *)
Theorem value_change_recorded (now : string) (a b : snapshot)
    name o n x f g :
  services a !! name = Some o → services b !! name = Some n →
  fields o !! x = Some f → fields n !! x = Some g →
  Py.ne (Py.get "value" f) (Py.get "value" g) = true →
  ∃ d c,
    (name, d) ∈ services_modified (diff_changes (compare_states now a b)) ∧
    (x, c) ∈ fields_changed d ∧
    value_change c = Some (Py.get "value" f, Py.get "value" g).
Proof. apply changed_value_entry. Qed.

Lemma example_field_value v req vis :
  Py.get "value" (example_field_state v req vis) = v.
Proof.
  unfold Py.get, example_field_state.
  by rewrite lookup_insert_ne, lookup_insert_eq by done.
Qed.

Lemma example_snapshot_svc fs :
  services (example_snapshot fs) !! "svc"
  = Some {| fields := fs; summary := ∅ |}.
Proof. apply lookup_singleton_eq. Qed.

Lemma value_change_recorded_witness :
  ∃ d c,
    ("svc", d)
      ∈ services_modified
          (diff_changes (compare_states "t" example_old example_new)) ∧
    ("port", c) ∈ fields_changed d ∧
    value_change c = Some (VInt 80, VInt 8080).
Proof.
  destruct (value_change_recorded "t" example_old example_new "svc" _ _
              "port" (example_field_state (VInt 80) false "exposed")
              (example_field_state (VInt 8080) false "exposed")
              (example_snapshot_svc _) (example_snapshot_svc _)
              (lookup_insert_eq _ _ _) (lookup_insert_eq _ _ _))
    as (d & c & Hd & Hc & Hv).
  - by rewrite !example_field_value.
  - exists d, c. by rewrite <-(example_field_value (VInt 80) false "exposed"),
      <-(example_field_value (VInt 8080) false "exposed").
Defined.

End diff_shape.

(** * Computing a snapshot: [compute_state] *)

Module StateComputation.

Import Py Topology StateTracker.

(** The truth value of a JSON value, as [if v:] takes it. *)
Definition truthy (v : value) : bool :=
  match v with
  | VNone => false
  | VBool b => b
  | VInt z => negb (z =? 0)%Z
  | VFloat q => negb (Qeq_bool q 0)
  | VStr s => negb (is_empty s)
  | VList l => match l with [] => false | _ => true end
  | VDict d => bool_decide (d ≠ ∅)
  | VNaN => true
  | VInf _ => true
  end.

(** [d.get(k, dflt)] *)
Definition get_or (k : string) (dflt : value) (d : gmap string value)
  : value :=
  default dflt (d !! k).

(** What [compute_state] reads of a service: [config.get('properties',
    {})] and [config.get('required', [])]. *)
Record tracked := {
  tracked_config : configuration;
  required : list string;
}.

(** "Determine state" in [_compute_field_state]. *)
Definition state_of (field_def : field_def) (is_required : bool) : string :=
  let default_handling :=
    get_or "x-default-handling" (VStr "preloaded") field_def in
  if eqb default_handling (VStr "user-configured") then "configured"
  else if eqb default_handling (VStr "unset")
       then (if is_required then "unset" else "optional_unset")
  else "default".

Definition _compute_field_state (field_def : field_def) (is_required : bool)
  : field_state :=
  let state := state_of field_def is_required in
  let field_state : field_state :=
    <["state" := VStr state]>
    (<["value" := get "default" field_def]>
    (<["required" := VBool is_required]>
    (<["type" := get_or "type" (VStr "unknown") field_def]>
    (<["sensitive" := get_or "x-sensitive" (VBool false) field_def]>
    (<["visibility" := get_or "x-visibility" (VStr "exposed") field_def]>
     ∅))))) in
  let field_state :=
    if truthy (get "x-template-path" field_def)
    then <["template_path" := get "x-template-path" field_def]> field_state
    else field_state in
  let field_state :=
    if truthy (get "x-secret-ref" field_def)
    then <["secret_ref" := get "x-secret-ref" field_def]> field_state
    else field_state in
  field_state.

(** [summary[k] += 1] *)
Definition bump (k : string) (summary : gmap string Z) : gmap string Z :=
  <[k := (default 0 (summary !! k) + 1)%Z]> summary.

(** The body of the loop of [_compute_service_state]. *)
Definition field_step (required : list string) (st : service_state)
    (item : string * field_def) : service_state :=
  let field_state :=
    _compute_field_state item.2 (bool_decide (item.1 ∈ required)) in
  {| fields := <[item.1 := field_state]> (fields st);
     summary :=
       if eqb (get "state" field_state) (VStr "default")
       then bump "using_defaults" (summary st)
       else if eqb (get "state" field_state) (VStr "configured")
       then bump "user_configured" (summary st)
       else if eqb (get "state" field_state) (VStr "unset")
       then bump "unset_required" (summary st)
       else summary st |}.

Definition _compute_service_state (service : tracked) : service_state :=
  let properties := properties (tracked_config service) in
  foldl (field_step (required service))
        {| fields := ∅;
           summary := <["total" := Z.of_nat (size properties)]>
                      (<["using_defaults" := 0%Z]>
                      (<["user_configured" := 0%Z]>
                      (<["unset_required" := 0%Z]> ∅))) |}
        (map_to_list properties).

(** [compute_state]: [now] is [datetime.utcnow().isoformat()] and
    [version] the [schema_version] of the topology, if it has one. *)
Definition compute_state (now : string) (version : option string)
    (svcs : list (string * tracked)) : snapshot :=
  {| timestamp := now +:+ "Z";
     schema_version := Some (default "unknown" version);
     services :=
       foldl (λ acc '(service_name, service),
                let service_state := _compute_service_state service in
                if bool_decide (fields service_state ≠ ∅)
                then <[service_name := service_state]> acc
                else acc)
             ∅ svcs |}.

End StateComputation.

Section snapshots.

Import StateTracker StateComputation.

(** The entry that one pass of the loop of [_compute_service_state] puts
    into [fields]. *)
Definition entry (req : list string) (item : string * field_def)
  : string * field_state :=
  (item.1, _compute_field_state item.2 (bool_decide (item.1 ∈ req))).

Definition has_state (s : string) (kv : string * field_state) : bool :=
  Py.eqb (Py.get "state" kv.2) (VStr s).

(** The number of entries with the state [s]. *)
Definition count (s : string) (l : list (string * field_state)) : Z :=
  Z.of_nat (length (filter (λ kv, has_state s kv = true) l)).

Definition count_state (s : string) (ss : service_state) : Z :=
  count s (map_to_list (fields ss)).

Lemma get_state fd r :
  Py.get "state" (_compute_field_state fd r) = VStr (state_of fd r).
Proof.
  unfold _compute_field_state, Py.get at 1. cbv zeta.
  destruct (truthy (Py.get "x-template-path" fd)),
           (truthy (Py.get "x-secret-ref" fd));
    repeat (rewrite lookup_insert_ne by done); by rewrite lookup_insert_eq.
Qed.

Lemma get_value fd r :
  Py.get "value" (_compute_field_state fd r) = Py.get "default" fd.
Proof.
  unfold _compute_field_state, Py.get at 1. cbv zeta.
  destruct (truthy (Py.get "x-template-path" fd)),
           (truthy (Py.get "x-secret-ref" fd));
    repeat (rewrite lookup_insert_ne by done); by rewrite lookup_insert_eq.
Qed.

Lemma state_of_cases fd r :
  state_of fd r = "default" ∨ state_of fd r = "configured" ∨
  state_of fd r = "unset" ∨ state_of fd r = "optional_unset".
Proof. unfold state_of. repeat case_match; auto. Qed.

Lemma entry_names req (l : list (string * field_def)) :
  (entry req <$> l).*1 = l.*1.
Proof. induction l as [|[k fd] l IH]; csimpl; by f_equal. Qed.

Lemma has_state_entry s req item :
  has_state s (entry req item)
  = bool_decide (state_of item.2 (bool_decide (item.1 ∈ req)) = s).
Proof. unfold has_state, entry. simpl. by rewrite get_state. Qed.

Lemma count_snoc s l kv :
  count s (l ++ [kv]) = (count s l + if has_state s kv then 1 else 0)%Z.
Proof.
  unfold count. rewrite filter_app, length_app, filter_cons, filter_nil.
  destruct (has_state s kv); simpl; lia.
Qed.

Lemma count_partition (l : list (string * field_def)) req :
  Z.of_nat (length l)
  = (count "default" (entry req <$> l) + count "configured" (entry req <$> l)
     + count "unset" (entry req <$> l)
     + count "optional_unset" (entry req <$> l))%Z.
Proof.
  induction l as [|[k fd] l IH] using rev_ind; [done|].
  rewrite fmap_app, length_app.
  change (entry req <$> [(k, fd)]) with [entry req (k, fd)].
  rewrite !count_snoc, !has_state_entry. simpl.
  destruct (state_of_cases fd (bool_decide (k ∈ req)))
    as [-> | [-> | [-> | ->]]]; simpl; lia.
Qed.

Lemma field_step_summary req st item z s k :
  (s, k) ∈ [("default", "using_defaults"); ("configured", "user_configured");
            ("unset", "unset_required")] →
  summary st !! k = Some z →
  summary (field_step req st item) !! k
  = Some (z + if has_state s (entry req item) then 1 else 0)%Z.
Proof.
  intros Hin Hz. unfold field_step, has_state, entry. simpl.
  rewrite get_state.
  destruct (state_of_cases item.2 (bool_decide (item.1 ∈ req)))
    as [-> | [-> | [-> | ->]]];
    repeat (apply elem_of_cons in Hin as [[= -> ->] | Hin]);
    try (by apply elem_of_nil in Hin); simpl; unfold bump;
    rewrite ?lookup_insert_eq, ?lookup_insert_ne by done;
    rewrite ?Hz; simpl; f_equal; lia.
Qed.

Lemma field_step_total req st item :
  summary (field_step req st item) !! "total" = summary st !! "total".
Proof.
  unfold field_step. simpl. unfold bump.
  repeat case_match; by rewrite ?lookup_insert_ne by done.
Qed.

(** The loop of [_compute_service_state], from the initial state. *)
Lemma service_loop (req : list string) (n : Z)
    (l : list (string * field_def)) :
  NoDup l.*1 →
  let st :=
    foldl (field_step req)
          {| fields := ∅;
             summary := <["total" := n]>
                        (<["using_defaults" := 0%Z]>
                        (<["user_configured" := 0%Z]>
                        (<["unset_required" := 0%Z]> ∅))) |} l in
  fields st = list_to_map (entry req <$> l) ∧
  summary st !! "total" = Some n ∧
  summary st !! "using_defaults" = Some (count "default" (entry req <$> l)) ∧
  summary st !! "user_configured"
  = Some (count "configured" (entry req <$> l)) ∧
  summary st !! "unset_required" = Some (count "unset" (entry req <$> l)).
Proof.
  induction l as [|[k fd] l IH] using rev_ind; intros Hnd; cbv zeta.
  { simpl. split_and!; [done|..];
      by rewrite ?lookup_insert_eq, ?lookup_insert_ne by done. }
  rewrite fmap_app in Hnd. apply NoDup_app in Hnd as (Hnd & Hk & _).
  destruct (IH Hnd) as (Hf & Ht & Hd & Hc & Hu).
  rewrite foldl_app, fmap_app.
  change (entry req <$> [(k, fd)]) with [entry req (k, fd)].
  rewrite !count_snoc. cbn [foldl]. split_and!.
  - unfold field_step at 1. cbn [fields fst snd]. rewrite Hf. symmetry.
    apply (list_to_map_snoc (entry req <$> l) k).
    rewrite entry_names. intros Hin. apply (Hk k Hin). by left.
  - by rewrite field_step_total.
  - apply (field_step_summary _ _ _ _ "default"); [|done].
    by left.
  - apply (field_step_summary _ _ _ _ "configured"); [|done].
    by right; left.
  - apply (field_step_summary _ _ _ _ "unset"); [|done].
    by right; right; left.
Qed.

Lemma compute_service_state_loop (c : tracked) :
  let m := properties (tracked_config c) in
  let l := entry (required c) <$> map_to_list m in
  let ss := _compute_service_state c in
  fields ss = list_to_map l ∧
  summary ss !! "total" = Some (Z.of_nat (size m)) ∧
  summary ss !! "using_defaults" = Some (count "default" l) ∧
  summary ss !! "user_configured" = Some (count "configured" l) ∧
  summary ss !! "unset_required" = Some (count "unset" l).
Proof.
  intros m l ss. subst m l ss. unfold _compute_service_state. cbv zeta.
  exact (service_loop (required c)
           (Z.of_nat (size (properties (tracked_config c))))
           (map_to_list (properties (tracked_config c)))
           (NoDup_fst_map_to_list _)).
Qed.

Lemma fields_to_list (c : tracked) :
  map_to_list (fields (_compute_service_state c))
  ≡ₚ entry (required c) <$> map_to_list (properties (tracked_config c)).
Proof.
  destruct (compute_service_state_loop c) as (-> & _).
  apply map_to_list_to_map. rewrite entry_names.
  apply NoDup_fst_map_to_list.
Qed.

Lemma count_Permutation s l k : l ≡ₚ k → count s l = count s k.
Proof. unfold count. by intros ->. Qed.

(** Every property gets a field state, under its own name. *)
Lemma compute_service_state_fields (c : tracked) (x : string) :
  fields (_compute_service_state c) !! x
  = (λ fd, _compute_field_state fd (bool_decide (x ∈ required c)))
      <$> properties (tracked_config c) !! x.
Proof.
  destruct (compute_service_state_loop c) as (-> & _).
  destruct (properties (tracked_config c) !! x) as [fd|] eqn:Hx; simpl.
  - apply elem_of_list_to_map.
    { rewrite entry_names. apply NoDup_fst_map_to_list. }
    apply (list_elem_of_fmap_2' _ _ (x, fd)); [|done].
    by apply elem_of_map_to_list.
  - apply not_elem_of_list_to_map. rewrite entry_names.
    intros ([k fd] & -> & Hin%elem_of_map_to_list)%list_elem_of_fmap.
    simpl in Hx. congruence.
Qed.

Lemma compute_service_state_empty (c : tracked) :
  fields (_compute_service_state c) = ∅
  ↔ properties (tracked_config c) = ∅.
Proof.
  rewrite !map_empty. split; intros Hall x.
  - specialize (Hall x). rewrite compute_service_state_fields in Hall.
    by destruct (properties (tracked_config c) !! x).
  - by rewrite compute_service_state_fields, Hall.
Qed.

(** X18: The counters of [summary]: [total] is the number of fields,
    [using_defaults], [user_configured] and [unset_required] count the
    fields in the states [default], [configured] and [unset], and the
    fields that none of the three counts are the ones in the state
    [optional_unset]. *)
Theorem summary_counts (c : tracked) :
  let ss := _compute_service_state c in
  summary ss !! "total" = Some (Z.of_nat (size (fields ss))) ∧
  summary ss !! "using_defaults" = Some (count_state "default" ss) ∧
  summary ss !! "user_configured" = Some (count_state "configured" ss) ∧
  summary ss !! "unset_required" = Some (count_state "unset" ss) ∧
  Z.of_nat (size (fields ss))
  = (count_state "default" ss + count_state "configured" ss
     + count_state "unset" ss + count_state "optional_unset" ss)%Z.
Proof.
  cbv zeta. unfold count_state.
  rewrite !(count_Permutation _ _ _ (fields_to_list c)).
  destruct (compute_service_state_loop c) as (Hf & Ht & Hd & Hc & Hu).
  assert (size (fields (_compute_service_state c))
          = length (map_to_list (properties (tracked_config c)))) as Hsize.
  { rewrite Hf, map_size_list_to_map, length_fmap; [done|].
    rewrite entry_names. apply NoDup_fst_map_to_list. }
  rewrite Hsize. split_and!; try done.
  - by rewrite Ht, length_map_to_list.
  - apply count_partition.
Qed.

(** The loop of [compute_state]. *)
Lemma compute_state_services now version (svcs : list (string * tracked))
    name ss :
  NoDup svcs.*1 →
  services (compute_state now version svcs) !! name = Some ss
  ↔ ∃ c, (name, c) ∈ svcs ∧ properties (tracked_config c) ≠ ∅ ∧
         ss = _compute_service_state c.
Proof.
  unfold compute_state. simpl.
  induction svcs as [|[n c] svcs IH] using rev_ind; intros Hnd.
  { simpl. rewrite lookup_empty. split; [done|].
    by intros (c & ?%elem_of_nil & _). }
  rewrite fmap_app in Hnd. apply NoDup_app in Hnd as (Hnd & Hn & _).
  rewrite foldl_app. simpl. specialize (IH Hnd).
  assert (∀ c', (name, c') ∈ svcs → n ≠ name) as Hfresh.
  { intros c' Hin ->. apply (Hn name); [|by left].
    by apply (list_elem_of_fmap_2' _ _ (name, c')). }
  assert ((∃ c', (name, c') ∈ svcs ++ [(n, c)] ∧
                 properties (tracked_config c') ≠ ∅ ∧
                 ss = _compute_service_state c')
          ↔ (∃ c', (name, c') ∈ svcs ∧
                   properties (tracked_config c') ≠ ∅ ∧
                   ss = _compute_service_state c')
            ∨ (name = n ∧ properties (tracked_config c) ≠ ∅ ∧
               ss = _compute_service_state c)) as ->.
  { split.
    - intros (c' & [Hin | Hin%list_elem_of_singleton]%elem_of_app & ? & ?).
      + left. by exists c'.
      + right. by simplify_eq.
    - intros [(c' & Hin & ? & ?) | (-> & ? & ?)].
      + exists c'. split; [|done]. apply elem_of_app. by left.
      + exists c. split; [|done]. apply elem_of_app. right. by left. }
  case_bool_decide as Hne.
  - rewrite compute_service_state_empty in Hne.
    destruct (decide (n = name)) as [-> | Hneq].
    + rewrite lookup_insert_eq. split.
      * intros [= <-]. by right.
      * intros [(c' & Hin & _) | (_ & _ & ->)]; [|done].
        by destruct (Hfresh c' Hin).
    + rewrite lookup_insert_ne, IH by done. split; [by left|].
      intros [? | (-> & _)]; done.
  - rewrite IH. split; [by left|].
    intros [? | (_ & Hp & _)]; [done|].
    destruct Hp. by apply compute_service_state_empty.
Qed.

(** X19: A snapshot holds the services that have at least one property, and
    no others; a service in it has one field per property, whose [value]
    is the [default] of the property ([None] without one). *)
Theorem snapshot_services now version (svcs : list (string * tracked))
    (name : string) :
  NoDup svcs.*1 →
  (name ∈ dom (services (compute_state now version svcs))
   ↔ ∃ c, (name, c) ∈ svcs ∧ properties (tracked_config c) ≠ ∅)
  ∧ ∀ ss, services (compute_state now version svcs) !! name = Some ss →
      ∃ c, (name, c) ∈ svcs ∧
           dom (fields ss) = dom (properties (tracked_config c)) ∧
           ∀ x fd, properties (tracked_config c) !! x = Some fd →
                   ∃ fs, fields ss !! x = Some fs ∧
                         Py.get "value" fs = Py.get "default" fd.
Proof.
  intros Hnd. split.
  - rewrite elem_of_dom. split.
    + intros [ss (c & ? & ? & _)%compute_state_services]; [|done].
      by exists c.
    + intros (c & ? & ?). exists (_compute_service_state c).
      apply compute_state_services; [done|]. by exists c.
  - intros ss (c & Hin & _ & ->)%compute_state_services; [|done].
    exists c. split_and!; [done| |].
    + apply set_eq. intros x.
      rewrite !elem_of_dom, compute_service_state_fields.
      unfold is_Some.
      destruct (properties (tracked_config c) !! x); simpl; naive_solver.
    + intros x fd Hx. rewrite compute_service_state_fields, Hx. simpl.
      eexists. split; [done|]. apply get_value.
Qed.

(** Two topologies: a database with one property, whose default is
    [port], beside a proxy without properties; and the database alone,
    before it had a property. *)
Definition example_tracked (port : Z) : list (string * tracked) :=
  [("db", {| tracked_config :=
               {| properties := {[ "port" := {[ "default" := VInt port ]} ]} |};
             required := ["port"] |});
   ("proxy", {| tracked_config := {| properties := ∅ |}; required := [] |})].

Definition example_bare : list (string * tracked) :=
  [("db", {| tracked_config := {| properties := ∅ |}; required := [] |})].

Lemma example_tracked_NoDup port : NoDup (example_tracked port).*1.
Proof.
  simpl. apply NoDup_cons. split; [|apply NoDup_singleton].
  by intros [=]%list_elem_of_singleton.
Qed.

Lemma example_bare_NoDup : NoDup example_bare.*1.
Proof. apply NoDup_singleton. Qed.

Lemma snapshot_services_witness :
  ("db" ∈ dom (services (compute_state "t" None (example_tracked 5432)))
   ↔ ∃ c, ("db", c) ∈ example_tracked 5432 ∧
          properties (tracked_config c) ≠ ∅)
  ∧ ∀ ss,
      services (compute_state "t" None (example_tracked 5432)) !! "db"
      = Some ss →
      ∃ c, ("db", c) ∈ example_tracked 5432 ∧
           dom (fields ss) = dom (properties (tracked_config c)) ∧
           ∀ x fd, properties (tracked_config c) !! x = Some fd →
                   ∃ fs, fields ss !! x = Some fs ∧
                         Py.get "value" fs = Py.get "default" fd.
Proof. apply snapshot_services, example_tracked_NoDup. Defined.

Lemma compute_state_lookup now version (svcs : list (string * tracked))
    name c :
  NoDup svcs.*1 → (name, c) ∈ svcs →
  properties (tracked_config c) ≠ ∅ →
  services (compute_state now version svcs) !! name
  = Some (_compute_service_state c).
Proof.
  intros Hnd Hin Hne. apply compute_state_services; [done|]. by exists c.
Qed.

Lemma compute_state_dom now version (svcs : list (string * tracked)) name :
  NoDup svcs.*1 →
  name ∈ dom (services (compute_state now version svcs))
  ↔ ∃ c, (name, c) ∈ svcs ∧ properties (tracked_config c) ≠ ∅.
Proof.
  intros Hnd. rewrite elem_of_dom. split.
  - intros [ss (c & ? & ? & _)%compute_state_services]; [|done].
    by exists c.
  - intros (c & ? & ?). exists (_compute_service_state c).
    by apply compute_state_lookup.
Qed.

Lemma services_added_iff now (a b : snapshot) n :
  n ∈ services_added (diff_changes (compare_states now a b))
  ↔ n ∈ dom (services b) ∧ n ∉ dom (services a).
Proof.
  unfold compare_states. cbn [diff_changes services_added].
  rewrite elem_of_sorted. apply elem_of_difference.
Qed.

(** X20: From the topology to the diff: when the default of a property
    changes between two topologies, the diff of their snapshots lists
    the service as modified and the field as changed, with the old and
    the new default. *)
Theorem default_change_detected now t t' v v'
    (old new : list (string * tracked)) name co cn x fd fd' :
  NoDup old.*1 → NoDup new.*1 →
  (name, co) ∈ old → (name, cn) ∈ new →
  properties (tracked_config co) !! x = Some fd →
  properties (tracked_config cn) !! x = Some fd' →
  Py.ne (Py.get "default" fd) (Py.get "default" fd') = true →
  ∃ d c,
    (name, d)
      ∈ services_modified
          (diff_changes (compare_states now (compute_state t v old)
                                        (compute_state t' v' new))) ∧
    (x, c) ∈ fields_changed d ∧
    value_change c = Some (Py.get "default" fd, Py.get "default" fd').
Proof.
  intros Hold Hnew Hco Hcn Hfd Hfd' Hne.
  assert (properties (tracked_config co) ≠ ∅) as Hpo.
  { intros Hempty. by rewrite Hempty, lookup_empty in Hfd. }
  assert (properties (tracked_config cn) ≠ ∅) as Hpn.
  { intros Hempty. by rewrite Hempty, lookup_empty in Hfd'. }
  rewrite <-(get_value fd (bool_decide (x ∈ required co))),
          <-(get_value fd' (bool_decide (x ∈ required cn))) in Hne |- *.
  eapply changed_value_entry; [by apply compute_state_lookup..| | |done].
  - by rewrite compute_service_state_fields, Hfd.
  - by rewrite compute_service_state_fields, Hfd'.
Qed.

Lemma example_default (port : Z) :
  Py.get "default" ({[ "default" := VInt port ]} : field_def) = VInt port.
Proof. unfold Py.get. by rewrite lookup_singleton_eq. Qed.

Lemma default_change_detected_witness :
  ∃ d c,
    ("db", d)
      ∈ services_modified
          (diff_changes
             (compare_states "now"
                (compute_state "t" None (example_tracked 5432))
                (compute_state "u" None (example_tracked 5433)))) ∧
    ("port", c) ∈ fields_changed d ∧
    value_change c = Some (VInt 5432, VInt 5433).
Proof.
  destruct (default_change_detected "now" "t" "u" None None
              (example_tracked 5432) (example_tracked 5433) "db" _ _
              "port" {[ "default" := VInt 5432 ]} {[ "default" := VInt 5433 ]}
              (example_tracked_NoDup 5432) (example_tracked_NoDup 5433)
              (list_elem_of_here _ _) (list_elem_of_here _ _)
              (lookup_singleton_eq _ _) (lookup_singleton_eq _ _))
    as (d & c & Hd & Hc & Hv).
  - by rewrite !example_default.
  - exists d, c. by rewrite <-(example_default 5432), <-(example_default 5433).
Defined.

(** X21: A snapshot knows a service only through its fields: the diff lists
    as added the services that have a property in the new topology and
    had none in the old one, whether or not the old topology had the
    service. *)
Theorem first_property_counts_as_added now t t' v v'
    (old new : list (string * tracked)) name :
  NoDup old.*1 → NoDup new.*1 →
  name ∈ services_added
           (diff_changes (compare_states now (compute_state t v old)
                                         (compute_state t' v' new)))
  ↔ (∃ c, (name, c) ∈ new ∧ properties (tracked_config c) ≠ ∅) ∧
    ¬ (∃ c, (name, c) ∈ old ∧ properties (tracked_config c) ≠ ∅).
Proof.
  intros Hold Hnew.
  by rewrite services_added_iff, !compute_state_dom.
Qed.

Lemma first_property_counts_as_added_witness :
  "db" ∈ services_added
           (diff_changes
              (compare_states "now" (compute_state "t" None example_bare)
                 (compute_state "u" None (example_tracked 5432)))).
Proof.
  apply (first_property_counts_as_added "now" "t" "u" None None
           example_bare (example_tracked 5432) "db").
  - apply example_bare_NoDup.
  - apply example_tracked_NoDup.
  - split.
    + eexists. split; [by left|]. simpl.
      intros Heq. by apply (f_equal (lookup "port")) in Heq.
    + intros (c & [= ->]%list_elem_of_singleton & Hne). by destruct Hne.
Defined.

End snapshots.
